(** * The chat hub of the forum service

    A shallow embedding of the real-time chat fan-out of
    [forum_service]: the entity constructor [NewChatMessage], the
    SQL-backed chat repository, the [Hub.Run] coordination loop and the
    two per-connection pumps of the websocket delivery package.

    Go channels are modelled as bounded FIFO buffers with a closed flag.
    A send on a closed channel and a second close are runtime panics, a
    blocking send on a full buffer parks the goroutine; the three ways a
    statement can end are the constructors of [outcome]. *)

From stdpp Require Import gmap strings list fin_maps sorting.
From Stdlib Require Import ZArith Lia.

(** ** package entity *)

(** [time.Time] restricted to UTC instants: nanoseconds since the epoch. *)
Definition Time := Z.

Record ChatMessage := mkChatMessage {
  ID : string;
  UserID : string;
  Text : string;
  CreatedAt : Time
}.

Record ChatMessageRequest := mkChatMessageRequest {
  ReqText : string
}.

#[global] Instance ChatMessage_eq_dec : EqDecision ChatMessage.
Proof. solve_decision. Defined.

(** The two library calls [NewChatMessage] makes, [uuid.New().String()]
    and [time.Now().UTC()], answer from outside the program; one [Tick]
    holds the answers given during one construction. *)
Record Tick := mkTick {
  uuid_New : string;
  time_Now : Time
}.

Definition NewChatMessage (env : Tick) (req : ChatMessageRequest)
    (userID : string) : ChatMessage :=
  {| ID := uuid_New env;
     UserID := userID;
     Text := ReqText req;
     CreatedAt := time_Now env |}.

(** The struct tag [validate:"required,min=1,max=1000"] carried by the
    [Text] field of both [ChatMessage] and [ChatMessageRequest], read as
    the predicate a validator would check. *)
Definition text_tag_ok (s : string) : bool :=
  (1 <=? String.length s) && (String.length s <=? 1000).

(** ** Go errors, panics and parked goroutines *)

Inductive error :=
  | ErrDriver          (* the SQL driver reported a failure *)
  | ErrConstraint      (* PRIMARY KEY violated by an INSERT *)
  | ErrNoRows.         (* "no rows affected when saving chat message" *)

#[global] Instance error_eq_dec : EqDecision error.
Proof. solve_decision. Defined.

Inductive fault :=
  | SendOnClosed
  | CloseOfClosed
  | NilDeref.

#[global] Instance fault_eq_dec : EqDecision fault.
Proof. solve_decision. Defined.

Inductive outcome (A : Type) :=
  | Done (a : A)
  | Panic (f : fault)
  | Blocked.
Arguments Done {A} a.
Arguments Panic {A} f.
Arguments Blocked {A}.

#[global] Instance outcome_bind : MBind outcome := λ A B k x,
  match x with
  | Done a => k a
  | Panic f => Panic f
  | Blocked => Blocked
  end.

Definition is_Done {A} (x : outcome A) : Prop := ∃ a, x = Done a.
Definition is_Panic {A} (x : outcome A) : Prop := ∃ f, x = Panic f.

(** ** Buffered channels of [*entity.ChatMessage] *)

Record chan := mkChan {
  buf : list ChatMessage;       (* queued elements, oldest first *)
  cap : nat;
  closed : bool
}.

(** [make(chan *entity.ChatMessage, n)] *)
Definition make_chan (n : nat) : chan :=
  {| buf := []; cap := n; closed := false |}.

Definition has_room (ch : chan) : bool := length (buf ch) <? cap ch.

Definition enqueue (m : ChatMessage) (ch : chan) : chan :=
  {| buf := buf ch ++ [m]; cap := cap ch; closed := closed ch |}.

(** [ch <- m] *)
Definition chan_send (m : ChatMessage) (ch : chan) : outcome chan :=
  if closed ch then Panic SendOnClosed
  else if has_room ch then Done (enqueue m ch)
  else Blocked.

(** [select { case ch <- m: default: }]; [None] is the default branch. *)
Definition chan_try_send (m : ChatMessage) (ch : chan) : outcome (option chan) :=
  if closed ch then Panic SendOnClosed
  else if has_room ch then Done (Some (enqueue m ch))
  else Done None.

Definition mark_closed (ch : chan) : chan :=
  {| buf := buf ch; cap := cap ch; closed := true |}.

(** [close(ch)] *)
Definition chan_close (ch : chan) : outcome chan :=
  if closed ch then Panic CloseOfClosed
  else Done (mark_closed ch).

(** [m, ok := <-ch] when it does not park: the element taken, if any. *)
Definition chan_recv (ch : chan) : option ChatMessage * chan :=
  match buf ch with
  | [] => (None, ch)
  | m :: rest => (Some m, {| buf := rest; cap := cap ch; closed := closed ch |})
  end.

(** ** The message store as the hub sees it

    [ChatUseCase] is the Go interface held in [Hub.chatUC]; [Store] is the
    state behind it. Go's [(value, error)] results are pairs whose second
    component is [None] for a nil error. *)

Class ChatUseCase (Store : Type) := {
  SaveMessage : Store → ChatMessage → Store * option error;
  GetMessages : Store → Z → Z → Store * (list ChatMessage * option error)
}.

(** ** package repository: the chat_messages table *)

Module repository.

#[local] Open Scope Z_scope.

(** A row of [chat_messages]. The [created_at] column holds the text
    written by [msg.CreatedAt.Format(time.RFC3339)], which has whole
    seconds only; the row keeps that count of seconds. For UTC texts of
    this layout the text order of [ORDER BY created_at] is the order of
    the seconds. *)
Record Row := mkRow {
  row_id : string;
  row_user_id : string;
  row_text : string;
  row_created_at : Z
}.

Definition format_RFC3339 (t : Time) : Z := t `div` 1000000000.
Definition parse_RFC3339 (s : Z) : Time := s * 1000000000.

(** [sql.DB]: the table in insertion order and the failures the driver
    is going to report, one flag per statement executed ([true] makes
    the statement fail; an exhausted list means no more failures). *)
Record DB := mkDB {
  chat_messages : list Row;
  driver_faults : list bool
}.

Definition next_fault (db : DB) : bool * DB :=
  match driver_faults db with
  | [] => (false, db)
  | f :: rest => (f, {| chat_messages := chat_messages db; driver_faults := rest |})
  end.

(** [INSERT INTO chat_messages (id, user_id, text, created_at) VALUES (?, ?, ?, ?)]
    with [id] the primary key; the result is the number of rows affected
    ([result.RowsAffected()], which does not fail with this driver).
    Retention, that is [CleanOldMessages] and the trigger of the
    migrations, only removes rows and acts from outside the hub; the
    table below is the table as the statement at hand finds it. *)
Definition exec_insert (db : DB) (r : Row) : DB * (error + Z) :=
  let '(f, db1) := next_fault db in
  if f then (db1, inl ErrDriver)
  else if bool_decide (row_id r ∈ row_id <$> chat_messages db1)
  then (db1, inl ErrConstraint)
  else ({| chat_messages := chat_messages db1 ++ [r];
           driver_faults := driver_faults db1 |}, inr 1).

Definition SaveMessage (db : DB) (msg : ChatMessage) : DB * option error :=
  let r := {| row_id := ID msg; row_user_id := UserID msg;
              row_text := Text msg;
              row_created_at := format_RFC3339 (CreatedAt msg) |} in
  match exec_insert db r with
  | (db', inl err) => (db', Some err)
  | (db', inr rows) =>
      if rows =? 0 then (db', Some ErrNoRows) else (db', None)
  end.

(** [ORDER BY created_at DESC]: insertion of a row into a list that is
    already in descending order, before the first row that is not more
    recent. Rows of one second thus stay in the order of insertion, as
    SQLite lists them; SQL leaves the order of equal keys open. *)
Fixpoint insert_desc (r : Row) (l : list Row) : list Row :=
  match l with
  | [] => [r]
  | x :: l' =>
      if row_created_at x <=? row_created_at r then r :: x :: l'
      else x :: insert_desc r l'
  end.

Definition order_by_created_at_desc (l : list Row) : list Row :=
  foldr insert_desc [] l.

(** [LIMIT ? OFFSET ?] as SQLite reads them: a negative limit is no
    limit, a negative offset is zero. *)
Definition limit_offset {A} (limit offset : Z) (l : list A) : list A :=
  let skipped := drop (Z.to_nat offset) l in
  if limit <? 0 then skipped else take (Z.to_nat limit) skipped.

(** [SELECT id, user_id, text, created_at FROM chat_messages
     ORDER BY created_at DESC LIMIT ? OFFSET ?] *)
Definition query_select (db : DB) (limit offset : Z) : DB * (error + list Row) :=
  let '(f, db1) := next_fault db in
  if f then (db1, inl ErrDriver)
  else (db1, inr (limit_offset limit offset
                    (order_by_created_at_desc (chat_messages db1)))).

(** [a] is at least as recent as [b]. *)
Definition more_recent (a b : Row) : Prop :=
  row_created_at b ≤ row_created_at a.

(** The driver reports a failure for the next statement. *)
Definition fails_next (db : DB) : bool := (next_fault db).1.

(** [rows.Scan] followed by [time.Parse(time.RFC3339, createdAt)] *)
Definition scan (r : Row) : ChatMessage :=
  {| ID := row_id r; UserID := row_user_id r; Text := row_text r;
     CreatedAt := parse_RFC3339 (row_created_at r) |}.

Definition GetMessages (db : DB) (limit offset : Z)
    : DB * (list ChatMessage * option error) :=
  match query_select db limit offset with
  | (db', inl err) => (db', ([], Some err))
  | (db', inr rows) => (db', (scan <$> rows, None))
  end.

End repository.

(** ** package usecase: [ChatUseCase] forwards to the repository *)

Module usecase.

Definition SaveMessage (repo : repository.DB) (msg : ChatMessage) :=
  match repository.SaveMessage repo msg with
  | (repo', Some err) => (repo', Some err)
  | (repo', None) => (repo', None)
  end.

Definition GetMessages (repo : repository.DB) (limit offset : Z) :=
  match repository.GetMessages repo limit offset with
  | (repo', (_, Some err)) => (repo', ([], Some err))
  | (repo', (messages, None)) => (repo', (messages, None))
  end.

End usecase.

#[global] Instance usecase_ChatUseCase : ChatUseCase repository.DB := {|
  SaveMessage := usecase.SaveMessage;
  GetMessages := usecase.GetMessages
|}.

(** ** package websocket: connections and the hub *)

(** [*Client]: the address of a [Client] object. *)
Abbreviation ptr := positive.

(** [Client]. The [hub] field always points to the one hub; of the
    transport [conn] the model keeps what [writePump] has taken off
    [send] for it, oldest first. *)
Record Client := mkClient {
  send : chan;
  userID : string;
  pumped : list ChatMessage
}.

Definition with_send (cl : Client) (ch : chan) : Client :=
  {| send := ch; userID := userID cl; pumped := pumped cl |}.

Definition append_buf (ms : list ChatMessage) (cl : Client) : Client :=
  with_send cl {| buf := buf (send cl) ++ ms; cap := cap (send cl);
                  closed := closed (send cl) |}.

(** Every message ever enqueued on the client's mailbox, oldest first. *)
Definition mailbox_stream (cl : Client) : list ChatMessage :=
  pumped cl ++ buf (send cl).

(** ** Order of messages in a mailbox *)

(** [x] occurs at an earlier place of [l] than [y]. *)
Definition before (x y : ChatMessage) (l : list ChatMessage) : Prop :=
  ∃ i j, (i < j)%nat ∧ l !! i = Some x ∧ l !! j = Some y.

(** No two messages occur in one order in [l1] and in the other in [l2]. *)
Definition same_relative_order (l1 l2 : list ChatMessage) : Prop :=
  ∀ x y, before x y l1 → ¬ before y x l2.

(** What the hub goroutine does, in the order it does it. *)
Inductive Action :=
  | ActInsert (c : ptr)                          (* h.clients[c] = true *)
  | ActDelete (c : ptr)                          (* delete(h.clients, c) *)
  | ActClose (c : ptr)                           (* close(c.send) *)
  | ActSend (c : ptr) (m : ChatMessage)          (* m went onto c.send *)
  | ActSave (m : ChatMessage) (err : option error)   (* h.chatUC.SaveMessage *)
  | ActFetch (err : option error)                (* h.chatUC.GetMessages(100, 0) *)
  | ActLog.                                      (* log.Printf *)

#[global] Instance Action_eq_dec : EqDecision Action.
Proof. solve_decision. Defined.

(** The upgrade request as far as [ServeWs] looks at it. *)
Record Request := mkRequest {
  Method : string;
  Upgrade : string;             (* r.Header.Get("Upgrade") *)
  handshake_ok : bool           (* upgrader.Upgrade returned no error *)
}.

(** What arrives on the three intake channels of the hub. *)
Inductive HubEvent :=
  | Register (c : ptr)
  | Unregister (c : ptr)
  | Broadcast (m : ChatMessage).

(** What the goroutines around the hub do to it. *)
Inductive Event :=
  | EvServeWs (r : Request) (uid : string)   (* a call of ServeWs *)
  | EvUnregister (c : ptr)                   (* readPump of c leaves: c.hub.unregister <- c *)
  | EvBroadcast (m : ChatMessage)            (* a readPump: c.hub.broadcast <- msg *)
  | EvWritePump (c : ptr).                   (* writePump of c: one receive from c.send *)

Section hub.

Context {Store : Type} `{!ChatUseCase Store}.

(** The hub ([clients], [chatUC]), the [Client] objects on the Go heap
    and the record of what the hub goroutine has done so far. *)
Record World := mkWorld {
  clients : gmap ptr bool;
  chatUC : Store;
  heap : gmap ptr Client;
  trace : list Action
}.

(** [NewHub(chatUC)] on an empty heap *)
Definition NewHub (s : Store) : World :=
  {| clients := ∅; chatUC := s; heap := ∅; trace := [] |}.

Definition emit (a : Action) (w : World) : World :=
  {| clients := clients w; chatUC := chatUC w; heap := heap w;
     trace := trace w ++ [a] |}.

Definition set_clients (cs : gmap ptr bool) (w : World) : World :=
  {| clients := cs; chatUC := chatUC w; heap := heap w; trace := trace w |}.

Definition set_chatUC (s : Store) (w : World) : World :=
  {| clients := clients w; chatUC := s; heap := heap w; trace := trace w |}.

Definition set_client (c : ptr) (cl : Client) (w : World) : World :=
  {| clients := clients w; chatUC := chatUC w; heap := <[c:=cl]> (heap w);
     trace := trace w |}.

(** [client.send <- msg] *)
Definition send_to (c : ptr) (m : ChatMessage) (w : World) : outcome World :=
  match heap w !! c with
  | None => Panic NilDeref
  | Some cl =>
      ch ← chan_send m (send cl);
      Done (emit (ActSend c m) (set_client c (with_send cl ch) w))
  end.

(** [for _, msg := range messages { client.send <- msg }] *)
Fixpoint send_all (c : ptr) (messages : list ChatMessage) (w : World)
    : outcome World :=
  match messages with
  | [] => Done w
  | msg :: rest => w' ← send_to c msg w; send_all c rest w'
  end.

(** [case client := <-h.register] *)
Definition on_register (c : ptr) (w : World) : outcome World :=
  let w1 := emit (ActInsert c) (set_clients (<[c:=true]> (clients w)) w) in
  let '(s', (messages, err)) := GetMessages (chatUC w1) 100 0 in
  let w2 := emit (ActFetch err) (set_chatUC s' w1) in
  match err with
  | None => send_all c messages w2
  | Some _ => Done w2
  end.

(** [case client := <-h.unregister] *)
Definition on_unregister (c : ptr) (w : World) : outcome World :=
  match clients w !! c with
  | Some _ =>
      let w1 := emit (ActDelete c) (set_clients (delete c (clients w)) w) in
      match heap w1 !! c with
      | None => Panic NilDeref
      | Some cl =>
          ch ← chan_close (send cl);
          Done (emit (ActClose c) (set_client c (with_send cl ch) w1))
      end
  | None => Done w
  end.

(** The body of [for client := range h.clients] for one client. *)
Definition deliver (m : ChatMessage) (c : ptr) (w : World) : outcome World :=
  match heap w !! c with
  | None => Panic NilDeref
  | Some cl =>
      r ← chan_try_send m (send cl);
      match r with
      | Some ch => Done (emit (ActSend c m) (set_client c (with_send cl ch) w))
      | None =>
          ch ← chan_close (send cl);
          let w1 := emit (ActClose c) (set_client c (with_send cl ch) w) in
          Done (emit (ActDelete c) (set_clients (delete c (clients w1)) w1))
      end
  end.

Fixpoint fanout (m : ChatMessage) (cs : list ptr) (w : World) : outcome World :=
  match cs with
  | [] => Done w
  | c :: rest => w' ← deliver m c w; fanout m rest w'
  end.

(** The keys [range h.clients] goes through. The loop deletes no key
    but the one it is at, so it reaches every key present when it
    starts, once; Go leaves the order open and the model takes the
    order of [map_to_list] (see [fanout_order] below). *)
Definition range_keys (cs : gmap ptr bool) : list ptr := (map_to_list cs).*1.

(** [case message := <-h.broadcast] *)
Definition on_broadcast (m : ChatMessage) (w : World) : outcome World :=
  let '(s', err) := SaveMessage (chatUC w) m in
  let w1 := emit (ActSave m err) (set_chatUC s' w) in
  match err with
  | Some _ => Done (emit ActLog w1)
  | None => fanout m (range_keys (clients w1)) w1
  end.

(** One turn of the [select] in [Hub.Run]. *)
Definition Hub_step (e : HubEvent) (w : World) : outcome World :=
  match e with
  | Register c => on_register c w
  | Unregister c => on_unregister c w
  | Broadcast m => on_broadcast m w
  end.

(** [Hub.Run] on the events in the order the loop receives them. *)
Fixpoint Hub_Run (es : list HubEvent) (w : World) : outcome World :=
  match es with
  | [] => Done w
  | e :: rest => w' ← Hub_step e w; Hub_Run rest w'
  end.

(** [ServeWs]: the request checks, then a new [Client] with a mailbox
    of 256 at a fresh address, handed to the hub on the unbuffered
    [register] channel; the two pumps it starts act through later
    events. *)
Definition ServeWs (r : Request) (uid : string) (w : World) : outcome World :=
  if bool_decide (Method r ≠ "GET") then Done w
  else if bool_decide (Upgrade r ≠ "websocket") then Done w
  else if negb (handshake_ok r) then Done w
  else
    let c := fresh (dom (heap w)) in
    let client := {| send := make_chan 256; userID := uid; pumped := [] |} in
    Hub_step (Register c) (set_client c client w).

(** One receive of [writePump] from [c.send]: the message at the head
    of the mailbox goes to the transport. On an empty mailbox the pump
    waits, or leaves when the mailbox is closed; either way the world
    stays as it is. *)
Definition writePump_recv (c : ptr) (w : World) : World :=
  match heap w !! c with
  | None => w
  | Some cl =>
      match chan_recv (send cl) with
      | (Some m, ch) =>
          set_client c {| send := ch; userID := userID cl;
                          pumped := pumped cl ++ [m] |} w
      | (None, _) => w
      end
  end.

Definition step (e : Event) (w : World) : outcome World :=
  match e with
  | EvServeWs r uid => ServeWs r uid w
  | EvUnregister c => Hub_step (Unregister c) w
  | EvBroadcast m => Hub_step (Broadcast m) w
  | EvWritePump c => Done (writePump_recv c w)
  end.

Fixpoint run (es : list Event) (w : World) : outcome World :=
  match es with
  | [] => Done w
  | e :: rest => w' ← step e w; run rest w'
  end.

(** *** Vocabulary for the statements *)

(** Every message ever enqueued for the client at [c], oldest first. *)
Definition stream (w : World) (c : ptr) : list ChatMessage :=
  match heap w !! c with
  | Some cl => mailbox_stream cl
  | None => []
  end.

(** The client at [c] exists and its mailbox has no free slot. *)
Definition full_at (w : World) (c : ptr) : bool :=
  match heap w !! c with
  | Some cl => negb (has_room (send cl))
  | None => false
  end.

(** What one turn of the fan-out loop leaves of a client whose mailbox
    is open: the message queued, or the mailbox closed. *)
Definition after_delivery (m : ChatMessage) (cl : Client) : Client :=
  if has_room (send cl) then with_send cl (enqueue m (send cl))
  else with_send cl (mark_closed (send cl)).

Definition delivery_actions (m : ChatMessage) (c : ptr) (cl : Client)
    : list Action :=
  if has_room (send cl) then [ActSend c m] else [ActClose c; ActDelete c].

(** The hub tried to hand [m] to [c] within the actions [tr]: the
    [select] of the fan-out loop ran for [c], which shows as the
    enqueue or as the close of the default branch. *)
Definition delivery_attempted (c : ptr) (m : ChatMessage) (tr : list Action)
    : Prop :=
  ActSend c m ∈ tr ∨ ActClose c ∈ tr.

(** The history the register branch sends in world [w]: the answer
    of [GetMessages(100, 0)], nothing when it comes with an error. *)
Definition replayed (w : World) : list ChatMessage :=
  match (GetMessages (chatUC w) 100 0).2 with
  | (messages, None) => messages
  | (_, Some _) => []
  end.

(** The request passes the checks of [ServeWs]. *)
Definition accepted (r : Request) : bool :=
  bool_decide (Method r = "GET") && bool_decide (Upgrade r = "websocket")
  && handshake_ok r.

(** What the stream of [c] gains in one step: the message of a
    broadcast that was saved, when [c] is a member with a free slot. *)
Definition gain (e : Event) (w : World) (c : ptr) : list ChatMessage :=
  match e with
  | EvBroadcast m =>
      match (SaveMessage (chatUC w) m).2 with
      | None =>
          if decide (is_Some (clients w !! c))
          then (if full_at w c then [] else [m]) else []
      | Some _ => []
      end
  | _ => []
  end.

(** The message a step hands to the fan-out, if any. *)
Definition saved (e : Event) (w : World) : list ChatMessage :=
  match e with
  | EvBroadcast m =>
      match (SaveMessage (chatUC w) m).2 with
      | None => [m]
      | Some _ => []
      end
  | _ => []
  end.

(** The messages of [es] that reach the fan-out when [es] runs from
    [w], in the order of their arrival at the hub. *)
Fixpoint persisted (es : list Event) (w : World) : list ChatMessage :=
  match es with
  | [] => []
  | e :: rest =>
      match step e w with
      | Done w' => saved e w ++ persisted rest w'
      | _ => []
      end
  end.

(** The actions of the step that led from [w] to [w']. *)
Definition step_trace (w w' : World) : list Action :=
  drop (length (trace w)) (trace w').

(** Fan-out whatever the store answers, as a property of the broadcast
    of [m] in world [w]: the step ends and has tried every member. *)
Definition fans_out_regardless (w : World) (m : ChatMessage) : Prop :=
  ∃ w', Hub_step (Broadcast m) w = Done w' ∧
    ∀ c, is_Some (clients w !! c) → delivery_attempted c m (step_trace w w').

(** All mailboxes of [w] show their common messages in one order. *)
Definition mailboxes_agree_on_order (w : World) : Prop :=
  ∀ c1 c2, c1 ≠ c2 → same_relative_order (stream w c1) (stream w c2).

(** Members are clients on the heap whose mailbox is open. *)
Definition open_members (w : World) : Prop :=
  ∀ c, is_Some (clients w !! c) →
    ∃ cl, heap w !! c = Some cl ∧ closed (send cl) = false.

(** How often the hub has closed the mailbox of [c]. *)
Definition closes (c : ptr) (tr : list Action) : nat :=
  length (filter (λ a, a = ActClose c) tr).

(** The trace accounts for the closed flags: one close for a closed
    mailbox, none for an open one or for an address not yet in use. *)
Definition close_ledger (w : World) : Prop :=
  ∀ c, closes c (trace w) =
       match heap w !! c with
       | Some cl => if closed (send cl) then 1%nat else 0%nat
       | None => 0%nat
       end.

Definition hub_inv (w : World) : Prop := open_members w ∧ close_ledger w.

(** The hub event behind an event of the system, for the two kinds of
    event that are nothing but a send on an intake channel. *)
Definition hub_event (e : Event) : option HubEvent :=
  match e with
  | EvUnregister c => Some (Unregister c)
  | EvBroadcast m => Some (Broadcast m)
  | _ => None
  end.

(** The client at [c] exists and its mailbox is open. *)
Definition openb (w : World) (c : ptr) : bool :=
  match heap w !! c with
  | Some cl => negb (closed (send cl))
  | None => false
  end.

(** [open_members] as a check that computes. *)
Definition open_membersb (w : World) : bool :=
  forallb (openb w) (range_keys (clients w)).

(** The history sends of the register branch with the write pump of
    the client running beside the hub: before each send the pump takes
    the number of messages that [drains] gives for it (none when
    [drains] is exhausted). *)
Fixpoint send_all_draining (c : ptr) (messages : list ChatMessage)
    (drains : list nat) (w : World) : outcome World :=
  match messages with
  | [] => Done w
  | msg :: rest =>
      w' ← send_to c msg (Nat.iter (hd 0%nat drains) (writePump_recv c) w);
      send_all_draining c rest (tl drains) w'
  end.

End hub.

Arguments World Store : clear implicits.

(** ** Reading frames: [readPump] *)

(** An inbound text frame: its size on the wire and what
    [json.Unmarshal] makes of it ([None]: not a [ChatMessageRequest]). *)
Record Frame := mkFrame {
  frame_size : nat;
  frame_json : option ChatMessageRequest
}.

Definition maxMessageSize : nat := 512.

(** What [c.conn.ReadJSON(&msgReq)] returns next: the connection failed
    ([None]) or a frame arrived, refused when it is over the read limit
    set by [c.conn.SetReadLimit(maxMessageSize)]. *)
Definition ReadJSON (next : option Frame) : option ChatMessageRequest :=
  match next with
  | None => None
  | Some f => if maxMessageSize <? frame_size f then None else frame_json f
  end.

(** [readPump] of the client at [c]: what it puts on the hub's
    [broadcast] and [unregister] channels, in order, while the transport
    yields [reads]; [env n] answers the library calls of its [n]-th
    message construction. An empty [reads] leaves the loop parked in
    [ReadJSON]; the first error leaves the loop and the deferred
    function unregisters [c]. *)
Fixpoint readPump (c : ptr) (cl : Client) (env : nat → Tick) (n : nat)
    (reads : list (option Frame)) : list HubEvent :=
  match reads with
  | [] => []
  | next :: rest =>
      match ReadJSON next with
      | None => [Unregister c]
      | Some msgReq =>
          Broadcast (NewChatMessage (env n) msgReq (userID cl))
            :: readPump c cl env (S n) rest
      end
  end.

(** The messages among the events a pump submitted. *)
Definition broadcast_of (e : HubEvent) : option ChatMessage :=
  match e with Broadcast m => Some m | _ => None end.

Definition submitted (es : list HubEvent) : list ChatMessage :=
  omap broadcast_of es.

(** ** Sample data *)

Definition upgrade_request : Request :=
  {| Method := "GET"; Upgrade := "websocket"; handshake_ok := true |}.

Definition empty_db : repository.DB :=
  {| repository.chat_messages := []; repository.driver_faults := [] |}.

(** The table after [hello] and [again] were saved. *)
Definition history_db : repository.DB :=
  {| repository.chat_messages :=
       [ {| repository.row_id := "m1"; repository.row_user_id := "u1";
            repository.row_text := "hello"; repository.row_created_at := 1 |};
         {| repository.row_id := "m2"; repository.row_user_id := "u1";
            repository.row_text := "again"; repository.row_created_at := 2 |} ];
     repository.driver_faults := [] |}.

(** A database whose next statement is going to fail. *)
Definition failing_db : repository.DB :=
  {| repository.chat_messages := []; repository.driver_faults := [true] |}.

(** A database whose second statement is going to fail. *)
Definition flaky_db : repository.DB :=
  {| repository.chat_messages := []; repository.driver_faults := [false; true] |}.

Definition hello : ChatMessage :=
  {| ID := "m1"; UserID := "u1"; Text := "hello"; CreatedAt := 1000000000%Z |}.

Definition again : ChatMessage :=
  {| ID := "m2"; UserID := "u1"; Text := "again"; CreatedAt := 2000000000%Z |}.

Definition alice : Client :=
  {| send := make_chan 256; userID := "alice"; pumped := [] |}.

(** A client that stopped reading: its mailbox holds 256 messages. *)
Definition sleeper : Client :=
  {| send := {| buf := replicate 256 hello; cap := 256; closed := false |};
     userID := "bob"; pumped := [] |}.

(** The world after alice connected to a new hub. *)
Definition w_alice (db : repository.DB) : World repository.DB :=
  {| clients := {[1%positive := true]}; chatUC := db;
     heap := {[1%positive := alice]};
     trace := [ActInsert 1%positive; ActFetch None] |}.

(** Alice and the sleeper are members. *)
Definition w_sleeper : World repository.DB :=
  {| clients := {[1%positive := true; 2%positive := true]}; chatUC := empty_db;
     heap := {[1%positive := alice; 2%positive := sleeper]};
     trace := [] |}.

(** The answers of the uuid generator and of the clock in a sample run. *)
Definition sample_env (n : nat) : Tick :=
  match n with
  | 0%nat => {| uuid_New := "7c1e"; time_Now := 1000000000%Z |}
  | 1%nat => {| uuid_New := "a2f0"; time_Now := 1500000000%Z |}
  | 2%nat => {| uuid_New := "d94b"; time_Now := 2000000000%Z |}
  | _ => {| uuid_New := "f3b8"; time_Now := 2500000000%Z |}
  end.

Definition sample_reads : list (option Frame) :=
  [Some {| frame_size := 16; frame_json := Some {| ReqText := "hello" |} |};
   Some {| frame_size := 16; frame_json := Some {| ReqText := "again" |} |};
   Some {| frame_size := 16; frame_json := Some {| ReqText := "third" |} |};
   None].

(** * The code around the hub *)

(** ** The chat store: what [SaveMessage] writes *)

(** The row [SaveMessage] inserts for [msg]. *)
Definition to_row (msg : ChatMessage) : repository.Row :=
  {| repository.row_id := ID msg;
     repository.row_user_id := UserID msg;
     repository.row_text := Text msg;
     repository.row_created_at := repository.format_RFC3339 (CreatedAt msg) |}.

(** The message as it comes back from the table. *)
Definition stored (msg : ChatMessage) : ChatMessage := repository.scan (to_row msg).

(** The ids of the table. *)
Definition table_ids (db : repository.DB) : list string :=
  repository.row_id <$> repository.chat_messages db.

(** The rows a query with [LIMIT limit OFFSET offset] selects. *)
Definition page (db : repository.DB) (limit offset : Z) : list repository.Row :=
  repository.limit_offset limit offset
    (repository.order_by_created_at_desc (repository.chat_messages db)).

(** ** Reading the chat history: the HTTP handler and the gRPC method *)

(** [strconv.Atoi], that is [ParseInt(s, 10, 0)] converted to [int],
    for the 64-bit [int] of the platforms the service is built for; the
    short cut [Atoi] takes for short strings gives the same results. *)
Module strconv.

Import Stdlib.Strings.Ascii.
#[local] Open Scope Z_scope.

(** [NumError.Err] *)
Inductive NumError := ErrSyntax | ErrRange.

Definition maxUint64 : Z := 18446744073709551615.

(** The value of the byte [c] as a decimal digit, if it is one. *)
Definition digit (c : Ascii.ascii) : option Z :=
  let b := Z.of_nat (Ascii.nat_of_ascii c) in
  if (48 <=? b) && (b <=? 57) then Some (b - 48) else None.

(** The loop of [ParseUint(s, 10, 64)] with [n] the value of the digits
    read so far. A byte that is no digit is a syntax error; a value
    over [maxUint64] is a range error as soon as it is reached,
    whatever follows, and the value returned with it is [maxUint64]. *)
Fixpoint ParseUint_from (n : Z) (s : string) : Z * option NumError :=
  match s with
  | EmptyString => (n, None)
  | String c rest =>
      match digit c with
      | None => (0, Some ErrSyntax)
      | Some d =>
          if maxUint64 `div` 10 + 1 <=? n then (maxUint64, Some ErrRange)
          else
            let n1 := n * 10 + d in
            if maxUint64 <? n1 then (maxUint64, Some ErrRange)
            else ParseUint_from n1 rest
      end
  end.

Definition ParseUint (s : string) : Z * option NumError :=
  match s with
  | EmptyString => (0, Some ErrSyntax)
  | _ => ParseUint_from 0 s
  end.

(** [ParseInt(s, 10, 64)]: one sign is allowed; a syntax error comes
    with the value 0 and a range error with the nearest [int64]. *)
Definition ParseInt (s : string) : Z * option NumError :=
  match s with
  | EmptyString => (0, Some ErrSyntax)
  | String c rest =>
      let neg := Ascii.eqb c "-"%char in
      let digits := if Ascii.eqb c "+"%char || neg then rest else s in
      match ParseUint digits with
      | (_, Some ErrSyntax) => (0, Some ErrSyntax)
      | (un, _) =>
          let cutoff := 2 ^ 63 in
          if negb neg && (cutoff <=? un) then (cutoff - 1, Some ErrRange)
          else if neg && (cutoff <? un) then (- cutoff, Some ErrRange)
          else (if neg then - un else un, None)
      end
  end.

Definition Atoi (s : string) : Z * option NumError := ParseInt s.

End strconv.

Module handlers.

(** [ChatHandlers.GetMessages]. [limit_param] and [offset_param] are
    what [r.URL.Query().Get] returns for the keys [limit] and [offset],
    the empty string for a key the query does not have; the error of
    [strconv.Atoi] is dropped and its value kept. The result is the
    status of the response and the messages in its body ([http.Error]
    with status 500 when the use case fails). *)
Definition GetMessages (limit_param offset_param : string) (db : repository.DB)
    : repository.DB * (Z * list ChatMessage) :=
  let limit := (strconv.Atoi limit_param).1 in
  let offset := (strconv.Atoi offset_param).1 in
  let limit := if (limit <=? 0)%Z then 50%Z else limit in
  let offset := if (offset <? 0)%Z then 0%Z else offset in
  match usecase.GetMessages db limit offset with
  | (db', (_, Some err)) => (db', (500%Z, []))
  | (db', (messages, None)) => (db', (200%Z, messages))
  end.

End handlers.

Module grpcdel.

(** [forum.ChatMessage]; [CreatedAt] holds the RFC3339 text of a UTC
    time, kept as its count of seconds like the column of the table. *)
Record ChatMessagePb := mkChatMessagePb {
  Id : string;
  UserId : string;
  TextPb : string;
  CreatedAtPb : Z
}.

Record GetChatMessagesResponse := mkGetChatMessagesResponse {
  Messages : list ChatMessagePb;
  Total : Z
}.

(** The conversion [int32(n)] of a Go [int]. *)
Definition int32 (n : Z) : Z :=
  ((n + 2147483648) `mod` 4294967296 - 2147483648)%Z.

Definition to_pb (msg : ChatMessage) : ChatMessagePb :=
  {| Id := ID msg; UserId := UserID msg; TextPb := Text msg;
     CreatedAtPb := repository.format_RFC3339 (CreatedAt msg) |}.

(** [ForumServer.GetChatMessages]; [limit] and [offset] are the fields
    of the request, passed on as they are. *)
Definition GetChatMessages (limit offset : Z) (db : repository.DB)
    : repository.DB * (error + GetChatMessagesResponse) :=
  match usecase.GetMessages db limit offset with
  | (db', (_, Some err)) => (db', inl err)
  | (db', (messages, None)) =>
      let responses := to_pb <$> messages in
      (db', inr {| Messages := responses;
                   Total := int32 (Z.of_nat (length responses)) |})
  end.

(** A row of the table as a message of the response. *)
Definition row_pb (r : repository.Row) : ChatMessagePb :=
  {| Id := repository.row_id r; UserId := repository.row_user_id r;
     TextPb := repository.row_text r;
     CreatedAtPb := repository.row_created_at r |}.

End grpcdel.

(** ** The hub over whole runs *)

(** Every mailbox is one of 256 slots and holds no more. *)
Definition within_capacity {Store} (w : World Store) : Prop :=
  ∀ c cl, heap w !! c = Some cl →
    cap (send cl) = 256%nat ∧ (length (buf (send cl)) ≤ 256)%nat.

(** Every message that ever reached a mailbox has its row in the table. *)
Definition all_persisted (w : World repository.DB) : Prop :=
  ∀ c m, m ∈ stream w c → to_row m ∈ repository.chat_messages (chatUC w).

(** ** [writePump] and the connection

    What [writePump] puts on the connection of the client at [c]. The
    pump is one goroutine beside the hub; a turn of its [select] is
    either the receive from [c.send] or the tick of the ping timer, and
    the connection answers each write with an error or without. *)

Inductive WireFrame :=
  | TextFrame (m : ChatMessage)
  | CloseFrame
  | PingFrame.

#[global] Instance WireFrame_eq_dec : EqDecision WireFrame.
Proof. solve_decision. Defined.

(** The case of the [select] that runs and the answers of the
    connection: for [case message, ok := <-c.send], [write_ok] tells
    whether [NextWriter] (or, on a closed mailbox, the [WriteMessage]
    of the close frame) went through and [flush_ok] whether [w.Close()]
    did; for [case <-ticker.C], whether the ping went through. *)
Inductive Turn :=
  | TurnSend (write_ok flush_ok : bool)
  | TurnTick (ping_ok : bool).

(** The write side of the connection as [writePump] drives it: the
    complete frames [writePump] has written so far, oldest first, and
    whether it has returned. The frames the read side writes on its own
    (the close frame with which the library's default close handler
    answers a close frame of the peer, the pongs of its default ping
    handler) are not on this list. *)
Record Conn := mkConn {
  wire : list WireFrame;
  returned : bool
}.

Definition text_of (f : WireFrame) : option ChatMessage :=
  match f with TextFrame m => Some m | _ => None end.

(** The chat messages among the frames. *)
Definition texts (fs : list WireFrame) : list ChatMessage := omap text_of fs.

(** One turn of the loop of [writePump]. The receive is ready when the
    mailbox holds a message or is closed; on an open, empty mailbox the
    case does not run and the turn changes nothing. A message taken off
    the mailbox is on the wire when both [NextWriter] and [w.Close()]
    went through; otherwise the pump returns. *)
Definition writePump_turn {Store} (c : ptr) (t : Turn)
    (s : World Store * Conn) : World Store * Conn :=
  let '(w, k) := s in
  if returned k then s
  else
    match t with
    | TurnTick ping_ok =>
        if ping_ok
        then (w, {| wire := wire k ++ [PingFrame]; returned := false |})
        else (w, {| wire := wire k; returned := true |})
    | TurnSend write_ok flush_ok =>
        match heap w !! c with
        | None => s
        | Some cl =>
            match buf (send cl) with
            | [] =>
                if closed (send cl)
                then (w, {| wire := wire k ++ (if write_ok then [CloseFrame] else []);
                            returned := true |})
                else s
            | message :: _ =>
                let w' := writePump_recv c w in
                if negb write_ok then (w', {| wire := wire k; returned := true |})
                else if negb flush_ok
                then (w', {| wire := wire k; returned := true |})
                else (w', {| wire := wire k ++ [TextFrame message];
                             returned := false |})
            end
        end
    end.

(** The hub and the pump of [c] side by side: a move is an event of the
    system or a turn of the pump. *)
Inductive Move :=
  | HubMove (e : Event)
  | PumpMove (t : Turn).

Definition move {Store} `{!ChatUseCase Store} (c : ptr) (mv : Move)
    (s : World Store * Conn) : outcome (World Store * Conn) :=
  match mv with
  | HubMove e => w' ← step e s.1; Done (w', s.2)
  | PumpMove t => Done (writePump_turn c t s)
  end.

Fixpoint moves {Store} `{!ChatUseCase Store} (c : ptr) (mvs : list Move)
    (s : World Store * Conn) : outcome (World Store * Conn) :=
  match mvs with
  | [] => Done s
  | mv :: rest => s' ← move c mv s; moves c rest s'
  end.

(** The connection as [ServeWs] hands it to the pumps: nothing written,
    nothing taken off the mailbox, the pump running. *)
Definition fresh_conn : Conn := {| wire := []; returned := false |}.

Definition pump_starts {Store} (c : ptr) (w : World Store) (k : Conn) : Prop :=
  hub_inv w ∧ k = fresh_conn ∧ ∃ cl, heap w !! c = Some cl ∧ pumped cl = [].

(** The mailbox of [c], as it is now. *)
Definition mailbox {Store} (w : World Store) (c : ptr) : list ChatMessage :=
  match heap w !! c with
  | Some cl => buf (send cl)
  | None => []
  end.

(** What holds of the connection of [c] between any two moves: while
    the pump runs the wire shows every message it took off the mailbox;
    once it has returned at most the last one taken is missing; a close
    frame is the last frame, written on a closed and drained mailbox. *)
Definition pump_inv {Store} (c : ptr) (w : World Store) (k : Conn) : Prop :=
  ∃ cl, heap w !! c = Some cl ∧
    (returned k = false → pumped cl = texts (wire k) ∧ CloseFrame ∉ wire k) ∧
    (∃ lost, pumped cl = texts (wire k) ++ lost ∧ (length lost ≤ 1)%nat) ∧
    (CloseFrame ∈ wire k →
       returned k = true ∧ pumped cl = texts (wire k) ∧
       closed (send cl) = true ∧ buf (send cl) = [] ∧
       ∃ fs, wire k = fs ++ [CloseFrame] ∧ CloseFrame ∉ fs).

(** The store is going to accept each of [ms]: the driver reports no
    failure, and the ids are new to the table and distinct. *)
Definition saves_all (db : repository.DB) (ms : list ChatMessage) : Prop :=
  repository.driver_faults db = [] ∧
  NoDup (ID <$> ms) ∧
  ∀ m, m ∈ ms → ID m ∉ table_ids db.

(** The hub takes the broadcasts [ms], then the pump of [c] takes [n]
    turns in which the connection accepts every write. *)
Definition broadcasts_then_pump (ms : list ChatMessage) (n : nat) : list Move :=
  ((λ m, HubMove (EvBroadcast m)) <$> ms)
    ++ replicate n (PumpMove (TurnSend true true)).

(** * Comments

    [entity.Comment], [CommentRepository] over the [comments] table and
    [CommentUseCase], which adds the check of the author. *)

(** The errors of the comment and post packages. *)
Inductive uc_error :=
  | Sql (e : error)     (* an error of the driver, handed on *)
  | NoRowsAffected      (* "no rows affected when creating comment" *)
  | NotFound            (* "comment not found", "post not found" *)
  | Unauthorized.       (* errors.New("unauthorized") *)

#[global] Instance uc_error_eq_dec : EqDecision uc_error.
Proof. solve_decision. Defined.

Module comments.

#[local] Open Scope Z_scope.

(** ** package entity *)

Record Comment := mkComment {
  ID : string;
  Content : string;
  PostID : string;
  AuthorID : string;
  CreatedAt : Time
}.

Record CommentRequest := mkCommentRequest {
  ReqContent : string;
  ReqPostID : string
}.

#[global] Instance Comment_eq_dec : EqDecision Comment.
Proof. solve_decision. Defined.

(** [NewComment]; [env] holds the answers of [uuid.New().String()] and
    [time.Now().UTC()]. *)
Definition NewComment (env : Tick) (req : CommentRequest) (authorID : string)
    : Comment :=
  {| ID := uuid_New env;
     Content := ReqContent req;
     PostID := ReqPostID req;
     AuthorID := authorID;
     CreatedAt := time_Now env |}.

(** ** package repository: [CommentRepository] *)

Module Repository.

(** A row of [comments]; [created_at] holds the seconds of the RFC3339
    text that [Create] writes, as for [chat_messages]. *)
Record Row := mkRow {
  row_id : string;
  row_content : string;
  row_post_id : string;
  row_author_id : string;
  row_created_at : Z
}.

#[global] Instance Row_eq_dec : EqDecision Row.
Proof. solve_decision. Defined.

(** The table in insertion order and the failures the driver is going
    to report, one flag per statement. The schema declares [id] the
    primary key; the foreign keys are not enforced, since the database
    is opened without the pragma that turns them on. *)
Record DB := mkDB {
  comments : list Row;
  driver_faults : list bool
}.

Definition next_fault (db : DB) : bool * DB :=
  match driver_faults db with
  | [] => (false, db)
  | f :: rest => (f, {| comments := comments db; driver_faults := rest |})
  end.

(** The driver reports a failure for the next statement. *)
Definition fails_next (db : DB) : bool := (next_fault db).1.

Definition to_row (comment : Comment) : Row :=
  {| row_id := ID comment;
     row_content := Content comment;
     row_post_id := PostID comment;
     row_author_id := AuthorID comment;
     row_created_at := repository.format_RFC3339 (CreatedAt comment) |}.

(** [Scan] followed by [time.Parse(time.RFC3339, createdAt)] *)
Definition scan (r : Row) : Comment :=
  {| ID := row_id r;
     Content := row_content r;
     PostID := row_post_id r;
     AuthorID := row_author_id r;
     CreatedAt := repository.parse_RFC3339 (row_created_at r) |}.

(** [INSERT INTO comments (id, content, post_id, author_id, created_at)
     VALUES (?, ?, ?, ?, ?)] *)
Definition exec_insert (db : DB) (r : Row) : DB * (error + Z) :=
  let '(f, db1) := next_fault db in
  if f then (db1, inl ErrDriver)
  else if bool_decide (row_id r ∈ row_id <$> comments db1)
  then (db1, inl ErrConstraint)
  else ({| comments := comments db1 ++ [r];
           driver_faults := driver_faults db1 |}, inr 1).

Definition Create (db : DB) (comment : Comment) : DB * option uc_error :=
  match exec_insert db (to_row comment) with
  | (db', inl err) => (db', Some (Sql err))
  | (db', inr rows) =>
      if rows =? 0 then (db', Some NoRowsAffected) else (db', None)
  end.

(** [SELECT ... FROM comments WHERE id = ?] read with [QueryRowContext]:
    the first row that matches, [sql.ErrNoRows] when there is none. *)
Definition GetByID (db : DB) (id : string) : DB * (uc_error + Comment) :=
  let '(f, db1) := next_fault db in
  if f then (db1, inl (Sql ErrDriver))
  else
    match List.find (λ r, bool_decide (row_id r = id)) (comments db1) with
    | None => (db1, inl NotFound)
    | Some r => (db1, inr (scan r))
    end.

(** [ORDER BY created_at DESC], as for [chat_messages]. *)
Fixpoint insert_desc (r : Row) (l : list Row) : list Row :=
  match l with
  | [] => [r]
  | x :: l' =>
      if row_created_at x <=? row_created_at r then r :: x :: l'
      else x :: insert_desc r l'
  end.

Definition order_by_created_at_desc (l : list Row) : list Row :=
  foldr insert_desc [] l.

(** [a] is at least as recent as [b]. *)
Definition more_recent (a b : Row) : Prop :=
  row_created_at b ≤ row_created_at a.

(** [WHERE post_id = ?] *)
Definition of_post (postID : string) (l : list Row) : list Row :=
  filter (λ r, row_post_id r = postID) l.

(** [SELECT ... FROM comments WHERE post_id = ?
     ORDER BY created_at DESC LIMIT ? OFFSET ?] *)
Definition GetByPostID (db : DB) (postID : string) (limit offset : Z)
    : DB * (uc_error + list Comment) :=
  let '(f, db1) := next_fault db in
  if f then (db1, inl (Sql ErrDriver))
  else (db1, inr (scan <$> repository.limit_offset limit offset
                             (order_by_created_at_desc
                                (of_post postID (comments db1))))).

(** [UPDATE comments SET content = ? WHERE id = ?]; that no row was
    affected is logged and is no error. *)
Definition Update (db : DB) (id content : string) : DB * option uc_error :=
  let '(f, db1) := next_fault db in
  if f then (db1, Some (Sql ErrDriver))
  else
    ({| comments :=
          (λ r, if bool_decide (row_id r = id)
                then {| row_id := row_id r; row_content := content;
                        row_post_id := row_post_id r;
                        row_author_id := row_author_id r;
                        row_created_at := row_created_at r |}
                else r) <$> comments db1;
        driver_faults := driver_faults db1 |}, None).

(** [DELETE FROM comments WHERE id = ?]; that no row was affected is
    logged and is no error. *)
Definition Delete (db : DB) (id : string) : DB * option uc_error :=
  let '(f, db1) := next_fault db in
  if f then (db1, Some (Sql ErrDriver))
  else
    ({| comments :=
          filter (λ r, row_id r ≠ id) (comments db1);
        driver_faults := driver_faults db1 |}, None).

(** [SELECT COUNT( * ) FROM comments WHERE post_id = ?] *)
Definition CountByPostID (db : DB) (postID : string) : DB * (uc_error + Z) :=
  let '(f, db1) := next_fault db in
  if f then (db1, inl (Sql ErrDriver))
  else (db1, inr (Z.of_nat (length (of_post postID (comments db1))))).

End Repository.

(** ** package usecase: [CommentUseCase] *)

Module UseCase.

Definition Create (env : Tick) (repo : Repository.DB) (req : CommentRequest)
    (authorID : string) : Repository.DB * (uc_error + Comment) :=
  let comment := NewComment env req authorID in
  match Repository.Create repo comment with
  | (repo', Some err) => (repo', inl err)
  | (repo', None) => (repo', inr comment)
  end.

Definition GetByID (repo : Repository.DB) (id : string)
    : Repository.DB * (uc_error + Comment) :=
  match Repository.GetByID repo id with
  | (repo', inl err) => (repo', inl err)
  | (repo', inr comment) => (repo', inr comment)
  end.

Definition GetByPostID (repo : Repository.DB) (postID : string)
    (limit offset : Z) : Repository.DB * (uc_error + (list Comment * Z)) :=
  match Repository.GetByPostID repo postID limit offset with
  | (repo1, inl err) => (repo1, inl err)
  | (repo1, inr comments) =>
      match Repository.CountByPostID repo1 postID with
      | (repo2, inl err) => (repo2, inl err)
      | (repo2, inr total) => (repo2, inr (comments, total))
      end
  end.

Definition Update (repo : Repository.DB) (id content authorID : string)
    : Repository.DB * (uc_error + Comment) :=
  match Repository.GetByID repo id with
  | (repo1, inl err) => (repo1, inl err)
  | (repo1, inr comment) =>
      if negb (bool_decide (AuthorID comment = authorID))
      then (repo1, inl Unauthorized)
      else
        match Repository.Update repo1 id content with
        | (repo2, Some err) => (repo2, inl err)
        | (repo2, None) =>
            match Repository.GetByID repo2 id with
            | (repo3, inl err) => (repo3, inl err)
            | (repo3, inr updatedComment) => (repo3, inr updatedComment)
            end
        end
  end.

Definition Delete (repo : Repository.DB) (id authorID : string)
    : Repository.DB * option uc_error :=
  match Repository.GetByID repo id with
  | (repo1, inl err) => (repo1, Some err)
  | (repo1, inr comment) =>
      if negb (bool_decide (AuthorID comment = authorID))
      then (repo1, Some Unauthorized)
      else
        match Repository.Delete repo1 id with
        | (repo2, Some err) => (repo2, Some err)
        | (repo2, None) => (repo2, None)
        end
  end.

End UseCase.

(** The ids of the table. *)
Definition ids (db : Repository.DB) : list string :=
  Repository.row_id <$> Repository.comments db.

End comments.

(** The driver reports no failure for the next [n] statements. *)
Definition comments_works_for (n : nat) (db : comments.Repository.DB) : bool :=
  forallb negb (take n (comments.Repository.driver_faults db)).

(** [r] with its content replaced, as [UPDATE ... SET content = ?] leaves it. *)
Definition with_content (content : string) (r : comments.Repository.Row)
    : comments.Repository.Row :=
  {| comments.Repository.row_id := comments.Repository.row_id r;
     comments.Repository.row_content := content;
     comments.Repository.row_post_id := comments.Repository.row_post_id r;
     comments.Repository.row_author_id := comments.Repository.row_author_id r;
     comments.Repository.row_created_at := comments.Repository.row_created_at r |}.

(** * Posts

    [entity.Post], [PostRepository] over the [posts] table and
    [PostUseCase]. [GetAll] orders by the text of [created_at], which
    [PostUseCase.Create] writes in the local zone; it is left out. *)

Module posts.

#[local] Open Scope Z_scope.

(** ** package entity *)

Record Post := mkPost {
  ID : string;
  Title : string;
  Content : string;
  AuthorID : string;
  CategoryID : string;
  IsPinned : bool;
  CreatedAt : Time
}.

Record PostRequest := mkPostRequest {
  ReqTitle : string;
  ReqContent : string;
  ReqCategoryID : string
}.

Record PostUpdate := mkPostUpdate {
  UpdTitle : string;
  UpdContent : string
}.

Record PostResponse := mkPostResponse {
  RespID : string;
  RespTitle : string;
  RespContent : string;
  RespAuthorID : string;
  RespCategoryID : string;
  RespIsPinned : bool;
  RespCreatedAt : Time
}.

(** The literal [&entity.PostResponse{ID: post.ID, ...}] that the use
    case builds in four places. *)
Definition to_response (post : Post) : PostResponse :=
  {| RespID := ID post;
     RespTitle := Title post;
     RespContent := Content post;
     RespAuthorID := AuthorID post;
     RespCategoryID := CategoryID post;
     RespIsPinned := IsPinned post;
     RespCreatedAt := CreatedAt post |}.

(** ** package repository: [PostRepository] *)

Module Repository.

(** A row of [posts]; [created_at] holds the instant of the RFC3339
    text, in seconds. *)
Record Row := mkRow {
  row_id : string;
  row_title : string;
  row_content : string;
  row_author_id : string;
  row_category_id : string;
  row_is_pinned : bool;
  row_created_at : Z
}.

#[global] Instance Row_eq_dec : EqDecision Row.
Proof. solve_decision. Defined.

Record DB := mkDB {
  posts : list Row;
  driver_faults : list bool
}.

Definition next_fault (db : DB) : bool * DB :=
  match driver_faults db with
  | [] => (false, db)
  | f :: rest => (f, {| posts := posts db; driver_faults := rest |})
  end.

Definition fails_next (db : DB) : bool := (next_fault db).1.

Definition to_row (post : Post) : Row :=
  {| row_id := ID post;
     row_title := Title post;
     row_content := Content post;
     row_author_id := AuthorID post;
     row_category_id := CategoryID post;
     row_is_pinned := IsPinned post;
     row_created_at := repository.format_RFC3339 (CreatedAt post) |}.

Definition scan (r : Row) : Post :=
  {| ID := row_id r;
     Title := row_title r;
     Content := row_content r;
     AuthorID := row_author_id r;
     CategoryID := row_category_id r;
     IsPinned := row_is_pinned r;
     CreatedAt := repository.parse_RFC3339 (row_created_at r) |}.

(** [INSERT INTO posts (id, title, content, author_id, category_id,
     is_pinned, created_at) VALUES (?, ?, ?, ?, ?, ?, ?)] *)
Definition exec_insert (db : DB) (r : Row) : DB * (error + Z) :=
  let '(f, db1) := next_fault db in
  if f then (db1, inl ErrDriver)
  else if bool_decide (row_id r ∈ row_id <$> posts db1)
  then (db1, inl ErrConstraint)
  else ({| posts := posts db1 ++ [r];
           driver_faults := driver_faults db1 |}, inr 1).

(** The driver's error comes back wrapped in "failed to create post". *)
Definition Create (db : DB) (post : Post) : DB * option uc_error :=
  match exec_insert db (to_row post) with
  | (db', inl err) => (db', Some (Sql err))
  | (db', inr rows) =>
      if rows =? 0 then (db', Some NoRowsAffected) else (db', None)
  end.

(** [SELECT ... FROM posts WHERE id = ?] read with [QueryRowContext] *)
Definition GetByID (db : DB) (id : string) : DB * (uc_error + Post) :=
  let '(f, db1) := next_fault db in
  if f then (db1, inl (Sql ErrDriver))
  else
    match List.find (λ r, bool_decide (row_id r = id)) (posts db1) with
    | None => (db1, inl NotFound)
    | Some r => (db1, inr (scan r))
    end.

(** [UPDATE posts SET title = ?, content = ? WHERE id = ?] *)
Definition Update (db : DB) (id : string) (post : PostUpdate)
    : DB * option uc_error :=
  let '(f, db1) := next_fault db in
  if f then (db1, Some (Sql ErrDriver))
  else
    ({| posts :=
          (λ r, if bool_decide (row_id r = id)
                then {| row_id := row_id r;
                        row_title := UpdTitle post;
                        row_content := UpdContent post;
                        row_author_id := row_author_id r;
                        row_category_id := row_category_id r;
                        row_is_pinned := row_is_pinned r;
                        row_created_at := row_created_at r |}
                else r) <$> posts db1;
        driver_faults := driver_faults db1 |}, None).

(** [DELETE FROM posts WHERE id = ?] *)
Definition Delete (db : DB) (id : string) : DB * option uc_error :=
  let '(f, db1) := next_fault db in
  if f then (db1, Some (Sql ErrDriver))
  else
    ({| posts := filter (λ r, row_id r ≠ id) (posts db1);
        driver_faults := driver_faults db1 |}, None).

(** [SELECT COUNT( * ) FROM posts], with [WHERE category_id = ?] when a
    category is given. *)
Definition Count (db : DB) (categoryID : string) : DB * (uc_error + Z) :=
  let '(f, db1) := next_fault db in
  if f then (db1, inl (Sql ErrDriver))
  else if bool_decide (categoryID ≠ "")
  then (db1, inr (Z.of_nat (length
                   (filter (λ r, row_category_id r = categoryID) (posts db1)))))
  else (db1, inr (Z.of_nat (length (posts db1)))).

End Repository.

(** ** package usecase: [PostUseCase] *)

Module UseCase.

(** [env] holds the answers of [uuid.New().String()] and [time.Now()]. *)
Definition Create (env : Tick) (postRepo : Repository.DB) (req : PostRequest)
    (authorID : string) : Repository.DB * (uc_error + PostResponse) :=
  let post := {| ID := uuid_New env;
                 Title := ReqTitle req;
                 Content := ReqContent req;
                 AuthorID := authorID;
                 CategoryID := ReqCategoryID req;
                 IsPinned := false;
                 CreatedAt := time_Now env |} in
  match Repository.Create postRepo post with
  | (repo', Some err) => (repo', inl err)
  | (repo', None) => (repo', inr (to_response post))
  end.

Definition GetByID (postRepo : Repository.DB) (id : string)
    : Repository.DB * (uc_error + PostResponse) :=
  match Repository.GetByID postRepo id with
  | (repo', inl err) => (repo', inl err)
  | (repo', inr post) => (repo', inr (to_response post))
  end.

Definition Update (postRepo : Repository.DB) (id : string) (req : PostUpdate)
    (authorID : string) : Repository.DB * (uc_error + PostResponse) :=
  match Repository.GetByID postRepo id with
  | (repo1, inl err) => (repo1, inl err)
  | (repo1, inr post) =>
      if negb (bool_decide (AuthorID post = authorID))
      then (repo1, inl Unauthorized)
      else
        match Repository.Update repo1 id req with
        | (repo2, Some err) => (repo2, inl err)
        | (repo2, None) =>
            match Repository.GetByID repo2 id with
            | (repo3, inl err) => (repo3, inl err)
            | (repo3, inr updatedPost) => (repo3, inr (to_response updatedPost))
            end
        end
  end.

Definition Delete (postRepo : Repository.DB) (id authorID : string)
    : Repository.DB * option uc_error :=
  match Repository.GetByID postRepo id with
  | (repo1, inl err) => (repo1, Some err)
  | (repo1, inr post) =>
      if negb (bool_decide (AuthorID post = authorID))
      then (repo1, Some Unauthorized)
      else
        match Repository.Delete repo1 id with
        | (repo2, Some err) => (repo2, Some err)
        | (repo2, None) => (repo2, None)
        end
  end.

End UseCase.

(** The ids of the table. *)
Definition ids (db : Repository.DB) : list string :=
  Repository.row_id <$> Repository.posts db.

End posts.

(** * The HTTP delivery: middleware, handlers and routes *)

(** ** package strings, the two functions the middleware calls *)

Module strings.

(** [s] without the leading [prefix], when it has it. *)
Fixpoint strip (prefix s : string) : option string :=
  match prefix with
  | EmptyString => Some s
  | String a prefix' =>
      match s with
      | EmptyString => None
      | String b s' => if Ascii.eqb a b then strip prefix' s' else None
      end
  end.

(** [strings.TrimPrefix(s, prefix)] *)
Definition TrimPrefix (s prefix : string) : string :=
  match strip prefix s with
  | Some rest => rest
  | None => s
  end.

(** [strings.Split(s, sep)] for a separator of one byte: the pieces
    between the separators, one more than there are separators. *)
Fixpoint Split (s : string) (sep : Ascii.ascii) : list string :=
  match s with
  | EmptyString => [EmptyString]
  | String a s' =>
      if Ascii.eqb a sep then EmptyString :: Split s' sep
      else
        match Split s' sep with
        | piece :: pieces => String a piece :: pieces
        | [] => [String a EmptyString]
        end
  end.

(** How often [sep] occurs in [s]. *)
Fixpoint count (sep : Ascii.ascii) (s : string) : nat :=
  match s with
  | EmptyString => 0
  | String a s' => (if Ascii.eqb a sep then 1 else 0) + count sep s'
  end.

End strings.

Module httpdelivery.

Import Stdlib.Strings.Ascii.

(** ** Requests, contexts and responses *)

(** A value stored in a [context.Context], by its dynamic type: a
    string; a [*entity.Claims], nil or pointing to a struct with this
    [UserID]; a [map[string]interface{}], of which the code reads the
    entry "user_id" only (absent, a string, or something else); or a
    value of another type. *)
Inductive MapEntry :=
  | EString (s : string)
  | EOther.

Inductive Value :=
  | VString (s : string)
  | VClaims (claims : option string)
  | VMap (user_id : option MapEntry)
  | VOther.

(** What [json.NewDecoder(r.Body).Decode] makes of the body for each
    struct a handler decodes into; [None] where it returns an error. *)
Record Body := mkBody {
  as_PostRequest : option posts.PostRequest;
  as_PostUpdate : option posts.PostUpdate;
  as_CommentRequest : option comments.CommentRequest
}.

(** [*http.Request] as far as the middleware and the handlers look at
    it. [ContextValue] maps the string keys of [r.Context()] to their
    values; keys of other types never equal a string key. [URLParams]
    is chi's route context: nil, or the keys and values of the URL
    parameters. *)
Record HttpRequest := mkHttpRequest {
  request : Request;
  Authorization : string;
  URLParams : option (list (string * string));
  Path : string;
  body : Body;
  ContextValue : gmap string Value
}.

(** [r.WithContext(context.WithValue(r.Context(), key, val))] *)
Definition WithValue (r : HttpRequest) (key : string) (val : Value)
    : HttpRequest :=
  {| request := request r;
     Authorization := Authorization r;
     URLParams := URLParams r;
     Path := Path r;
     body := body r;
     ContextValue := <[key := val]> (ContextValue r) |}.

(** What the client gets back: a status line written by the code, or a
    connection taken over by the websocket upgrader. *)
Inductive Response :=
  | Status (code : Z)
  | Hijacked.

Inductive http_panic :=
  | InterfaceConversion     (* x.(T) on a value that is no T *)
  | Runtime (f : fault).

(** How serving a request ends, over the state [St] the handler works
    on. *)
Inductive served (St : Type) :=
  | Responded (resp : Response) (st : St)
  | Panicked (why : http_panic)
  | Stuck.
Arguments Responded {St} resp st.
Arguments Panicked {St} why.
Arguments Stuck {St}.

Definition Handler (St : Type) : Type := HttpRequest → St → served St.

(** ** The JWT library and the other calls that answer from outside *)

(** [JWTClaims]: the custom claim and, of the registered ones,
    [ExpiresAt], which may be absent. *)
Record JWTClaims := mkJWTClaims {
  ClaimsUserID : string;
  ExpiresAt : option Time
}.

(** [*jwt.Token] as far as the middleware reads it; [Claims] is [None]
    when its dynamic type is not [*JWTClaims]. *)
Record Token := mkToken {
  Valid : bool;
  Claims : option JWTClaims
}.

(** [jwt.ParseWithClaims(tokenString, &JWTClaims{}, keyFunc)]: the
    library is given the token text and the key function, which it
    calls with the signing method of the token; [None] stands for a
    non-nil error. *)
Definition Library := string → (bool → option string) → option Token.

(** The key function of the middleware: the secret for an HMAC
    method, an error for any other. *)
Definition keyFunc (JWTSecret : string) (method_is_HMAC : bool)
    : option string :=
  if method_is_HMAC then Some JWTSecret else None.

Record Outside := mkOutside {
  ParseWithClaims : Library;
  uuid_Parse : string → bool;     (* uuid.Parse returned no error *)
  time_Now_ : Time;               (* time.Now() in the middleware *)
  tick : Tick                     (* uuid.New and time.Now in a constructor *)
}.

(** ** [AuthMiddleware.JWT] *)

Definition JWT {St} (out : Outside) (JWTSecret : string) (next : Handler St)
    : Handler St :=
  λ r st,
    if bool_decide (Method (request r) = "OPTIONS")
    then Responded (Status 200) st
    else
      let authHeader := Authorization r in
      if bool_decide (authHeader = "") then Responded (Status 401) st
      else
        let tokenString := strings.TrimPrefix authHeader "Bearer " in
        if bool_decide (tokenString = authHeader)
        then Responded (Status 401) st
        else
          let parts := strings.Split tokenString "."%char in
          if negb (length parts =? 3)%nat then Responded (Status 401) st
          else
            match ParseWithClaims out tokenString (keyFunc JWTSecret) with
            | None => Responded (Status 401) st
            | Some token =>
                if negb (Valid token) then Responded (Status 401) st
                else
                  match Claims token with
                  | None => Responded (Status 401) st
                  | Some claims =>
                      if match ExpiresAt claims with
                         | Some exp => (exp <? time_Now_ out)%Z
                         | None => false
                         end
                      then Responded (Status 401) st
                      else
                        next (WithValue r "user_id"
                                (VString (ClaimsUserID claims))) st
                  end
            end.

(** [enableCORS]: the headers it sets are not modelled. *)
Definition enableCORS {St} (next : Handler St) : Handler St :=
  λ r st,
    if bool_decide (Method (request r) = "OPTIONS")
    then Responded (Status 200) st
    else next r st.

(** ** package handlers *)

(** The answer of [ServeWs] when it returns: 405 and 400 from its own
    checks, otherwise whatever the upgrader did with the connection. *)
Definition ServeWs_response (r : Request) : Response :=
  if bool_decide (Method r ≠ "GET") then Status 405
  else if bool_decide (Upgrade r ≠ "websocket") then Status 400
  else Hijacked.

(** [ChatHandlers.Connect]: the type assertion has no [ok], so a
    context without [*entity.Claims] under "claims" is a panic, and a
    nil pointer under it is one at [claims.UserID]. *)
Definition Connect {Store} `{!ChatUseCase Store} : Handler (World Store) :=
  λ r w,
    match ContextValue r !! "claims" with
    | Some (VClaims (Some UserID)) =>
        match ServeWs (request r) UserID w with
        | Done w' => Responded (ServeWs_response (request r)) w'
        | Panic f => Panicked (Runtime f)
        | Blocked => Stuck
        end
    | Some (VClaims None) => Panicked (Runtime NilDeref)
    | _ => Panicked InterfaceConversion
    end.

(** [r.Context().Value("user_id").(string)] with its [ok]. *)
Definition user_id_of (r : HttpRequest) : option string :=
  match ContextValue r !! "user_id" with
  | Some (VString userID) => Some userID
  | _ => None
  end.

(** [rctx.URLParam(key)]: the value of the last parameter of this
    name, the empty string when there is none. *)
Definition URLParam_in (params : list (string * string)) (key : string)
    : string :=
  match List.find (λ kv, bool_decide (kv.1 = key)) (rev params) with
  | Some kv => kv.2
  | None => ""
  end.

(** [chi.URLParam(r, key)] *)
Definition URLParam (r : HttpRequest) (key : string) : string :=
  match URLParams r with
  | Some params => URLParam_in params key
  | None => ""
  end.

(** The post id as [GetPost], [UpdatePost] and [DeletePost] work it
    out, each with the same lines: [chi.URLParam], then the loop over
    the keys of the route context, then the fifth piece of the path
    when nothing was found. *)
Definition final_postID (r : HttpRequest) : string :=
  let postID :=
    match URLParams r with
    | Some params =>
        foldl (λ postID kv, if bool_decide (kv.1 = "postId") then kv.2 else postID)
              (URLParam r "postId") params
    | None => ""
    end in
  let pathParts := strings.Split (Path r) "/"%char in
  if (4 <? length pathParts)%nat
  then (if bool_decide (postID = "") then default "" (pathParts !! 4%nat) else postID)
  else postID.

(** [PostHandlers.CreatePost] *)
Definition CreatePost (out : Outside) : Handler posts.Repository.DB :=
  λ r st,
    match as_PostRequest (body r) with
    | None => Responded (Status 400) st
    | Some req =>
        let categoryID := posts.ReqCategoryID req in
        if bool_decide (categoryID ≠ "1") && bool_decide (categoryID ≠ "2")
           && bool_decide (categoryID ≠ "3")
        then Responded (Status 400) st
        else
          match ContextValue r !! "claims" with
          | Some (VMap user_id) =>
              match user_id with
              | Some (EString userID) =>
                  if bool_decide (userID = "") then Responded (Status 401) st
                  else
                    match posts.UseCase.Create (tick out) st req userID with
                    | (st', inl _) => Responded (Status 500) st'
                    | (st', inr _) => Responded (Status 200) st'
                    end
              | _ => Responded (Status 401) st
              end
          | _ => Responded (Status 401) st
          end
    end.

(** [PostHandlers.UpdatePost] *)
Definition UpdatePost (out : Outside) : Handler posts.Repository.DB :=
  λ r st,
    let postID := final_postID r in
    if bool_decide (postID = "") then Responded (Status 400) st
    else if negb (uuid_Parse out postID) then Responded (Status 400) st
    else
      match as_PostUpdate (body r) with
      | None => Responded (Status 400) st
      | Some req =>
          match user_id_of r with
          | None => Responded (Status 401) st
          | Some userID =>
              if bool_decide (userID = "") then Responded (Status 401) st
              else
                match posts.UseCase.Update st postID req userID with
                | (st', inl err) =>
                    Responded (Status (if bool_decide (err = Unauthorized)
                                       then 401 else 500)) st'
                | (st', inr _) => Responded (Status 200) st'
                end
          end
      end.

(** [PostHandlers.DeletePost] *)
Definition DeletePost (out : Outside) : Handler posts.Repository.DB :=
  λ r st,
    let postID := final_postID r in
    if bool_decide (postID = "") then Responded (Status 400) st
    else if negb (uuid_Parse out postID) then Responded (Status 400) st
    else
      match user_id_of r with
      | None => Responded (Status 401) st
      | Some userID =>
          if bool_decide (userID = "") then Responded (Status 401) st
          else
            match posts.UseCase.Delete st postID userID with
            | (st', Some err) =>
                Responded (Status (if bool_decide (err = Unauthorized)
                                   then 401 else 500)) st'
            | (st', None) => Responded (Status 204) st'
            end
      end.

(** [CommentHandlers.CreateComment]: the post of the comment is the
    one of the URL, whatever the body says. *)
Definition CreateComment (out : Outside) : Handler comments.Repository.DB :=
  λ r st,
    let postID := URLParam r "postId" in
    if negb (uuid_Parse out postID) then Responded (Status 400) st
    else
      match as_CommentRequest (body r) with
      | None => Responded (Status 400) st
      | Some req =>
          let req := {| comments.ReqContent := comments.ReqContent req;
                        comments.ReqPostID := postID |} in
          match user_id_of r with
          | None => Responded (Status 401) st
          | Some userID =>
              if bool_decide (userID = "") then Responded (Status 401) st
              else
                match comments.UseCase.Create (tick out) st req userID with
                | (st', inl _) => Responded (Status 500) st'
                | (st', inr _) => Responded (Status 201) st'
                end
          end
      end.

(** ** [NewRouter]: the authenticated routes

    Each is its handler behind [enableCORS] and [authMiddleware.JWT];
    the middlewares of chi before them pass the request on and store
    nothing under a string key. *)

Definition route_chat_ws {Store} `{!ChatUseCase Store} (out : Outside)
    (jwtSecret : string) : Handler (World Store) :=
  enableCORS (JWT out jwtSecret Connect).

Definition route_create_post (out : Outside) (jwtSecret : string)
    : Handler posts.Repository.DB :=
  enableCORS (JWT out jwtSecret (CreatePost out)).

Definition route_update_post (out : Outside) (jwtSecret : string)
    : Handler posts.Repository.DB :=
  enableCORS (JWT out jwtSecret (UpdatePost out)).

Definition route_delete_post (out : Outside) (jwtSecret : string)
    : Handler posts.Repository.DB :=
  enableCORS (JWT out jwtSecret (DeletePost out)).

Definition route_create_comment (out : Outside) (jwtSecret : string)
    : Handler comments.Repository.DB :=
  enableCORS (JWT out jwtSecret (CreateComment out)).

(** The request carries a bearer token that the library accepts for
    this secret, valid, with claims of the expected type and not
    expired: the user the token names. *)
Definition authenticated (out : Outside) (JWTSecret : string)
    (r : HttpRequest) (userID : string) : Prop :=
  ∃ tokenString token claims,
    Authorization r = ("Bearer " +:+ tokenString)%string ∧
    strings.count "."%char tokenString = 2%nat ∧
    ParseWithClaims out tokenString (keyFunc JWTSecret) = Some token ∧
    Valid token = true ∧
    Claims token = Some claims ∧
    (∀ exp, ExpiresAt claims = Some exp → (time_Now_ out ≤ exp)%Z) ∧
    ClaimsUserID claims = userID.

End httpdelivery.

(** ** Sample data for the comments, the posts and the routes *)

Definition first_comment : comments.Repository.Row :=
  {| comments.Repository.row_id := "c1";
     comments.Repository.row_content := "first";
     comments.Repository.row_post_id := "p1";
     comments.Repository.row_author_id := "alice";
     comments.Repository.row_created_at := 1 |}.

Definition second_comment : comments.Repository.Row :=
  {| comments.Repository.row_id := "c2";
     comments.Repository.row_content := "second";
     comments.Repository.row_post_id := "p1";
     comments.Repository.row_author_id := "bob";
     comments.Repository.row_created_at := 2 |}.

Definition other_comment : comments.Repository.Row :=
  {| comments.Repository.row_id := "c3";
     comments.Repository.row_content := "elsewhere";
     comments.Repository.row_post_id := "p2";
     comments.Repository.row_author_id := "alice";
     comments.Repository.row_created_at := 3 |}.

Definition sample_comments : comments.Repository.DB :=
  {| comments.Repository.comments :=
       [first_comment; second_comment; other_comment];
     comments.Repository.driver_faults := [] |}.

(** The same table with a driver that fails the third statement. *)
Definition flaky_comments : comments.Repository.DB :=
  {| comments.Repository.comments :=
       [first_comment; second_comment; other_comment];
     comments.Repository.driver_faults := [false; false; true] |}.

Definition no_comments : comments.Repository.DB :=
  {| comments.Repository.comments := [];
     comments.Repository.driver_faults := [] |}.

Definition alices_post : posts.Repository.Row :=
  {| posts.Repository.row_id := "p1";
     posts.Repository.row_title := "title";
     posts.Repository.row_content := "content of the post";
     posts.Repository.row_author_id := "alice";
     posts.Repository.row_category_id := "1";
     posts.Repository.row_is_pinned := false;
     posts.Repository.row_created_at := 1 |}.

Definition sample_posts : posts.Repository.DB :=
  {| posts.Repository.posts := [alices_post];
     posts.Repository.driver_faults := [] |}.

(** A library that accepts one token, alice's, for the key "secret". *)
Definition sample_outside : httpdelivery.Outside :=
  {| httpdelivery.ParseWithClaims := λ tokenString keyFunc,
       if bool_decide (tokenString = "h.alice.s")
       then match keyFunc true with
            | Some "secret" =>
                Some {| httpdelivery.Valid := true;
                        httpdelivery.Claims :=
                          Some {| httpdelivery.ClaimsUserID := "alice";
                                  httpdelivery.ExpiresAt := Some 5000000000%Z |} |}
            | _ => None
            end
       else None;
     httpdelivery.uuid_Parse := λ _, true;
     httpdelivery.time_Now_ := 4000000000%Z;
     httpdelivery.tick := {| uuid_New := "c9"; time_Now := 4000000000%Z |} |}.

(** A request with alice's token for the post "p1". *)
Definition alices_request (method : string) : httpdelivery.HttpRequest :=
  {| httpdelivery.request :=
       {| Method := method; Upgrade := "websocket"; handshake_ok := true |};
     httpdelivery.Authorization := "Bearer h.alice.s";
     httpdelivery.URLParams := Some [("postId", "p1")];
     httpdelivery.Path := "/api/v1/posts/p1";
     httpdelivery.body :=
       {| httpdelivery.as_PostRequest :=
            Some {| posts.ReqTitle := "title";
                    posts.ReqContent := "content of the post";
                    posts.ReqCategoryID := "1" |};
          httpdelivery.as_PostUpdate :=
            Some {| posts.UpdTitle := "new title";
                    posts.UpdContent := "new content of the post" |};
          httpdelivery.as_CommentRequest :=
            Some {| comments.ReqContent := "a comment";
                    comments.ReqPostID := "p7" |} |};
     httpdelivery.ContextValue := ∅ |}.

(** The hub after alice connected to it over a table of two messages. *)
Definition w_joined : World repository.DB :=
  match ServeWs upgrade_request "alice" (NewHub history_db) with
  | Done w => w
  | _ => NewHub history_db
  end.

Definition third : ChatMessage :=
  {| ID := "m3"; UserID := "u2"; Text := "third"; CreatedAt := 3000000000%Z |}.

(** ** package grpcdel: posts *)

Module grpc_posts.

Record CreatePostRequest := mkCreatePostRequest {
  Title : string;
  Content : string;
  CategoryId : string;
  AuthorId : string
}.

(** [forum.PostResponse]; [CreatedAt] is the RFC3339 text, kept as its
    seconds. *)
Record PostResponse := mkPostResponse {
  Id : string;
  RespTitle : string;
  RespContent : string;
  RespAuthorId : string;
  RespCategoryId : string;
  CreatedAt : Z;
  IsPinned : bool
}.

(** The status codes the two methods return with an error. *)
Inductive code :=
  | Internal
  | NotFound.

(** The literal [&forum.PostResponse{Id: response.ID, ...}] *)
Definition to_pb (response : posts.PostResponse) : PostResponse :=
  {| Id := posts.RespID response;
     RespTitle := posts.RespTitle response;
     RespContent := posts.RespContent response;
     RespAuthorId := posts.RespAuthorID response;
     RespCategoryId := posts.RespCategoryID response;
     CreatedAt := repository.format_RFC3339 (posts.RespCreatedAt response);
     IsPinned := posts.RespIsPinned response |}.

(** [ForumServer.CreatePost]: the author is the one the request names. *)
Definition CreatePost (env : Tick) (db : posts.Repository.DB)
    (req : CreatePostRequest) : posts.Repository.DB * (code + PostResponse) :=
  let postReq := {| posts.ReqTitle := Title req;
                    posts.ReqContent := Content req;
                    posts.ReqCategoryID := CategoryId req |} in
  match posts.UseCase.Create env db postReq (AuthorId req) with
  | (db', inl _) => (db', inl Internal)
  | (db', inr response) => (db', inr (to_pb response))
  end.

(** [ForumServer.GetPost]: whatever the error, the code is NotFound. *)
Definition GetPost (db : posts.Repository.DB) (PostId : string)
    : posts.Repository.DB * (code + PostResponse) :=
  match posts.UseCase.GetByID db PostId with
  | (db', inl _) => (db', inl NotFound)
  | (db', inr post) => (db', inr (to_pb post))
  end.

End grpc_posts.

Definition no_posts : posts.Repository.DB :=
  {| posts.Repository.posts := []; posts.Repository.driver_faults := [] |}.

(** * Properties *)

(** ** Channels *)

Lemma chan_close_open ch : closed ch = false → chan_close ch = Done (mark_closed ch).
Proof. unfold chan_close. by intros ->. Qed.

Lemma chan_close_closed ch : closed ch = true → chan_close ch = Panic CloseOfClosed.
Proof. unfold chan_close. by intros ->. Qed.

Lemma chan_try_send_open m ch :
  closed ch = false →
  chan_try_send m ch = Done (if has_room ch then Some (enqueue m ch) else None).
Proof. unfold chan_try_send. intros ->. by destruct (has_room ch). Qed.

Lemma chan_try_send_never_blocks m ch : chan_try_send m ch ≠ Blocked.
Proof. unfold chan_try_send. by repeat case_match. Qed.

Lemma chan_send_room m ch :
  closed ch = false → (length (buf ch) < cap ch)%nat →
  chan_send m ch = Done (enqueue m ch).
Proof.
  intros Hc Hlen. unfold chan_send, has_room. rewrite Hc.
  by destruct (Nat.ltb_spec (length (buf ch)) (cap ch)); [|lia].
Qed.

Lemma has_room_true ch : has_room ch = true ↔ (length (buf ch) < cap ch)%nat.
Proof. unfold has_room. apply Nat.ltb_lt. Qed.

Lemma has_room_false ch : has_room ch = false ↔ (cap ch ≤ length (buf ch))%nat.
Proof. unfold has_room. apply Nat.ltb_ge. Qed.

(** ** The hub: single turns *)

Section hub_facts.

Context {Store : Type} `{!ChatUseCase Store}.
Implicit Types (w : World Store) (c : ptr) (m : ChatMessage) (cl : Client).

Lemma world_eq w1 w2 :
  clients w1 = clients w2 → chatUC w1 = chatUC w2 →
  heap w1 = heap w2 → trace w1 = trace w2 → w1 = w2.
Proof. destruct w1, w2; simpl; by intros -> -> -> ->. Qed.

(** *** Blocking sends of the history *)

Lemma send_to_room c m w cl :
  heap w !! c = Some cl → closed (send cl) = false →
  (length (buf (send cl)) < cap (send cl))%nat →
  send_to c m w =
    Done (emit (ActSend c m) (set_client c (with_send cl (enqueue m (send cl))) w)).
Proof.
  intros Hc Hopen Hlen. unfold send_to. rewrite Hc.
  by rewrite chan_send_room.
Qed.

Lemma send_all_room c messages : ∀ w cl,
  heap w !! c = Some cl → closed (send cl) = false →
  (length (buf (send cl)) + length messages ≤ cap (send cl))%nat →
  send_all c messages w =
    Done {| clients := clients w; chatUC := chatUC w;
            heap := <[c := with_send cl
                        {| buf := buf (send cl) ++ messages;
                           cap := cap (send cl); closed := false |}]> (heap w);
            trace := trace w ++ (ActSend c <$> messages) |}.
Proof.
  induction messages as [|m rest IH]; intros w cl Hc Hopen Hlen; simpl.
  - f_equal. apply world_eq; simpl; try done.
    + rewrite app_nil_r. rewrite insert_id; [done|].
      rewrite Hc. f_equal. destruct cl as [[b k cd] u p]; simpl in *.
      by subst.
    + by rewrite app_nil_r.
  - simpl in Hlen. rewrite (send_to_room c m w cl) by (done || lia). simpl.
    rewrite (IH _ (with_send cl (enqueue m (send cl)))); simpl.
    + f_equal. apply world_eq; simpl; try done.
      * rewrite insert_insert_eq. by rewrite <-app_assoc.
      * by rewrite <-app_assoc.
    + by rewrite lookup_insert_eq.
    + done.
    + rewrite length_app. simpl. lia.
Qed.

(** *** One turn of the fan-out loop *)

Lemma deliver_open m c w cl :
  heap w !! c = Some cl → closed (send cl) = false →
  deliver m c w =
    Done {| clients := if has_room (send cl) then clients w
                       else delete c (clients w);
            chatUC := chatUC w;
            heap := <[c := after_delivery m cl]> (heap w);
            trace := trace w ++ delivery_actions m c cl |}.
Proof.
  intros Hc Hopen. unfold deliver, after_delivery, delivery_actions.
  rewrite Hc, chan_try_send_open by done. simpl.
  destruct (has_room (send cl)); simpl.
  - done.
  - rewrite chan_close_open by done. simpl. f_equal.
    apply world_eq; simpl; try done. by rewrite <-app_assoc.
Qed.

Lemma deliver_never_blocks m c w : deliver m c w ≠ Blocked.
Proof.
  unfold deliver. destruct (heap w !! c) as [cl|]; [|done].
  unfold chan_try_send, chan_close.
  destruct (closed (send cl)) eqn:Hcl; simpl; [done|].
  by destruct (has_room (send cl)).
Qed.

Lemma fanout_never_blocks m cs : ∀ w, fanout m cs w ≠ Blocked.
Proof.
  induction cs as [|c cs IH]; intros w; simpl; [done|].
  pose proof (deliver_never_blocks m c w) as Hd.
  destruct (deliver m c w); simpl; [apply IH | done | done].
Qed.

Lemma elem_of_range_keys (cs : gmap ptr bool) c :
  c ∈ range_keys cs ↔ is_Some (cs !! c).
Proof.
  unfold range_keys. rewrite list_elem_of_fmap. split.
  - intros [[c' b] [-> Hin]]. apply elem_of_map_to_list in Hin. by exists b.
  - intros [b Hb]. exists (c, b). split; [done|]. by apply elem_of_map_to_list.
Qed.

Lemma NoDup_range_keys (cs : gmap ptr bool) : NoDup (range_keys cs).
Proof. apply NoDup_fst_map_to_list. Qed.

(** The whole loop, over any list of distinct clients with open
    mailboxes: each is handled by itself. *)
Lemma fanout_spec m cs : ∀ w,
  NoDup cs →
  (∀ c, c ∈ cs → ∃ cl, heap w !! c = Some cl ∧ closed (send cl) = false) →
  ∃ w', fanout m cs w = Done w' ∧
    chatUC w' = chatUC w ∧
    (∀ c, heap w' !! c =
          if decide (c ∈ cs) then after_delivery m <$> heap w !! c
          else heap w !! c) ∧
    (∀ c, clients w' !! c =
          if decide (c ∈ cs) then (if full_at w c then None else clients w !! c)
          else clients w !! c) ∧
    trace w' =
      trace w ++ (cs ≫= λ c, from_option (delivery_actions m c) [] (heap w !! c)).
Proof.
  induction cs as [|c0 cs IH]; intros w Hnd Hopen.
  - exists w. simpl. split_and!; try done. by rewrite app_nil_r.
  - apply NoDup_cons in Hnd as [Hc0 Hnd].
    destruct (Hopen c0) as (cl0 & Hcl0 & Hop0); [set_solver|].
    simpl. rewrite (deliver_open m c0 w cl0) by done. simpl.
    set (w1 := {| clients := _; chatUC := _; heap := _; trace := _ |}).
    assert (Hheap1 : ∀ c, c ≠ c0 → heap w1 !! c = heap w !! c).
    { intros c Hne. simpl. by rewrite lookup_insert_ne. }
    destruct (IH w1 Hnd) as (w' & Hrun & Hs & Hh & Hcs & Htr).
    { intros c Hc. rewrite Hheap1 by set_solver. apply Hopen. set_solver. }
    exists w'. split_and!; try done.
    + intros c. rewrite Hh. destruct (decide (c = c0)) as [->|Hne].
      * rewrite (decide_False (P := c0 ∈ cs)) by done.
        rewrite decide_True by left.
        simpl. by rewrite lookup_insert_eq, Hcl0.
      * rewrite Hheap1 by done.
        destruct (decide (c ∈ cs));
          [rewrite decide_True by (by right)
          |rewrite decide_False by (by apply not_elem_of_cons)]; done.
    + intros c. rewrite Hcs. destruct (decide (c = c0)) as [->|Hne].
      * rewrite (decide_False (P := c0 ∈ cs)) by done.
        rewrite decide_True by left.
        unfold full_at. rewrite Hcl0. simpl.
        destruct (has_room (send cl0)); simpl; [done|].
        by rewrite lookup_delete_eq.
      * assert (clients w1 !! c = clients w !! c) as ->.
        { simpl. destruct (has_room (send cl0)); [done|].
          by rewrite lookup_delete_ne. }
        assert (full_at w1 c = full_at w c) as ->.
        { unfold full_at. by rewrite Hheap1. }
        destruct (decide (c ∈ cs));
          [rewrite decide_True by (by right)
          |rewrite decide_False by (by apply not_elem_of_cons)]; done.
    + rewrite Htr. simpl. rewrite Hcl0. simpl. rewrite <-app_assoc.
      do 2 f_equal. apply Forall_bind_ext, Forall_forall.
      intros c Hc. rewrite Hheap1; [done|]. set_solver.
Qed.

(** *** The broadcast branch *)

Lemma on_broadcast_failed m w s' e :
  SaveMessage (chatUC w) m = (s', Some e) →
  on_broadcast m w =
    Done {| clients := clients w; chatUC := s'; heap := heap w;
            trace := trace w ++ [ActSave m (Some e); ActLog] |}.
Proof.
  intros Hsave. unfold on_broadcast. rewrite Hsave. simpl. f_equal.
  apply world_eq; simpl; try done. by rewrite <-app_assoc.
Qed.

Lemma on_broadcast_saved m w s' :
  SaveMessage (chatUC w) m = (s', None) → open_members w →
  ∃ w', on_broadcast m w = Done w' ∧
    chatUC w' = s' ∧
    (∀ c, heap w' !! c =
          if decide (is_Some (clients w !! c))
          then after_delivery m <$> heap w !! c else heap w !! c) ∧
    (∀ c, clients w' !! c = if full_at w c then None else clients w !! c) ∧
    trace w' =
      trace w ++ ActSave m None ::
        (range_keys (clients w) ≫=
           λ c, from_option (delivery_actions m c) [] (heap w !! c)).
Proof.
  intros Hsave Hopen. unfold on_broadcast. rewrite Hsave. simpl.
  set (w1 := emit _ _).
  destruct (fanout_spec m (range_keys (clients w)) w1)
    as (w' & Hrun & Hs & Hh & Hcs & Htr).
  { apply NoDup_range_keys. }
  { intros c Hc. apply elem_of_range_keys in Hc. by apply Hopen. }
  exists w'. split_and!; try done.
  - intros c. rewrite Hh. simpl.
    destruct (decide (c ∈ range_keys (clients w))) as [Hin|Hin];
      [rewrite decide_True|rewrite decide_False]; try done;
      by rewrite <-elem_of_range_keys.
  - intros c. rewrite Hcs. simpl.
    destruct (decide (c ∈ range_keys (clients w))) as [Hin|Hin]; [done|].
    rewrite elem_of_range_keys in Hin. apply eq_None_not_Some in Hin.
    rewrite Hin. by destruct (full_at w c).
  - rewrite Htr. simpl. by rewrite <-app_assoc.
Qed.

(** *** What a finished turn tells about the state before it *)

Lemma send_to_Done c m w w' :
  send_to c m w = Done w' →
  ∃ cl, heap w !! c = Some cl ∧ closed (send cl) = false ∧
    w' = emit (ActSend c m) (set_client c (with_send cl (enqueue m (send cl))) w).
Proof.
  unfold send_to, chan_send. destruct (heap w !! c) as [cl|]; [|done].
  destruct (closed (send cl)) eqn:Hcl; [done|].
  destruct (has_room (send cl)); [|done]. simpl.
  intros [= <-]. by exists cl.
Qed.

Lemma append_buf_nil cl : append_buf [] cl = cl.
Proof.
  destruct cl as [[b k cd] u p]. unfold append_buf, with_send. simpl.
  by rewrite app_nil_r.
Qed.

Lemma send_all_Done c ms : ∀ w w',
  send_all c ms w = Done w' →
  clients w' = clients w ∧ chatUC w' = chatUC w ∧
  (∀ c', c' ≠ c → heap w' !! c' = heap w !! c') ∧
  heap w' !! c = append_buf ms <$> heap w !! c ∧
  trace w' = trace w ++ (ActSend c <$> ms).
Proof.
  induction ms as [|m rest IH]; intros w w'; simpl.
  - intros [= <-]. split_and!; try done.
    + destruct (heap w !! c) as [cl|]; simpl; [|done]. by rewrite append_buf_nil.
    + by rewrite app_nil_r.
  - destruct (send_to c m w) as [w1| |] eqn:Hsend; simpl; try done.
    intros Hrest. apply send_to_Done in Hsend as (cl & Hcl & Hopen & ->).
    apply IH in Hrest as (Hcs & Hs & Hother & Hc & Htr). simpl in *.
    split_and!; try done.
    + intros c' Hne. rewrite Hother by done. by rewrite lookup_insert_ne.
    + rewrite Hc, lookup_insert_eq, Hcl. simpl. f_equal.
      unfold append_buf, with_send, enqueue. simpl. by rewrite <-app_assoc.
    + rewrite Htr. by rewrite <-app_assoc.
Qed.

Lemma deliver_Done m c w w' :
  deliver m c w = Done w' →
  ∃ cl, heap w !! c = Some cl ∧ closed (send cl) = false.
Proof.
  unfold deliver, chan_try_send. destruct (heap w !! c) as [cl|]; [|done].
  destruct (closed (send cl)) eqn:Hcl; [done|]. intros _. by exists cl.
Qed.

Lemma fanout_Done_open m cs : ∀ w w',
  NoDup cs → fanout m cs w = Done w' →
  ∀ c, c ∈ cs → ∃ cl, heap w !! c = Some cl ∧ closed (send cl) = false.
Proof.
  induction cs as [|c0 cs IH]; intros w w' Hnd Hrun c Hc.
  - by apply elem_of_nil in Hc.
  - apply NoDup_cons in Hnd as [Hc0 Hnd]. simpl in Hrun.
    destruct (deliver m c0 w) as [w1| |] eqn:Hd; simpl in Hrun; try done.
    destruct (deliver_Done _ _ _ _ Hd) as (cl0 & Hcl0 & Hop0).
    apply elem_of_cons in Hc as [->|Hc]; [by exists cl0|].
    destruct (IH w1 w' Hnd Hrun c Hc) as (cl & Hcl & Hop).
    exists cl. split; [|done].
    rewrite (deliver_open m c0 w cl0) in Hd by done. injection Hd as <-.
    simpl in Hcl. rewrite lookup_insert_ne in Hcl; [done|].
    intros ->. done.
Qed.

(** A broadcast that was saved and whose fan-out finished found the
    mailbox of every member open. *)
Lemma on_broadcast_Done_open m w w' :
  on_broadcast m w = Done w' → (SaveMessage (chatUC w) m).2 = None →
  ∀ c, is_Some (clients w !! c) →
    ∃ cl, heap w !! c = Some cl ∧ closed (send cl) = false.
Proof.
  unfold on_broadcast. destruct (SaveMessage (chatUC w) m) as [s' [e|]]; [done|].
  simpl. intros Hrun _ c Hc.
  eapply (fanout_Done_open m _ _ w' (NoDup_range_keys _) Hrun c).
  by apply elem_of_range_keys.
Qed.

(** *** The register branch *)

Lemma on_register_Done c0 w w' :
  on_register c0 w = Done w' →
  clients w' = <[c0:=true]> (clients w) ∧
  chatUC w' = (GetMessages (chatUC w) 100 0).1 ∧
  (∀ c, c ≠ c0 → heap w' !! c = heap w !! c) ∧
  heap w' !! c0 = append_buf (replayed w) <$> heap w !! c0 ∧
  trace w' =
    trace w ++ [ActInsert c0; ActFetch (GetMessages (chatUC w) 100 0).2.2]
            ++ (ActSend c0 <$> replayed w).
Proof.
  unfold on_register, replayed. simpl.
  destruct (GetMessages (chatUC w) 100 0) as [s' [ms [e|]]]; simpl.
  - intros [= <-]. simpl. split_and!; try done.
    + destruct (heap w !! c0); simpl; [|done]. by rewrite append_buf_nil.
    + by rewrite <-app_assoc.
  - intros Hsend. apply send_all_Done in Hsend as (Hcs & Hs & Ho & Hc & Htr).
    simpl in *. split_and!; try done.
    rewrite Htr. by rewrite <-!app_assoc.
Qed.

Lemma on_register_room c0 w cl :
  heap w !! c0 = Some cl → closed (send cl) = false →
  (length (buf (send cl)) + length (replayed w) ≤ cap (send cl))%nat →
  is_Done (on_register c0 w).
Proof.
  intros Hcl Hopen Hlen. unfold on_register, replayed in *. simpl in *.
  destruct (GetMessages (chatUC w) 100 0) as [s' [ms [e|]]]; simpl in *.
  - by eexists.
  - erewrite send_all_room; [by eexists| | |]; simpl; done.
Qed.

(** *** The unregister branch *)

Lemma on_unregister_nonmember c w :
  clients w !! c = None → on_unregister c w = Done w.
Proof. unfold on_unregister. by intros ->. Qed.

Lemma on_unregister_member c w b cl :
  clients w !! c = Some b → heap w !! c = Some cl → closed (send cl) = false →
  on_unregister c w =
    Done {| clients := delete c (clients w); chatUC := chatUC w;
            heap := <[c := with_send cl (mark_closed (send cl))]> (heap w);
            trace := trace w ++ [ActDelete c; ActClose c] |}.
Proof.
  intros Hb Hcl Hopen. unfold on_unregister. rewrite Hb. simpl.
  rewrite Hcl, chan_close_open by done. simpl. f_equal.
  apply world_eq; simpl; try done. by rewrite <-app_assoc.
Qed.

Lemma on_unregister_Done c w w' :
  on_unregister c w = Done w' →
  (clients w !! c = None ∧ w' = w) ∨
  (∃ b cl, clients w !! c = Some b ∧ heap w !! c = Some cl ∧
     closed (send cl) = false ∧
     w' = {| clients := delete c (clients w); chatUC := chatUC w;
             heap := <[c := with_send cl (mark_closed (send cl))]> (heap w);
             trace := trace w ++ [ActDelete c; ActClose c] |}).
Proof.
  intros Hrun. destruct (clients w !! c) as [b|] eqn:Hb.
  - right. pose proof Hrun as Hrun'.
    unfold on_unregister in Hrun'. rewrite Hb in Hrun'. simpl in Hrun'.
    destruct (heap w !! c) as [cl|] eqn:Hcl; [|done].
    destruct (closed (send cl)) eqn:Hopen.
    { by rewrite chan_close_closed in Hrun'. }
    exists b, cl. split_and!; try done.
    rewrite (on_unregister_member c w b cl) in Hrun by done.
    by injection Hrun.
  - left. split; [done|]. rewrite on_unregister_nonmember in Hrun by done.
    by injection Hrun.
Qed.

Lemma on_unregister_never_blocks c w : on_unregister c w ≠ Blocked.
Proof.
  unfold on_unregister. destruct (clients w !! c); [|done]. simpl.
  destruct (heap w !! c) as [cl|]; [|done]. unfold chan_close.
  by destruct (closed (send cl)).
Qed.

(** *** [ServeWs] and [writePump] *)

Lemma ServeWs_rejected r uid w :
  accepted r = false → ServeWs r uid w = Done w.
Proof.
  unfold accepted, ServeWs. intros Hacc.
  destruct (decide (Method r = "GET")) as [Hm|Hm].
  - rewrite (bool_decide_eq_false_2 (Method r ≠ "GET")) by (by intros ?).
    rewrite (bool_decide_eq_true_2 _ Hm) in Hacc.
    destruct (decide (Upgrade r = "websocket")) as [Hu|Hu].
    + rewrite (bool_decide_eq_false_2 (Upgrade r ≠ "websocket")) by (by intros ?).
      rewrite (bool_decide_eq_true_2 _ Hu) in Hacc. simpl in Hacc.
      by rewrite Hacc.
    + by rewrite (bool_decide_eq_true_2 (Upgrade r ≠ "websocket")).
  - by rewrite (bool_decide_eq_true_2 (Method r ≠ "GET")).
Qed.

Lemma ServeWs_accepted r uid w :
  accepted r = true →
  ServeWs r uid w =
    on_register (fresh (dom (heap w)))
      (set_client (fresh (dom (heap w)))
         {| send := make_chan 256; userID := uid; pumped := [] |} w).
Proof.
  unfold accepted, ServeWs. intros Hacc.
  apply andb_prop in Hacc as [Hacc Hh]. apply andb_prop in Hacc as [Hm Hu].
  apply bool_decide_eq_true_1 in Hm, Hu.
  rewrite (bool_decide_eq_false_2 (Method r ≠ "GET")) by (by intros ?).
  rewrite (bool_decide_eq_false_2 (Upgrade r ≠ "websocket")) by (by intros ?).
  by rewrite Hh.
Qed.

Lemma fresh_heap w c cl : heap w !! c = Some cl → c ≠ fresh (dom (heap w)).
Proof.
  intros Hc ->. apply (is_fresh (dom (heap w))).
  apply elem_of_dom. by exists cl.
Qed.

Lemma mailbox_stream_after_delivery m cl :
  mailbox_stream (after_delivery m cl) =
    mailbox_stream cl ++ (if has_room (send cl) then [m] else []).
Proof.
  unfold after_delivery, mailbox_stream.
  destruct (has_room (send cl)); simpl.
  - by rewrite app_assoc.
  - by rewrite app_nil_r.
Qed.

Lemma writePump_recv_fields c w :
  clients (writePump_recv c w) = clients w ∧
  chatUC (writePump_recv c w) = chatUC w ∧
  trace (writePump_recv c w) = trace w.
Proof.
  unfold writePump_recv, chan_recv. destruct (heap w !! c) as [cl|]; [|done].
  by destruct (buf (send cl)).
Qed.

Lemma writePump_recv_heap c0 w c cl :
  heap w !! c = Some cl →
  ∃ cl', heap (writePump_recv c0 w) !! c = Some cl' ∧
    mailbox_stream cl' = mailbox_stream cl ∧ userID cl' = userID cl ∧
    closed (send cl') = closed (send cl) ∧ cap (send cl') = cap (send cl) ∧
    (length (buf (send cl')) ≤ length (buf (send cl)))%nat.
Proof.
  intros Hc. unfold writePump_recv, chan_recv.
  destruct (heap w !! c0) as [cl0|] eqn:Hc0; [|by exists cl].
  destruct (buf (send cl0)) as [|m rest] eqn:Hbuf; [by exists cl|]. simpl.
  destruct (decide (c = c0)) as [->|Hne].
  - rewrite lookup_insert_eq. eexists. split; [done|].
    assert (cl0 = cl) as -> by congruence.
    unfold mailbox_stream. simpl. rewrite Hbuf. simpl.
    split_and!; try done; [by rewrite <-app_assoc | lia].
  - rewrite lookup_insert_ne by done. by exists cl.
Qed.

(** *** What one step does to a client that exists *)

Lemma step_client e w w' c cl :
  step e w = Done w' → heap w !! c = Some cl →
  ∃ cl', heap w' !! c = Some cl' ∧
    mailbox_stream cl' = mailbox_stream cl ++ gain e w c ∧
    userID cl' = userID cl ∧
    (clients w !! c = None → clients w' !! c = None) ∧
    (saved e w ≠ [] → gain e w c = [] → clients w' !! c = None).
Proof.
  intros Hstep Hc. destruct e as [r uid|c0|m|c0]; simpl in *.
  - (* ServeWs *)
    destruct (accepted r) eqn:Hacc.
    + rewrite ServeWs_accepted in Hstep by done.
      apply on_register_Done in Hstep as (Hcs & _ & Ho & _ & _).
      pose proof (fresh_heap w c cl Hc) as Hne. simpl in *.
      exists cl. rewrite Ho, lookup_insert_ne by done.
      rewrite Hcs, lookup_insert_ne by done.
      split_and!; try done. by rewrite app_nil_r.
    + rewrite ServeWs_rejected in Hstep by done. injection Hstep as <-.
      exists cl. split_and!; try done. by rewrite app_nil_r.
  - (* unregister *)
    apply on_unregister_Done in Hstep
      as [[Hnm ->]|(b & cl0 & Hb & Hcl0 & Hopen & ->)].
    + exists cl. split_and!; try done. by rewrite app_nil_r.
    + simpl. destruct (decide (c = c0)) as [->|Hne].
      * rewrite lookup_insert_eq, lookup_delete_eq. eexists. split; [done|].
        assert (cl0 = cl) as -> by congruence.
        split_and!; try done. unfold mailbox_stream. simpl.
        by rewrite app_nil_r.
      * rewrite lookup_insert_ne, lookup_delete_ne by done.
        exists cl. split_and!; try done. by rewrite app_nil_r.
  - (* broadcast *)
    destruct (SaveMessage (chatUC w) m) as [s' [err|]] eqn:Hsave; simpl.
    + rewrite (on_broadcast_failed m w s' err) in Hstep by done.
      injection Hstep as <-. simpl.
      exists cl. split_and!; try done. by rewrite app_nil_r.
    + assert (Hopen : open_members w).
      { intros c1 Hc1. eapply on_broadcast_Done_open; [done| |done].
        by rewrite Hsave. }
      destruct (on_broadcast_saved m w s' Hsave Hopen)
        as (w1 & Hrun & _ & Hh & Hcs & _).
      rewrite Hrun in Hstep. injection Hstep as ->.
      rewrite Hh, Hcs, Hc. unfold full_at. rewrite Hc. simpl.
      destruct (decide (is_Some (clients w !! c))) as [Hm|Hm].
      * eexists. split; [done|].
        rewrite mailbox_stream_after_delivery.
        destruct (has_room (send cl)); simpl; split_and!; try done.
        unfold after_delivery. by destruct (has_room (send cl)).
        unfold after_delivery. by destruct (has_room (send cl)).
      * exists cl. apply eq_None_not_Some in Hm.
        split_and!; try done; [by rewrite app_nil_r| |];
          intros; by destruct (has_room (send cl)).
  - (* writePump *)
    injection Hstep as <-.
    destruct (writePump_recv_heap c0 w c cl Hc) as (cl' & Hcl' & Hs & Hu & _).
    destruct (writePump_recv_fields c0 w) as (Hcs & _ & _).
    exists cl'. rewrite Hcs. split_and!; try done. by rewrite app_nil_r.
Qed.

(** *** Counting closes *)

Lemma closes_app c (tr1 tr2 : list Action) :
  closes c (tr1 ++ tr2) = (closes c tr1 + closes c tr2)%nat.
Proof. unfold closes. by rewrite filter_app, length_app. Qed.

Lemma closes_cons c a (tr : list Action) :
  closes c (a :: tr) =
    ((if decide (a = ActClose c) then 1 else 0) + closes c tr)%nat.
Proof. unfold closes. rewrite filter_cons. by case_decide. Qed.

Lemma closes_nil c : closes c [] = 0%nat.
Proof. done. Qed.

Lemma closes_sends c c0 (ms : list ChatMessage) :
  closes c (ActSend c0 <$> ms) = 0%nat.
Proof.
  induction ms as [|m ms IH]; [done|].
  rewrite fmap_cons, closes_cons, IH. by rewrite decide_False.
Qed.

Lemma closes_delivery_actions c m c0 cl :
  closes c (delivery_actions m c0 cl) =
    if decide (c = c0) then (if has_room (send cl) then 0%nat else 1%nat)
    else 0%nat.
Proof.
  unfold delivery_actions. destruct (has_room (send cl)).
  - rewrite closes_cons, closes_nil, decide_False by done.
    by destruct (decide (c = c0)).
  - rewrite !closes_cons, closes_nil.
    rewrite (decide_False (P := ActDelete c0 = ActClose c)) by done.
    destruct (decide (c = c0)) as [->|Hne].
    + by rewrite decide_True.
    + rewrite decide_False; [done|]. by intros [= ->].
Qed.

Lemma closes_fanout c m w (cs : list ptr) :
  NoDup cs →
  closes c (cs ≫= λ c', from_option (delivery_actions m c') [] (heap w !! c')) =
    if decide (c ∈ cs) then (if full_at w c then 1%nat else 0%nat) else 0%nat.
Proof.
  induction cs as [|c0 cs IH]; intros Hnd; [done|].
  apply NoDup_cons in Hnd as [Hc0 Hnd].
  rewrite bind_cons, closes_app, IH by done.
  destruct (decide (c = c0)) as [->|Hne].
  - rewrite (decide_False (P := c0 ∈ cs)) by done.
    rewrite decide_True by left. unfold full_at.
    destruct (heap w !! c0) as [cl|]; simpl; [|done].
    rewrite closes_delivery_actions, decide_True by done.
    by destruct (has_room (send cl)).
  - assert (closes c (from_option (delivery_actions m c0) [] (heap w !! c0)) = 0%nat)
      as ->.
    { destruct (heap w !! c0) as [cl|]; simpl; [|done].
      by rewrite closes_delivery_actions, decide_False. }
    destruct (decide (c ∈ cs));
      [rewrite decide_True by (by right)
      |rewrite decide_False by (by apply not_elem_of_cons)]; done.
Qed.

(** *** The invariant *)

Lemma fresh_heap_None w : heap w !! fresh (dom (heap w)) = None.
Proof. apply not_elem_of_dom, is_fresh. Qed.

Lemma hub_inv_NewHub (s : Store) : hub_inv (NewHub s).
Proof.
  split.
  - intros c [b Hb]. simpl in Hb. by rewrite lookup_empty in Hb.
  - intros c. simpl. by rewrite lookup_empty.
Qed.

Lemma send_all_no_panic c ms : ∀ w cl,
  heap w !! c = Some cl → closed (send cl) = false →
  ¬ is_Panic (send_all c ms w).
Proof.
  induction ms as [|m ms IH]; intros w cl Hc Hopen [f Hf]; simpl in Hf; [done|].
  unfold send_to, chan_send in Hf. rewrite Hc, Hopen in Hf.
  destruct (has_room (send cl)); simpl in Hf; [|done].
  eapply (IH _ (with_send cl (enqueue m (send cl)))); [| |by exists f].
  - simpl. by rewrite lookup_insert_eq.
  - done.
Qed.

Lemma step_no_panic e w : open_members w → ¬ is_Panic (step e w).
Proof.
  intros Hopen [f Hf]. destruct e as [r uid|c0|m|c0]; simpl in Hf.
  - destruct (accepted r) eqn:Hacc.
    + rewrite ServeWs_accepted in Hf by done.
      unfold on_register in Hf. simpl in Hf.
      destruct (GetMessages (chatUC w) 100 0) as [s' [ms [e|]]]; [done|].
      eapply send_all_no_panic; [| |by exists f].
      * simpl. by rewrite lookup_insert_eq.
      * done.
    + by rewrite ServeWs_rejected in Hf.
  - destruct (clients w !! c0) as [b|] eqn:Hb.
    + destruct (Hopen c0) as (cl & Hcl & Hop); [by exists b|].
      by rewrite (on_unregister_member c0 w b cl) in Hf.
    + by rewrite on_unregister_nonmember in Hf.
  - destruct (SaveMessage (chatUC w) m) as [s' [err|]] eqn:Hsave.
    + by rewrite (on_broadcast_failed m w s' err) in Hf.
    + destruct (on_broadcast_saved m w s' Hsave Hopen) as (w1 & Hrun & _).
      by rewrite Hrun in Hf.
  - done.
Qed.

Lemma step_inv e w w' : hub_inv w → step e w = Done w' → hub_inv w'.
Proof.
  intros [Hopen Hledger] Hstep. destruct e as [r uid|c0|m|c0]; simpl in Hstep.
  - (* ServeWs *)
    destruct (accepted r) eqn:Hacc;
      [|rewrite ServeWs_rejected in Hstep by done; by injection Hstep as <-].
    rewrite ServeWs_accepted in Hstep by done.
    set (c0 := fresh (dom (heap w))) in *.
    apply on_register_Done in Hstep as (Hcs & _ & Ho & Hc0 & Htr).
    simpl in Hcs, Ho, Hc0. cbn [trace set_client] in Htr.
    rewrite lookup_insert_eq in Hc0. simpl in Hc0.
    split.
    + intros c Hc. rewrite Hcs in Hc. destruct (decide (c = c0)) as [->|Hne].
      * eexists. by split.
      * rewrite lookup_insert_ne in Hc by done. rewrite Ho by done.
        rewrite lookup_insert_ne by done. by apply Hopen.
    + intros c. rewrite Htr, !closes_app, closes_sends.
      rewrite !closes_cons, closes_nil.
      rewrite !(decide_False (P := _ = ActClose c)) by done.
      rewrite Hledger. destruct (decide (c = c0)) as [->|Hne].
      * rewrite Hc0. simpl. unfold c0. by rewrite fresh_heap_None.
      * rewrite Ho, lookup_insert_ne by done. lia.
  - (* unregister *)
    apply on_unregister_Done in Hstep
      as [[Hnm ->]|(b & cl0 & Hb & Hcl0 & Hop & ->)]; [done|].
    split.
    + intros c Hc. simpl in *. destruct (decide (c = c0)) as [->|Hne].
      * rewrite lookup_delete_eq in Hc. by destruct Hc.
      * rewrite lookup_delete_ne in Hc by done.
        rewrite lookup_insert_ne by done. by apply Hopen.
    + intros c. simpl. rewrite closes_app, !closes_cons, closes_nil.
      rewrite (decide_False (P := ActDelete c0 = ActClose c)) by done.
      rewrite Hledger. destruct (decide (c = c0)) as [->|Hne].
      * rewrite lookup_insert_eq, Hcl0, Hop, decide_True by done. done.
      * rewrite lookup_insert_ne by done.
        rewrite decide_False; [lia|]. by intros [= ->].
  - (* broadcast *)
    destruct (SaveMessage (chatUC w) m) as [s' [err|]] eqn:Hsave.
    + rewrite (on_broadcast_failed m w s' err) in Hstep by done.
      injection Hstep as <-. split; [done|].
      intros c. simpl. rewrite closes_app, !closes_cons, closes_nil.
      rewrite !(decide_False (P := _ = ActClose c)) by done.
      rewrite Hledger. lia.
    + destruct (on_broadcast_saved m w s' Hsave Hopen)
        as (w1 & Hrun & _ & Hh & Hcs & Htr).
      rewrite Hrun in Hstep. injection Hstep as ->.
      split.
      * intros c Hc. rewrite Hcs in Hc. unfold full_at in Hc.
        destruct (Hopen c) as (cl & Hcl & Hop).
        { destruct (heap w !! c) as [cl|]; [|done].
          by destruct (negb (has_room (send cl))); [destruct Hc|]. }
        rewrite Hcl in Hc. rewrite Hh, Hcl.
        destruct (has_room (send cl)) eqn:Hroom; simpl in Hc; [|by destruct Hc].
        rewrite decide_True by done. simpl. eexists. split; [done|].
        unfold after_delivery. by rewrite Hroom.
      * intros c. rewrite Htr, closes_app, closes_cons.
        rewrite (decide_False (P := ActSave m None = ActClose c)) by done.
        rewrite closes_fanout by apply NoDup_range_keys.
        rewrite Hledger, Hh. unfold full_at.
        destruct (decide (c ∈ range_keys (clients w))) as [Hin|Hin].
        -- apply elem_of_range_keys in Hin. rewrite decide_True by done.
           destruct (Hopen c Hin) as (cl & Hcl & Hop). rewrite Hcl. simpl.
           rewrite Hop. unfold after_delivery.
           destruct (has_room (send cl)); simpl; [by rewrite Hop|done].
        -- rewrite elem_of_range_keys in Hin. rewrite decide_False by done. lia.
  - (* writePump *)
    injection Hstep as <-.
    destruct (writePump_recv_fields c0 w) as (Hcs & _ & Htr).
    split.
    + intros c Hc. rewrite Hcs in Hc.
      destruct (Hopen c Hc) as (cl & Hcl & Hop).
      destruct (writePump_recv_heap c0 w c cl Hcl) as (cl' & Hcl' & _ & _ & Hcd & _).
      exists cl'. split; [done|]. by rewrite Hcd.
    + intros c. rewrite Htr, Hledger.
      destruct (heap w !! c) as [cl|] eqn:Hcl.
      * destruct (writePump_recv_heap c0 w c cl Hcl)
          as (cl' & Hcl' & _ & _ & Hcd & _).
        by rewrite Hcl', Hcd.
      * assert (heap (writePump_recv c0 w) !! c = None) as ->; [|done].
        unfold writePump_recv, chan_recv.
        destruct (heap w !! c0) as [cl0|] eqn:Hc0; [|done].
        destruct (buf (send cl0)); [done|]. simpl.
        rewrite lookup_insert_ne; [done|]. intros ->. congruence.
Qed.

Lemma openb_true w c :
  openb w c = true ↔ ∃ cl, heap w !! c = Some cl ∧ closed (send cl) = false.
Proof.
  unfold openb. split.
  - destruct (heap w !! c) as [cl|]; [|done]. intros Hc. exists cl.
    split; [done|]. by destruct (closed (send cl)).
  - intros (cl & -> & ->). done.
Qed.

Lemma open_membersb_sound w : open_membersb w = true → open_members w.
Proof.
  unfold open_membersb. rewrite forallb_forall. intros Hall c Hc.
  by apply openb_true, Hall, list_elem_of_In, elem_of_range_keys.
Qed.

Lemma forallb_false_elem {A} (f : A → bool) (l : list A) :
  forallb f l = false → ∃ x, x ∈ l ∧ f x = false.
Proof.
  induction l as [|x l IH]; simpl; [done|].
  destruct (f x) eqn:Hx; simpl.
  - intros (y & Hy & Hfy)%IH. exists y. split; [by right|done].
  - intros _. exists x. split; [by left|done].
Qed.

(** *** The order of [range] does not matter

    Go leaves the order in which [range h.clients] yields the keys
    open. Whatever the order, the fan-out ends in the same membership
    set, heap and store, with the same actions in another order, or it
    panics in every order. *)
Lemma fanout_order m cs cs' w :
  NoDup cs → cs ≡ₚ cs' →
  match fanout m cs w, fanout m cs' w with
  | Done w1, Done w2 =>
      clients w1 = clients w2 ∧ chatUC w1 = chatUC w2 ∧
      heap w1 = heap w2 ∧ trace w1 ≡ₚ trace w2
  | Panic _, Panic _ => True
  | _, _ => False
  end.
Proof.
  intros Hnd Hperm.
  assert (Hnd' : NoDup cs') by (by rewrite <-Hperm).
  assert (Hin : ∀ c, c ∈ cs ↔ c ∈ cs') by (intros c; by rewrite Hperm).
  destruct (forallb (openb w) cs) eqn:Hall.
  - rewrite forallb_forall in Hall.
    assert (Hopen : ∀ c, c ∈ cs →
                    ∃ cl, heap w !! c = Some cl ∧ closed (send cl) = false).
    { intros c Hc. by apply openb_true, Hall, list_elem_of_In. }
    destruct (fanout_spec m cs w Hnd Hopen) as (w1 & -> & Hs1 & Hh1 & Hc1 & Ht1).
    destruct (fanout_spec m cs' w Hnd') as (w2 & -> & Hs2 & Hh2 & Hc2 & Ht2).
    { intros c Hc. by apply Hopen, Hin. }
    split_and!.
    + apply map_eq. intros c. rewrite Hc1, Hc2.
      destruct (decide (c ∈ cs)) as [Hc|Hc];
        [rewrite decide_True by (by apply Hin)
        |rewrite decide_False by (by rewrite <-Hin)]; done.
    + congruence.
    + apply map_eq. intros c. rewrite Hh1, Hh2.
      destruct (decide (c ∈ cs)) as [Hc|Hc];
        [rewrite decide_True by (by apply Hin)
        |rewrite decide_False by (by rewrite <-Hin)]; done.
    + rewrite Ht1, Ht2. by rewrite Hperm.
  - assert (Hbad : ∃ c, c ∈ cs ∧ openb w c = false).
    { by apply forallb_false_elem. }
    destruct Hbad as (c & Hc & Hclosed).
    assert (Hnot : ∀ ks w', NoDup ks → c ∈ ks → fanout m ks w ≠ Done w').
    { intros ks w' Hks Hcks Hrun.
      pose proof (fanout_Done_open m ks w w' Hks Hrun c Hcks) as Ho.
      apply openb_true in Ho. congruence. }
    pose proof (fanout_never_blocks m cs w) as Hb1.
    pose proof (fanout_never_blocks m cs' w) as Hb2.
    destruct (fanout m cs w) as [w1| |] eqn:H1.
    + by destruct (Hnot cs w1 Hnd Hc).
    + destruct (fanout m cs' w) as [w2| |] eqn:H2; [|done|done].
      destruct (Hnot cs' w2 Hnd'); [by apply Hin|done].
    + done.
Qed.

(** ** The hub: runs *)

Lemma run_inv es : ∀ w w', hub_inv w → run es w = Done w' → hub_inv w'.
Proof.
  induction es as [|e es IH]; intros w w' Hinv Hrun; simpl in Hrun.
  - by injection Hrun as <-.
  - destruct (step e w) as [w1| |] eqn:Hstep; simpl in Hrun; try done.
    eapply IH; [|done]. by eapply step_inv.
Qed.

Lemma run_no_panic es : ∀ w, hub_inv w → ¬ is_Panic (run es w).
Proof.
  induction es as [|e es IH]; intros w Hinv [f Hf]; simpl in Hf; [done|].
  destruct (step e w) as [w1|f0|] eqn:Hstep; simpl in Hf; try done.
  - eapply IH; [by eapply step_inv|by exists f].
  - eapply step_no_panic; [apply Hinv|]. by exists f0.
Qed.

Lemma stream_lookup w c cl : heap w !! c = Some cl → stream w c = mailbox_stream cl.
Proof. unfold stream. by intros ->. Qed.

Lemma gain_nonmember e w c : clients w !! c = None → gain e w c = [].
Proof.
  intros Hc. destruct e; simpl; try done.
  destruct (SaveMessage (chatUC w) m).2; [done|].
  rewrite decide_False; [done|]. rewrite Hc. by intros [? ?].
Qed.

(** A client that exists and is no member stays out and gets nothing. *)
Lemma run_nonmember es : ∀ w w' c cl,
  heap w !! c = Some cl → clients w !! c = None → run es w = Done w' →
  clients w' !! c = None ∧ stream w' c = stream w c ∧ is_Some (heap w' !! c).
Proof.
  induction es as [|e es IH]; intros w w' c cl Hc Hnm Hrun; simpl in Hrun.
  - injection Hrun as <-. by split_and!.
  - destruct (step e w) as [w1| |] eqn:Hstep; simpl in Hrun; try done.
    destruct (step_client e w w1 c cl Hstep Hc) as (cl1 & Hcl1 & Hs & _ & Hnm1 & _).
    destruct (IH w1 w' c cl1 Hcl1 (Hnm1 Hnm) Hrun) as (Hnm' & Hs' & Hex).
    split_and!; try done.
    rewrite Hs', (stream_lookup w1 c cl1), (stream_lookup w c cl) by done.
    by rewrite Hs, gain_nonmember, app_nil_r.
Qed.

(** A closed mailbox stays closed: nothing reopens a channel. *)
Lemma step_stays_closed e w w' c cl :
  step e w = Done w' → heap w !! c = Some cl → closed (send cl) = true →
  ∃ cl', heap w' !! c = Some cl' ∧ closed (send cl') = true.
Proof.
  intros Hstep Hc Hclosed.
  destruct (step_client e w w' c cl Hstep Hc) as (cl' & Hcl' & _).
  exists cl'. split; [done|].
  destruct e as [r uid|c0|m|c0]; simpl in Hstep.
  - destruct (accepted r) eqn:Hacc.
    + rewrite ServeWs_accepted in Hstep by done.
      apply on_register_Done in Hstep as (_ & _ & Ho & _ & _).
      pose proof (fresh_heap w c cl Hc) as Hfr. simpl in Ho.
      rewrite Ho, lookup_insert_ne in Hcl' by done. congruence.
    + rewrite ServeWs_rejected in Hstep by done. injection Hstep as <-.
      congruence.
  - apply on_unregister_Done in Hstep
      as [[_ ->]|(b & cl0 & _ & Hcl0 & _ & ->)]; [congruence|].
    simpl in Hcl'. destruct (decide (c = c0)) as [->|Hne'].
    + rewrite lookup_insert_eq in Hcl'. by injection Hcl' as <-.
    + rewrite lookup_insert_ne in Hcl' by done. congruence.
  - destruct (SaveMessage (chatUC w) m) as [s' [err|]] eqn:Hsave.
    + rewrite (on_broadcast_failed m w s' err) in Hstep by done.
      injection Hstep as <-. simpl in Hcl'. congruence.
    + assert (Hopen : open_members w).
      { intros c1 Hc1. eapply on_broadcast_Done_open; [done| |done].
        by rewrite Hsave. }
      destruct (on_broadcast_saved m w s' Hsave Hopen)
        as (w1 & Hrun & _ & Hh & _).
      rewrite Hrun in Hstep. injection Hstep as ->.
      rewrite Hh, Hc in Hcl'.
      destruct (decide (is_Some (clients w !! c))); simpl in Hcl';
        injection Hcl' as <-; [|done].
      unfold after_delivery. by destruct (has_room (send cl)).
  - injection Hstep as <-.
    destruct (writePump_recv_heap c0 w c cl Hc)
      as (cl1 & Hcl1 & _ & _ & Hsame & _).
    assert (cl1 = cl') as -> by congruence. congruence.
Qed.

Lemma run_stays_closed es : ∀ w w' c cl,
  run es w = Done w' → heap w !! c = Some cl → closed (send cl) = true →
  ∃ cl', heap w' !! c = Some cl' ∧ closed (send cl') = true.
Proof.
  induction es as [|e es IH]; intros w w' c cl Hrun Hc Hclosed;
    simpl in Hrun.
  - injection Hrun as <-. by exists cl.
  - destruct (step e w) as [w1| |] eqn:Hstep; simpl in Hrun; try done.
    destruct (step_stays_closed e w w1 c cl Hstep Hc Hclosed)
      as (cl1 & Hcl1 & Hclosed1).
    by apply (IH w1 w' c cl1).
Qed.

Lemma Hub_step_broadcast_never_blocks m w : Hub_step (Broadcast m) w ≠ Blocked.
Proof.
  simpl. unfold on_broadcast.
  destruct (SaveMessage (chatUC w) m) as [s' [err|]]; [done|].
  apply fanout_never_blocks.
Qed.

Lemma run_app es1 es2 w :
  run (es1 ++ es2) w = w1 ← run es1 w; run es2 w1.
Proof.
  revert w. induction es1 as [|e es1 IH]; intros w; simpl; [done|].
  destruct (step e w) as [w1| |]; simpl; [apply IH|done|done].
Qed.

Lemma gain_cases e w c :
  gain e w c = [] ∨
  (∃ m, gain e w c = [m] ∧ saved e w = [m] ∧ is_Some (clients w !! c)).
Proof.
  destruct e as [r uid|c0|m|c0]; simpl; try by left.
  destruct (SaveMessage (chatUC w) m).2; [by left|].
  destruct (decide (is_Some (clients w !! c))); [|by left].
  destruct (full_at w c); [by left|]. right. by exists m.
Qed.

Lemma gain_nil_saved_nil e w c : saved e w = [] → gain e w c = [].
Proof.
  destruct e as [r uid|c0|m|c0]; simpl; try done.
  by destruct (SaveMessage (chatUC w) m).2.
Qed.

(** From any world on, what an existing client receives is an initial
    part of the messages that reach the fan-out, in their order. *)
Lemma run_gains es : ∀ w w' c cl,
  heap w !! c = Some cl → run es w = Done w' →
  ∃ k, stream w' c = stream w c ++ take k (persisted es w) ∧
       (clients w !! c = None → k = 0%nat) ∧
       (is_Some (clients w' !! c) → k = length (persisted es w)).
Proof.
  induction es as [|e es IH]; intros w w' c cl Hc Hrun; simpl in Hrun.
  - injection Hrun as <-. exists 0%nat. by rewrite app_nil_r.
  - simpl. destruct (step e w) as [w1| |] eqn:Hstep; simpl in Hrun; try done.
    destruct (step_client e w w1 c cl Hstep Hc)
      as (cl1 & Hcl1 & Hs & _ & Hnm1 & Hout).
    destruct (IH w1 w' c cl1 Hcl1 Hrun) as (k1 & Hk1 & Hzero & Hall).
    rewrite (stream_lookup w1 c cl1), Hs in Hk1 by done.
    rewrite (stream_lookup w c cl) by done.
    destruct (gain_cases e w c) as [Hg|(m & Hg & Hsv & Hmem)].
    + rewrite Hg, app_nil_r in Hk1.
      destruct (saved e w) as [|m ms] eqn:Hsv.
      * exists k1. split_and!; [done| |done].
        intros Hnm. by apply Hzero, Hnm1.
      * exists 0%nat.
        assert (clients w1 !! c = None) as Hnm by (by apply Hout).
        split_and!; [|done|].
        -- rewrite Hzero in Hk1 by done. simpl in *. by rewrite Hk1.
        -- intros [b Hb].
           destruct (run_nonmember es w1 w' c cl1 Hcl1 Hnm Hrun) as (Hnm' & _).
           congruence.
    + exists (S k1). rewrite Hsv, Hg in *. simpl. split_and!.
      * by rewrite Hk1, <-app_assoc.
      * intros Hnm. rewrite Hnm in Hmem. by destruct Hmem.
      * intros Hm. by rewrite Hall.
Qed.


Lemma before_take x y k (l : list ChatMessage) :
  before x y (take k l) → before x y l.
Proof.
  intros (i & j & Hij & Hi & Hj). exists i, j.
  apply lookup_take_Some in Hi as [Hi _], Hj as [Hj _]. done.
Qed.

Lemma before_NoDup x y (l : list ChatMessage) :
  NoDup l → before x y l → ¬ before y x l.
Proof.
  intros Hnd (i & j & Hij & Hi & Hj) (i' & j' & Hij' & Hi' & Hj').
  pose proof (NoDup_lookup _ _ _ _ Hnd Hi Hj').
  pose proof (NoDup_lookup _ _ _ _ Hnd Hj Hi'). lia.
Qed.

Lemma same_relative_order_take k1 k2 (l : list ChatMessage) :
  NoDup l → same_relative_order (take k1 l) (take k2 l).
Proof.
  intros Hnd x y Hxy Hyx. apply before_take in Hxy, Hyx.
  by eapply before_NoDup.
Qed.

(** ** The broadcast branch: claims *)

Lemma step_trace_app w w' tr : trace w' = trace w ++ tr → step_trace w w' = tr.
Proof. unfold step_trace. intros ->. by rewrite drop_app_length. Qed.

Lemma elem_of_delivery_actions a m c cl :
  a ∈ delivery_actions m c cl →
  a = ActSend c m ∨ a = ActClose c ∨ a = ActDelete c.
Proof.
  unfold delivery_actions. destruct (has_room (send cl)).
  - rewrite list_elem_of_singleton. by left.
  - rewrite !elem_of_cons, elem_of_nil. intros [?|[?|?]]; [by right; left|by right; right|done].
Qed.

Lemma delivery_attempted_members m w c :
  open_members w →
  is_Some (clients w !! c) ↔
  delivery_attempted c m
    (range_keys (clients w) ≫=
       λ c', from_option (delivery_actions m c') [] (heap w !! c')).
Proof.
  intros Hopen. unfold delivery_attempted. rewrite !list_elem_of_bind. split.
  - intros Hc. destruct (Hopen c Hc) as (cl & Hcl & _).
    destruct (has_room (send cl)) eqn:Hroom; [left|right];
      exists c; (split; [|by apply elem_of_range_keys]);
      rewrite Hcl; simpl; unfold delivery_actions; rewrite Hroom;
      by left.
  - intros [(c' & Hin & Hc')|(c' & Hin & Hc')];
      apply elem_of_range_keys in Hc';
      (destruct (heap w !! c') as [cl'|]; simpl in Hin;
        [|by apply elem_of_nil in Hin]);
      apply elem_of_delivery_actions in Hin as [Hin|[Hin|Hin]];
      by simplify_eq.
Qed.

Lemma on_broadcast_saved_members m w :
  (SaveMessage (chatUC w) m).2 = None → open_members w →
  ∃ w', Hub_step (Broadcast m) w = Done w' ∧
    (∀ c cl, is_Some (clients w !! c) → heap w !! c = Some cl →
       if has_room (send cl)
       then heap w' !! c = Some (with_send cl (enqueue m (send cl))) ∧
            clients w' !! c = clients w !! c ∧
            ∃ cl', heap w' !! c = Some cl' ∧
              buf (send cl') = buf (send cl) ++ [m] ∧
              closed (send cl') = false ∧
              stream w' c = stream w c ++ [m]
       else heap w' !! c = Some (with_send cl (mark_closed (send cl))) ∧
            clients w' !! c = None ∧
            ∃ cl', heap w' !! c = Some cl' ∧
              buf (send cl') = buf (send cl) ∧
              closed (send cl') = true ∧
              stream w' c = stream w c) ∧
    (∀ c, clients w !! c = None →
       heap w' !! c = heap w !! c ∧ clients w' !! c = None).
Proof.
  intros Hok Hopen.
  destruct (SaveMessage (chatUC w) m) as [s' e] eqn:Hsave. simpl in Hok.
  subst e. simpl.
  destruct (on_broadcast_saved m w s' Hsave Hopen)
    as (w' & Hrun & _ & Hh & Hcs & _).
  exists w'. split_and!; [done| |].
  - intros c cl Hc Hcl.
    destruct (Hopen c Hc) as (cl0 & Hcl0 & Hop).
    assert (cl0 = cl) as -> by congruence.
    assert (Hnew : heap w' !! c = Some (after_delivery m cl)).
    { by rewrite Hh, Hcl, decide_True. }
    rewrite Hcs. unfold full_at, stream. rewrite Hnew, Hcl.
    unfold after_delivery, mailbox_stream.
    destruct (has_room (send cl)); simpl.
    + split_and!; try done. eexists. split; [done|]. simpl.
      split_and!; try done. by rewrite app_assoc.
    + split_and!; try done. eexists. split; [done|]. by simpl.
  - intros c Hc. rewrite Hh, Hcs, Hc.
    rewrite decide_False by (by intros [? ?]).
    by destruct (full_at w c).
Qed.

(** C1, amended. In a world whose members have open mailboxes, the
    broadcast branch of the hub first calls [SaveMessage]; when the call
    returns no error the hub then tries to deliver the message to
    exactly the connections that are members at that moment; when it
    returns an error the hub logs, delivers to nobody and leaves
    membership and mailboxes as they were. *)
Theorem broadcast_saves_then_fans_out m w :
  open_members w →
  ∃ w' tr,
    Hub_step (Broadcast m) w = Done w' ∧
    chatUC w' = (SaveMessage (chatUC w) m).1 ∧
    step_trace w w' = ActSave m (SaveMessage (chatUC w) m).2 :: tr ∧
    match (SaveMessage (chatUC w) m).2 with
    | None => ∀ c, is_Some (clients w !! c) ↔ delivery_attempted c m tr
    | Some _ =>
        tr = [ActLog] ∧ clients w' = clients w ∧ heap w' = heap w ∧
        ∀ c, ¬ delivery_attempted c m tr
    end.
Proof.
  intros Hopen. simpl.
  destruct (SaveMessage (chatUC w) m) as [s' [err|]] eqn:Hsave; simpl.
  - rewrite (on_broadcast_failed m w s' err Hsave).
    eexists _, [ActLog]. split_and!; try done; [by apply step_trace_app|].
    intros c [Hc|Hc]; apply list_elem_of_singleton in Hc; done.
  - destruct (on_broadcast_saved m w s' Hsave Hopen)
      as (w' & Hrun & Hs & _ & _ & Htr).
    exists w'. eexists. split_and!; [done|done|by apply step_trace_app|].
    intros c. by apply delivery_attempted_members.
Qed.

(** C2. A broadcast whose [SaveMessage] returns an error puts the
    message on no mailbox: heap and membership stay as they are and the
    step sends nothing. A broadcast whose [SaveMessage] succeeds, in a
    world whose members have open mailboxes, enqueues the message for
    every member whose mailbox has a free slot: the message is the new
    last element of the mailbox, which stays open, and of the stream of
    the member. It removes the members whose mailbox is full, whose
    mailbox is then closed and holds what it held, and touches no one
    else. *)
Theorem failed_save_drops_saved_reaches_members m w :
  (∀ err, (SaveMessage (chatUC w) m).2 = Some err →
     ∃ w', Hub_step (Broadcast m) w = Done w' ∧
       heap w' = heap w ∧ clients w' = clients w ∧
       ∀ c m', ActSend c m' ∉ step_trace w w') ∧
  ((SaveMessage (chatUC w) m).2 = None → open_members w →
     ∃ w', Hub_step (Broadcast m) w = Done w' ∧
       (∀ c cl, is_Some (clients w !! c) → heap w !! c = Some cl →
          if has_room (send cl)
          then heap w' !! c = Some (with_send cl (enqueue m (send cl))) ∧
               clients w' !! c = clients w !! c ∧
               ∃ cl', heap w' !! c = Some cl' ∧
                 buf (send cl') = buf (send cl) ++ [m] ∧
                 closed (send cl') = false ∧
                 stream w' c = stream w c ++ [m]
          else heap w' !! c = Some (with_send cl (mark_closed (send cl))) ∧
               clients w' !! c = None ∧
               ∃ cl', heap w' !! c = Some cl' ∧
                 buf (send cl') = buf (send cl) ∧
                 closed (send cl') = true ∧
                 stream w' c = stream w c) ∧
       (∀ c, clients w !! c = None →
          heap w' !! c = heap w !! c ∧ clients w' !! c = None)).
Proof.
  split.
  - intros err Herr.
    destruct (SaveMessage (chatUC w) m) as [s' e] eqn:Hsave. simpl in Herr.
    subst e. simpl. rewrite (on_broadcast_failed m w s' err Hsave).
    eexists. split_and!; try done.
    intros c m'. erewrite step_trace_app; [|done].
    rewrite !elem_of_cons, elem_of_nil. by intros [?|[?|?]].
  - apply on_broadcast_saved_members.
Qed.

(** C3. The fan-out of a broadcast never parks the hub. A member whose
    mailbox is full when a saved message is fanned out is removed from
    the membership set and its mailbox is closed within that step: the
    closed flag of the mailbox is set and its content is as before;
    from then on, whatever happens, it stays out, its mailbox stays
    closed and receives nothing more, and no later broadcast parks the
    hub. *)
Theorem slow_consumer_is_dropped m w c cl :
  open_members w → (SaveMessage (chatUC w) m).2 = None →
  is_Some (clients w !! c) → heap w !! c = Some cl →
  has_room (send cl) = false →
  ∃ w', Hub_step (Broadcast m) w = Done w' ∧
    clients w' !! c = None ∧
    heap w' !! c = Some (with_send cl (mark_closed (send cl))) ∧
    (∃ cl', heap w' !! c = Some cl' ∧
       closed (send cl') = true ∧ buf (send cl') = buf (send cl)) ∧
    stream w' c = stream w c ∧
    ∀ es w'', run es w' = Done w'' →
      clients w'' !! c = None ∧ stream w'' c = stream w' c ∧
      (∃ cl'', heap w'' !! c = Some cl'' ∧ closed (send cl'') = true) ∧
      ∀ m', Hub_step (Broadcast m') w'' ≠ Blocked.
Proof.
  intros Hopen Hok Hc Hcl Hfull.
  destruct (on_broadcast_saved_members m w Hok Hopen)
    as (w' & Hrun & Hmem & _).
  specialize (Hmem c cl Hc Hcl). rewrite Hfull in Hmem.
  destruct Hmem as (Hh & Hcs & cl' & Hcl' & Hbuf & Hclosed & Hstream).
  exists w'. split_and!; try done.
  - by exists cl'.
  - intros es w'' Hes.
    destruct (run_nonmember es w' w'' c _ Hh Hcs Hes) as (? & ? & _).
    split_and!; try done; [|intros m'; apply Hub_step_broadcast_never_blocks].
    by apply (run_stays_closed es w' w'' c cl').
Qed.

Lemma run_as_Hub_Run es : ∀ w,
  Forall (λ e, is_Some (hub_event e)) es →
  run es w = Hub_Run (omap hub_event es) w.
Proof.
  induction es as [|e es IH]; intros w Hall; simpl; [done|].
  apply Forall_cons in Hall as [[he He] Hall].
  destruct e as [r uid|c0|m|c0]; simpl in *; try done.
  - destruct (on_unregister c0 w); simpl; [by apply IH|done|done].
  - destruct (on_broadcast m w); simpl; [by apply IH|done|done].
Qed.

(** *** The history sends beside a running write pump

    A turn of the hub is taken in one piece above. For the history
    sends this loses nothing: the write pump of the new client, running
    between the sends, only takes messages off the mailbox. *)

Lemma send_all_no_drains c ms : ∀ w,
  send_all_draining c ms [] w = send_all c ms w.
Proof.
  induction ms as [|m ms IH]; intros w; simpl; [done|].
  destruct (send_to c m w); simpl; [apply IH|done|done].
Qed.

Lemma writePump_recv_iter n c w cl :
  heap w !! c = Some cl →
  ∃ cl', heap (Nat.iter n (writePump_recv c) w) !! c = Some cl' ∧
    mailbox_stream cl' = mailbox_stream cl ∧
    closed (send cl') = closed (send cl) ∧ cap (send cl') = cap (send cl) ∧
    (length (buf (send cl')) ≤ length (buf (send cl)))%nat.
Proof.
  intros Hc. induction n as [|n (cl1 & Hcl1 & Hs & Hcd & Hcap & Hlen)].
  - by exists cl.
  - simpl.
    destruct (writePump_recv_heap c _ c cl1 Hcl1)
      as (cl2 & Hcl2 & Hs2 & _ & Hcd2 & Hcap2 & Hlen2).
    exists cl2. split_and!; [done|congruence..|lia].
Qed.

Lemma history_sends_tolerate_draining c ms : ∀ drains w cl,
  heap w !! c = Some cl → closed (send cl) = false →
  (length (buf (send cl)) + length ms ≤ cap (send cl))%nat →
  ∃ w' cl', send_all_draining c ms drains w = Done w' ∧
    heap w' !! c = Some cl' ∧
    mailbox_stream cl' = mailbox_stream cl ++ ms ∧
    (length (buf (send cl')) ≤ length (buf (send cl)) + length ms)%nat.
Proof.
  induction ms as [|m ms IH]; intros drains w cl Hc Hopen Hlen; simpl.
  - exists w, cl. split_and!; try done; [by rewrite app_nil_r|lia].
  - simpl in Hlen.
    destruct (writePump_recv_iter (hd 0%nat drains) c w cl Hc)
      as (cl1 & Hcl1 & Hs1 & Hcd1 & Hcap1 & Hlen1).
    rewrite (send_to_room c m _ cl1) by (done || congruence || lia). simpl.
    destruct (IH (tl drains) (emit (ActSend c m)
                (set_client c (with_send cl1 (enqueue m (send cl1)))
                   (Nat.iter (hd 0%nat drains) (writePump_recv c) w)))
                (with_send cl1 (enqueue m (send cl1))))
      as (w' & cl' & Hrun & Hcl' & Hs' & Hlen').
    { simpl. by rewrite lookup_insert_eq. }
    { simpl. congruence. }
    { simpl. rewrite length_app. simpl. lia. }
    exists w', cl'. split_and!; [done|done| |].
    + rewrite Hs'. unfold mailbox_stream in *. simpl.
      rewrite app_assoc, Hs1. by rewrite <-!app_assoc.
    + simpl in Hlen'. rewrite length_app in Hlen'. simpl in Hlen'. lia.
Qed.

(** ** Unregistering and closing: claims *)

(** C6. An unregister event for a connection that is no member leaves
    the world as it is and ends without a panic; after any unregister
    event that ended, the connection is no member and a second one
    changes nothing; an unregister event for a member removes it and
    closes its mailbox in that one step: the mailbox was open, its
    closed flag is set afterwards, and it holds what it held. *)
Theorem unregister_is_idempotent c w :
  (clients w !! c = None → Hub_step (Unregister c) w = Done w) ∧
  (∀ w', Hub_step (Unregister c) w = Done w' →
     clients w' !! c = None ∧ Hub_step (Unregister c) w' = Done w') ∧
  (open_members w → is_Some (clients w !! c) →
     ∃ cl w', heap w !! c = Some cl ∧
       Hub_step (Unregister c) w = Done w' ∧
       clients w' = delete c (clients w) ∧
       heap w' = <[c := with_send cl (mark_closed (send cl))]> (heap w) ∧
       (closed (send cl) = false ∧
        ∃ cl', heap w' !! c = Some cl' ∧
          closed (send cl') = true ∧ buf (send cl') = buf (send cl)) ∧
       chatUC w' = chatUC w ∧
       step_trace w w' = [ActDelete c; ActClose c]).
Proof.
  split_and!.
  - apply on_unregister_nonmember.
  - intros w' Hrun. simpl in *.
    assert (clients w' !! c = None) as Hnm.
    { apply on_unregister_Done in Hrun as [[Hnm ->]|(b & cl & _ & _ & _ & ->)];
        [done|]. simpl. apply lookup_delete_eq. }
    split; [done|]. by apply on_unregister_nonmember.
  - intros Hopen [b Hb]. destruct (Hopen c) as (cl & Hcl & Hop); [by exists b|].
    exists cl. eexists. split; [done|]. simpl.
    rewrite (on_unregister_member c w b cl) by done.
    split_and!; try done; [|by apply step_trace_app].
    eexists. simpl. rewrite lookup_insert_eq. by split_and!.
Qed.

(** C9. From a world that satisfies the invariant of the hub (members
    have open mailboxes, the trace has one close for each closed mailbox
    and none for the others), no sequence of events makes the hub panic,
    so no mailbox is closed twice; whenever the events have been
    processed, the hub has closed each mailbox at most once, a closed
    mailbox belongs to no member, and an unregister event for its
    owner changes nothing. *)
Theorem mailbox_closed_at_most_once es w :
  hub_inv w →
  ¬ is_Panic (run es w) ∧
  ∀ w', run es w = Done w' →
    (∀ c, (closes c (trace w') ≤ 1)%nat) ∧
    (∀ c cl, heap w' !! c = Some cl → closed (send cl) = true →
       clients w' !! c = None ∧ Hub_step (Unregister c) w' = Done w').
Proof.
  intros Hinv. split; [by apply run_no_panic|].
  intros w' Hrun. destruct (run_inv es w w' Hinv Hrun) as [Hopen Hledger].
  split.
  - intros c. rewrite Hledger. destruct (heap w' !! c) as [cl|]; [|lia].
    destruct (closed (send cl)); lia.
  - intros c cl Hcl Hclosed.
    assert (clients w' !! c = None) as Hnm.
    { apply eq_None_not_Some. intros Hc.
      destruct (Hopen c Hc) as (cl' & Hcl' & Hop). congruence. }
    split; [done|]. by apply on_unregister_nonmember.
Qed.

(** ** Order of delivery: claims *)

Lemma step_trace_prefix e w w' : step e w = Done w' → trace w `prefix_of` trace w'.
Proof.
  intros Hstep. destruct e as [r uid|c0|m|c0]; simpl in Hstep.
  - destruct (accepted r) eqn:Hacc.
    + rewrite ServeWs_accepted in Hstep by done.
      apply on_register_Done in Hstep as (_ & _ & _ & _ & ->).
      by apply prefix_app_r.
    + rewrite ServeWs_rejected in Hstep by done. by injection Hstep as <-.
  - apply on_unregister_Done in Hstep as [[_ ->]|(b & cl & _ & _ & _ & ->)];
      [done|]. by apply prefix_app_r.
  - destruct (SaveMessage (chatUC w) m) as [s' [err|]] eqn:Hsave.
    + rewrite (on_broadcast_failed m w s' err) in Hstep by done.
      injection Hstep as <-. by apply prefix_app_r.
    + assert (Hopen : open_members w).
      { intros c1 Hc1. eapply on_broadcast_Done_open; [done| |done].
        by rewrite Hsave. }
      destruct (on_broadcast_saved m w s' Hsave Hopen)
        as (w1 & Hrun & _ & _ & _ & Htr).
      rewrite Hrun in Hstep. injection Hstep as ->. rewrite Htr.
      by apply prefix_app_r.
  - injection Hstep as <-.
    destruct (writePump_recv_fields c0 w) as (_ & _ & ->). done.
Qed.

Lemma run_trace_prefix es : ∀ w w', run es w = Done w' → trace w `prefix_of` trace w'.
Proof.
  induction es as [|e es IH]; intros w w' Hrun; simpl in Hrun.
  - by injection Hrun as <-.
  - destruct (step e w) as [w1| |] eqn:Hstep; simpl in Hrun; try done.
    etrans; [by eapply step_trace_prefix|by apply IH].
Qed.

(** C4, amended. The hub processes the events one at a time in the
    order of their arrival: a run over [es1 ++ es2] is the run over
    [es1] followed, from the world it leaves, by the run over [es2],
    and the trace only grows. For two connections that exist, what
    their mailboxes receive from then on are two initial parts of one
    sequence, the broadcast messages that were saved, in the order of
    arrival, all of it for a connection that is still a member; so,
    when these messages are distinct, no two of them come in one order
    in one mailbox and in the other order in the other.
    (History replayed at registration is outside this statement.) *)
Theorem fanout_order_is_common es w w' c1 c2 cl1 cl2 :
  heap w !! c1 = Some cl1 → heap w !! c2 = Some cl2 → run es w = Done w' →
  (∀ es1 es2, es = es1 ++ es2 →
     ∃ w1, run es1 w = Done w1 ∧ run es2 w1 = Done w' ∧
       trace w `prefix_of` trace w1 ∧ trace w1 `prefix_of` trace w') ∧
  ∃ k1 k2,
    stream w' c1 = stream w c1 ++ take k1 (persisted es w) ∧
    stream w' c2 = stream w c2 ++ take k2 (persisted es w) ∧
    (is_Some (clients w' !! c1) → k1 = length (persisted es w)) ∧
    (is_Some (clients w' !! c2) → k2 = length (persisted es w)) ∧
    (NoDup (persisted es w) →
       same_relative_order (take k1 (persisted es w)) (take k2 (persisted es w))).
Proof.
  intros Hc1 Hc2 Hrun. split.
  - intros es1 es2 ->. rewrite run_app in Hrun.
    destruct (run es1 w) as [w1| |] eqn:Hrun1; simpl in Hrun; try done.
    exists w1. split_and!; try done; by eapply run_trace_prefix.
  - destruct (run_gains es w w' c1 cl1 Hc1 Hrun) as (k1 & Hk1 & _ & Hall1).
    destruct (run_gains es w w' c2 cl2 Hc2 Hrun) as (k2 & Hk2 & _ & Hall2).
    exists k1, k2. split_and!; try done.
    apply same_relative_order_take.
Qed.

(** ** Registration *)

(** An accepted [ServeWs] whose history fits the new mailbox. *)
Lemma ServeWs_fits r uid w :
  accepted r = true → (length (replayed w) ≤ 256)%nat →
  let c := fresh (dom (heap w)) in
  ∃ w', ServeWs r uid w = Done w' ∧
    clients w' = <[c:=true]> (clients w) ∧
    chatUC w' = (GetMessages (chatUC w) 100 0).1 ∧
    heap w' !! c =
      Some {| send := {| buf := replayed w; cap := 256; closed := false |};
              userID := uid; pumped := [] |} ∧
    (∀ c', c' ≠ c → heap w' !! c' = heap w !! c') ∧
    step_trace w w' =
      [ActInsert c; ActFetch (GetMessages (chatUC w) 100 0).2.2]
        ++ (ActSend c <$> replayed w).
Proof.
  intros Hacc Hlen c. rewrite ServeWs_accepted by done. fold c.
  set (new := {| send := make_chan 256; userID := uid; pumped := [] |}).
  destruct (on_register_room c (set_client c new w) new) as [w' Hrun].
  { simpl. by rewrite lookup_insert_eq. }
  { done. }
  { simpl. exact Hlen. }
  exists w'. split; [done|].
  apply on_register_Done in Hrun as (Hcs & Hs & Ho & Hc & Htr).
  simpl in Hcs, Hs, Ho, Hc. cbn [trace set_client] in Htr.
  rewrite lookup_insert_eq in Hc. split_and!; try done.
  - intros c' Hne. rewrite Ho by done. by rewrite lookup_insert_ne.
  - by apply step_trace_app.
Qed.

End hub_facts.

(** ** The repository *)

Section repository_facts.

Import repository.
Implicit Types (r : Row) (l : list Row) (db : DB).

Lemma insert_desc_Permutation r l : insert_desc r l ≡ₚ r :: l.
Proof.
  induction l as [|x l IH]; simpl; [done|].
  destruct (row_created_at x <=? row_created_at r)%Z; [done|].
  rewrite IH. apply Permutation_swap.
Qed.

Lemma order_by_Permutation l : order_by_created_at_desc l ≡ₚ l.
Proof.
  induction l as [|x l IH]; simpl; [done|].
  by rewrite insert_desc_Permutation, IH.
Qed.

Lemma insert_desc_sorted r l :
  StronglySorted more_recent l → StronglySorted more_recent (insert_desc r l).
Proof.
  induction 1 as [|x l Hl IH Hx]; simpl.
  - repeat constructor.
  - destruct (Z.leb_spec (row_created_at x) (row_created_at r)) as [Hlt|Hge].
    + constructor; [by constructor|].
      constructor; [unfold more_recent; lia|].
      eapply Forall_impl; [exact Hx|]. unfold more_recent. intros y Hy. lia.
    + constructor; [done|].
      rewrite insert_desc_Permutation. constructor; [unfold more_recent; lia|done].
Qed.

Lemma order_by_sorted l : StronglySorted more_recent (order_by_created_at_desc l).
Proof.
  induction l as [|x l IH]; simpl; [constructor|]. by apply insert_desc_sorted.
Qed.

Lemma limit_offset_first (n : nat) {A} (l : list A) :
  limit_offset (Z.of_nat n) 0 l = take n l.
Proof.
  unfold limit_offset. simpl. rewrite Nat2Z.id.
  by destruct (Z.ltb_spec (Z.of_nat n) 0); [lia|].
Qed.

Lemma GetMessages_100 db :
  (GetMessages db 100 0).2 =
    if fails_next db then ([], Some ErrDriver)
    else (scan <$> take 100 (order_by_created_at_desc (chat_messages db)), None).
Proof.
  unfold GetMessages, query_select, fails_next.
  assert (chat_messages (next_fault db).2 = chat_messages db) as Htab.
  { unfold next_fault. by destruct (driver_faults db). }
  destruct (next_fault db) as [[|] db1]; simpl in *; [done|].
  by rewrite (limit_offset_first 100), Htab.
Qed.

Lemma usecase_GetMessages db limit offset :
  (usecase.GetMessages db limit offset).2 = (GetMessages db limit offset).2.
Proof.
  unfold usecase.GetMessages, GetMessages.
  by destruct (query_select db limit offset) as [db' [e|rows]].
Qed.

Lemma usecase_SaveMessage db msg :
  usecase.SaveMessage db msg = SaveMessage db msg.
Proof.
  unfold usecase.SaveMessage. by destruct (SaveMessage db msg) as [db' [e|]].
Qed.

Lemma replayed_repository (w : World DB) :
  replayed w =
    if fails_next (chatUC w) then []
    else scan <$> take 100 (order_by_created_at_desc (chat_messages (chatUC w))).
Proof.
  unfold replayed. simpl. rewrite usecase_GetMessages, GetMessages_100.
  by destruct (fails_next (chatUC w)).
Qed.

Lemma replayed_le_100 (w : World DB) : (length (replayed w) ≤ 100)%nat.
Proof.
  rewrite replayed_repository. destruct (fails_next (chatUC w)); simpl; [lia|].
  rewrite length_fmap, length_take. lia.
Qed.


End repository_facts.

(** ** The hub over the repository *)

Section hub_over_repository.

Implicit Types (w : World repository.DB).

(** C10. With the chat repository behind the hub, no call of [ServeWs]
    parks or panics the hub. When the request is accepted the new
    mailbox has capacity 256 and is empty when the hub receives the
    client, [GetMessages(100, 0)] yields at most 100 messages, every
    history send goes through, and the mailbox still has a free slot
    afterwards; the sends go through as well when the write pump of the
    client takes messages off the mailbox between them. *)
Theorem history_replay_never_blocks r uid w :
  ∃ w', ServeWs r uid w = Done w' ∧
    (accepted r = true →
       let c := fresh (dom (heap w)) in
       heap w !! c = None ∧
       (length (replayed w) ≤ 100)%nat ∧
       ∃ cl, heap w' !! c = Some cl ∧
         send cl = {| buf := replayed w; cap := 256; closed := false |} ∧
         has_room (send cl) = true ∧
         step_trace w w' =
           [ActInsert c; ActFetch (GetMessages (chatUC w) 100 0).2.2]
             ++ (ActSend c <$> replayed w) ∧
         ∀ drains w1,
           heap w1 !! c =
             Some {| send := make_chan 256; userID := uid; pumped := [] |} →
           ∃ w2, send_all_draining c (replayed w) drains w1 = Done w2 ∧
             stream w2 c = replayed w).
Proof.
  pose proof (replayed_le_100 w) as Hlen.
  destruct (accepted r) eqn:Hacc.
  - destruct (ServeWs_fits r uid w Hacc) as (w' & Hrun & _ & _ & Hc & _ & Htr);
      [lia|].
    exists w'. split; [done|]. intros _ c. split_and!.
    + apply fresh_heap_None.
    + done.
    + eexists. split; [exact Hc|].
      split_and!; [done|apply has_room_true; simpl; lia|exact Htr|].
      intros drains w1 Hw1.
      destruct (history_sends_tolerate_draining c (replayed w) drains w1 _ Hw1)
        as (w2 & cl2 & Hrun2 & Hcl2 & Hs2 & _); [done|simpl; lia|].
      exists w2. split; [done|]. by rewrite (stream_lookup w2 c cl2 Hcl2), Hs2.
  - exists w. split; [by apply ServeWs_rejected|done].
Qed.


End hub_over_repository.

(** ** The inbound loop *)

Section readPump_facts.

Implicit Types (c : ptr) (cl : Client) (env : nat → Tick).

Lemma submitted_readPump c cl env reads : ∀ n i m,
  submitted (readPump c cl env n reads) !! i = Some m →
  ∃ f req, reads !! i = Some (Some f) ∧ ReadJSON (Some f) = Some req ∧
    m = NewChatMessage (env (n + i)%nat) req (userID cl).
Proof.
  induction reads as [|next reads IH]; intros n i m Hm; simpl in Hm; [done|].
  destruct (ReadJSON next) as [req|] eqn:Hread; [|done].
  destruct next as [f|]; [|done].
  unfold submitted in Hm. simpl in Hm. destruct i as [|i]; simpl in Hm.
  - injection Hm as <-. exists f, req. by rewrite Nat.add_0_r.
  - apply IH in Hm as (f' & req' & Hf' & Hr' & ->).
    exists f', req'. split_and!; try done. by rewrite Nat.add_succ_r.
Qed.

(** While every read decodes, every frame gives its message. *)
Lemma readPump_submits_decoded c cl env reads : ∀ n i f req,
  Forall (λ next, is_Some (ReadJSON next)) (take i reads) →
  reads !! i = Some (Some f) → ReadJSON (Some f) = Some req →
  readPump c cl env n reads !! i
    = Some (Broadcast (NewChatMessage (env (n + i)%nat) req (userID cl))) ∧
  submitted (readPump c cl env n reads) !! i
    = Some (NewChatMessage (env (n + i)%nat) req (userID cl)).
Proof.
  induction reads as [|next reads IH]; intros n i f req Hbefore Hi Hreq;
    [done|].
  destruct i as [|i]; simpl in Hi.
  - injection Hi as ->. cbn [readPump]. rewrite Hreq. unfold submitted.
    cbn [omap list_omap broadcast_of lookup list_lookup].
    by rewrite Nat.add_0_r.
  - rewrite firstn_cons in Hbefore.
    apply Forall_cons in Hbefore as [[req0 Hreq0] Hbefore].
    cbn [readPump]. rewrite Hreq0. unfold submitted.
    cbn [omap list_omap broadcast_of lookup list_lookup].
    rewrite <-Nat.add_succ_comm. by apply (IH (S n) i f req).
Qed.

(** C8. As long as the reads of the inbound loop of a connection
    decode, every frame that [ReadJSON] decoded gives one message
    submitted to the broadcast channel, the [i]-th frame the [i]-th
    message, and every message submitted comes from such a frame. The
    author of the message is the [userID] of the connection, whatever
    the frame holds, its text is the text of the decoded request, its
    id is the one [uuid.New] produced during its construction and its
    timestamp the reading of the clock at that moment; when the
    generator yields distinct ids while the loop runs, no two submitted
    messages share one. *)
Theorem readPump_builds_message c cl env n reads :
  (∀ i f req,
     Forall (λ next, is_Some (ReadJSON next)) (take i reads) →
     reads !! i = Some (Some f) → ReadJSON (Some f) = Some req →
     ∃ m, submitted (readPump c cl env n reads) !! i = Some m ∧
       readPump c cl env n reads !! i = Some (Broadcast m) ∧
       UserID m = userID cl ∧
       Text m = ReqText req ∧
       ID m = uuid_New (env (n + i)%nat) ∧
       CreatedAt m = time_Now (env (n + i)%nat)) ∧
  (∀ i m, submitted (readPump c cl env n reads) !! i = Some m →
     ∃ f req, reads !! i = Some (Some f) ∧ ReadJSON (Some f) = Some req ∧
       UserID m = userID cl ∧
       Text m = ReqText req ∧
       ID m = uuid_New (env (n + i)%nat) ∧
       CreatedAt m = time_Now (env (n + i)%nat)) ∧
  (NoDup ((λ i, uuid_New (env i)) <$> seq n (length reads)) →
     NoDup (ID <$> submitted (readPump c cl env n reads))).
Proof.
  split_and!.
  - intros i f req Hbefore Hi Hreq.
    destruct (readPump_submits_decoded c cl env reads n i f req)
      as [Hev Hsub]; [done..|].
    by eexists.
  - intros i m Hm. apply submitted_readPump in Hm as (f & req & Hf & Hr & ->).
    by exists f, req.
  - intros Hnd. apply NoDup_alt. intros i j x Hi Hj.
    apply list_lookup_fmap_Some in Hi as (mi & -> & Hi).
    apply list_lookup_fmap_Some in Hj as (mj & Heq & Hj).
    apply submitted_readPump in Hi as (fi & ? & Hri & _ & ->).
    apply submitted_readPump in Hj as (fj & ? & Hrj & _ & ->).
    simpl in Heq. apply lookup_lt_Some in Hri, Hrj.
    eapply (NoDup_lookup _ i j _ Hnd);
      rewrite list_lookup_fmap, lookup_seq_lt by done; simpl; by f_equal.
Qed.

(** C7 at the failing input: the frame [{"text":""}], eleven bytes,
    decodes to a request with the empty text; the loop submits a
    message with that text, which the tag on [Text] forbids. *)
Theorem readPump_submits_empty_text :
  let frame := {| frame_size := 11; frame_json := Some {| ReqText := "" |} |} in
  let env := λ _, {| uuid_New := "7c1e"; time_Now := 1000000000%Z |} in
  ∃ m, readPump 1%positive alice env 0 [Some frame] = [Broadcast m] ∧
    Text m = "" ∧ String.length (Text m) = 0%nat ∧ text_tag_ok (Text m) = false.
Proof. eexists. by split_and!. Qed.

End readPump_facts.

(** ** Where the stated claims fail *)

Section counterexamples.

(** The world of the next lemma arises when alice connects to a new hub
    whose database is about to fail. *)
Lemma w_alice_reachable :
  run [EvServeWs upgrade_request "alice"] (NewHub flaky_db)
    = Done (w_alice failing_db).
Proof. vm_compute. reflexivity. Qed.

(** C1 as stated fails: alice is a member with an empty mailbox, the
    database refuses the insert, and the hub does not try to deliver. *)
Lemma failed_save_reaches_nobody :
  ¬ fans_out_regardless (w_alice failing_db) hello.
Proof.
  intros (w' & Hrun & Hall).
  assert (Hub_step (Broadcast hello) (w_alice failing_db) =
          Done {| clients := clients (w_alice failing_db);
                  chatUC := empty_db; heap := heap (w_alice failing_db);
                  trace := trace (w_alice failing_db)
                             ++ [ActSave hello (Some ErrDriver); ActLog] |})
    as Heq by (vm_compute; reflexivity).
  rewrite Heq in Hrun. injection Hrun as <-.
  destruct (Hall 1%positive) as [Hin|Hin].
  - by exists true.
  - erewrite step_trace_app in Hin; [|done].
    rewrite !elem_of_cons, elem_of_nil in Hin. by destruct Hin as [?|[?|?]].
  - erewrite step_trace_app in Hin; [|done].
    rewrite !elem_of_cons, elem_of_nil in Hin. by destruct Hin as [?|[?|?]].
Qed.

(** C4 as stated fails: alice is connected while two messages are
    broadcast and receives them in the order of their arrival; bob
    connects afterwards and receives them from the history, the most
    recent first. *)
Lemma history_replay_reverses_order :
  ∃ w', run [EvServeWs upgrade_request "alice"; EvBroadcast hello;
             EvBroadcast again; EvServeWs upgrade_request "bob"]
            (NewHub empty_db) = Done w' ∧
    stream w' 1%positive = [hello; again] ∧
    stream w' 2%positive = [again; hello] ∧
    ¬ mailboxes_agree_on_order w'.
Proof.
  eexists. split; [vm_compute; reflexivity|].
  assert (∀ s1 s2, s1 = [hello; again] → s2 = [again; hello] →
                   ¬ same_relative_order s1 s2) as Hord.
  { intros s1 s2 -> -> Hsame. apply (Hsame hello again).
    - exists 0%nat, 1%nat. split_and!; [lia|done..].
    - exists 0%nat, 1%nat. split_and!; [lia|done..]. }
  split_and!; [vm_compute; reflexivity..|].
  intros Hagree. eapply Hord; [| |by apply (Hagree 1%positive 2%positive)];
    vm_compute; reflexivity.
Qed.

End counterexamples.

(** ** The theorems at sample inputs *)

Section witnesses.

Lemma open_members_w_alice db : open_members (w_alice db).
Proof. apply open_membersb_sound. reflexivity. Qed.

Lemma open_members_w_sleeper : open_members w_sleeper.
Proof. apply open_membersb_sound. vm_compute. reflexivity. Qed.

(** Alice alone is a member and the insert succeeds: the save comes
    first and alice is tried. *)
Lemma broadcast_saves_then_fans_out_witness :
  open_members (w_alice empty_db) ∧
  ∃ w' tr, Hub_step (Broadcast hello) (w_alice empty_db) = Done w' ∧
    step_trace (w_alice empty_db) w' = ActSave hello None :: tr ∧
    delivery_attempted 1%positive hello tr.
Proof.
  split; [apply open_members_w_alice|].
  destruct (broadcast_saves_then_fans_out hello (w_alice empty_db)
              (open_members_w_alice empty_db))
    as (w' & tr & Hrun & _ & Htr & Hall).
  exists w', tr. split_and!; [exact Hrun|exact Htr|].
  apply (proj1 (Hall 1%positive)). by exists true.
Defined.

(** The insert succeeds and alice, whose mailbox is empty, receives
    [hello] and stays a member: her mailbox holds [hello] and is open. *)
Lemma failed_save_drops_saved_reaches_members_witness :
  (SaveMessage (chatUC (w_alice empty_db)) hello).2 = None ∧
  open_members (w_alice empty_db) ∧
  ∃ w' cl', Hub_step (Broadcast hello) (w_alice empty_db) = Done w' ∧
    heap w' !! 1%positive = Some cl' ∧
    buf (send cl') = [hello] ∧
    closed (send cl') = false ∧
    stream w' 1%positive = [hello] ∧
    clients w' !! 1%positive = Some true.
Proof.
  assert (Hsave : (SaveMessage (chatUC (w_alice empty_db)) hello).2 = None)
    by reflexivity.
  split; [exact Hsave|]. split; [apply open_members_w_alice|].
  destruct (proj2 (failed_save_drops_saved_reaches_members hello (w_alice empty_db))
              Hsave (open_members_w_alice empty_db))
    as (w' & Hrun & Hmem & _).
  assert (Hmember : is_Some (clients (w_alice empty_db) !! 1%positive))
    by (by exists true).
  assert (Hheap : heap (w_alice empty_db) !! 1%positive = Some alice)
    by reflexivity.
  pose proof (Hmem 1%positive alice Hmember Hheap) as Halice.
  change (has_room (send alice)) with true in Halice. cbv iota in Halice.
  destruct Halice as (_ & Hcs & cl' & Hcl' & Hbuf & Hclosed & Hstream).
  exists w', cl'. split_and!;
    [exact Hrun|exact Hcl'|exact Hbuf|exact Hclosed|exact Hstream|exact Hcs].
Defined.

(** The sleeper holds 256 messages in a mailbox of 256: the broadcast
    removes it and closes its mailbox, which keeps its 256 messages. *)
Lemma slow_consumer_is_dropped_witness :
  open_members w_sleeper ∧
  (SaveMessage (chatUC w_sleeper) hello).2 = None ∧
  is_Some (clients w_sleeper !! 2%positive) ∧
  heap w_sleeper !! 2%positive = Some sleeper ∧
  has_room (send sleeper) = false ∧
  ∃ w' cl', Hub_step (Broadcast hello) w_sleeper = Done w' ∧
    clients w' !! 2%positive = None ∧
    heap w' !! 2%positive = Some cl' ∧
    closed (send cl') = true ∧
    buf (send cl') = replicate 256 hello.
Proof.
  assert (Hmem : is_Some (clients w_sleeper !! 2%positive)) by (by exists true).
  assert (Hsave : (SaveMessage (chatUC w_sleeper) hello).2 = None) by reflexivity.
  assert (Hcl : heap w_sleeper !! 2%positive = Some sleeper) by reflexivity.
  assert (Hfull : has_room (send sleeper) = false) by reflexivity.
  split_and!; [apply open_members_w_sleeper|exact Hsave|exact Hmem
              |exact Hcl|exact Hfull|].
  destruct (slow_consumer_is_dropped hello w_sleeper 2%positive sleeper
              open_members_w_sleeper Hsave Hmem Hcl Hfull)
    as (w' & Hrun & Hcs & _ & (cl' & Hcl' & Hclosed & Hbuf) & _).
  exists w', cl'. split_and!;
    [exact Hrun|exact Hcs|exact Hcl'|exact Hclosed|exact Hbuf].
Defined.

(** Alice is unregistered twice: the first event closes her mailbox,
    the second changes nothing. *)
Lemma unregister_is_idempotent_witness :
  open_members (w_alice empty_db) ∧
  is_Some (clients (w_alice empty_db) !! 1%positive) ∧
  ∃ w' cl', Hub_step (Unregister 1%positive) (w_alice empty_db) = Done w' ∧
    clients w' = delete 1%positive (clients (w_alice empty_db)) ∧
    heap w' !! 1%positive = Some cl' ∧
    closed (send cl') = true ∧
    Hub_step (Unregister 1%positive) w' = Done w'.
Proof.
  assert (Hmem : is_Some (clients (w_alice empty_db) !! 1%positive))
    by (by exists true).
  split_and!; [apply open_members_w_alice|exact Hmem|].
  destruct (unregister_is_idempotent 1%positive (w_alice empty_db))
    as (_ & Htwice & Hmember).
  destruct (Hmember (open_members_w_alice empty_db) Hmem)
    as (cl & w' & _ & Hrun & Hcs & _ & (_ & cl' & Hcl' & Hclosed & _) & _).
  exists w', cl'. split_and!; [exact Hrun|exact Hcs|exact Hcl'|exact Hclosed|].
  by apply Htwice.
Defined.

(** Alice connects and her read pump leaves twice over: one close. *)
Lemma mailbox_closed_at_most_once_witness :
  hub_inv (NewHub empty_db) ∧
  ¬ is_Panic (run [EvServeWs upgrade_request "alice"; EvUnregister 1%positive;
                   EvUnregister 1%positive] (NewHub empty_db)) ∧
  ∃ w', run [EvServeWs upgrade_request "alice"; EvUnregister 1%positive;
             EvUnregister 1%positive] (NewHub empty_db) = Done w' ∧
    closes 1%positive (trace w') = 1%nat ∧
    ∀ c, (closes c (trace w') ≤ 1)%nat.
Proof.
  split; [apply hub_inv_NewHub|].
  destruct (mailbox_closed_at_most_once
              [EvServeWs upgrade_request "alice"; EvUnregister 1%positive;
               EvUnregister 1%positive] (NewHub empty_db)
              (hub_inv_NewHub empty_db)) as (Hnp & Hall).
  split; [exact Hnp|].
  destruct (run [EvServeWs upgrade_request "alice"; EvUnregister 1%positive;
                 EvUnregister 1%positive] (NewHub empty_db))
    as [w'|f|] eqn:Hrun; [|vm_compute in Hrun; discriminate..].
  exists w'. split; [reflexivity|].
  split; [|by apply Hall].
  vm_compute in Hrun. injection Hrun as <-. vm_compute. reflexivity.
Defined.

(** Two broadcasts to alice and the sleeper: alice receives both, the
    sleeper none, both initial parts of [hello; again]. *)
Lemma fanout_order_is_common_witness :
  heap w_sleeper !! 1%positive = Some alice ∧
  heap w_sleeper !! 2%positive = Some sleeper ∧
  ∃ w', run [EvBroadcast hello; EvBroadcast again] w_sleeper = Done w' ∧
    ∃ k1 k2,
      stream w' 1%positive = stream w_sleeper 1%positive ++ take k1 [hello; again] ∧
      stream w' 2%positive = stream w_sleeper 2%positive ++ take k2 [hello; again].
Proof.
  assert (Hc1 : heap w_sleeper !! 1%positive = Some alice) by reflexivity.
  assert (Hc2 : heap w_sleeper !! 2%positive = Some sleeper) by reflexivity.
  split; [exact Hc1|]. split; [exact Hc2|].
  destruct (run [EvBroadcast hello; EvBroadcast again] w_sleeper)
    as [w'|f|] eqn:Hrun; [|vm_compute in Hrun; discriminate..].
  exists w'. split; [reflexivity|].
  destruct (fanout_order_is_common [EvBroadcast hello; EvBroadcast again]
              w_sleeper w' 1%positive 2%positive alice sleeper Hc1 Hc2 Hrun)
    as (_ & k1 & k2 & H1 & H2 & _).
  exists k1, k2. split; [exact H1|exact H2].
Defined.


(** The same call of [ServeWs] ends, with a free slot left. *)
Lemma history_replay_never_blocks_witness :
  accepted upgrade_request = true ∧
  ∃ w', ServeWs upgrade_request "carol" (NewHub history_db) = Done w' ∧
    ∃ cl, heap w' !! 1%positive = Some cl ∧ cap (send cl) = 256%nat ∧
      has_room (send cl) = true.
Proof.
  assert (Hok : accepted upgrade_request = true) by reflexivity.
  split; [exact Hok|].
  destruct (history_replay_never_blocks upgrade_request "carol" (NewHub history_db))
    as (w' & Hrun & Hacc).
  destruct (Hacc Hok) as (_ & _ & cl & Hcl & Hsend & Hroom & _).
  exists w'. split; [exact Hrun|]. exists cl. split_and!; [exact Hcl| |exact Hroom].
  by rewrite Hsend.
Defined.

(** Three frames and a read error on alice's connection: each frame
    gives its message, the third one as the first two. *)
Lemma readPump_builds_message_witness :
  NoDup ((λ i, uuid_New (sample_env i)) <$> seq 0 (length sample_reads)) ∧
  Forall (λ next, is_Some (ReadJSON next)) (take 2 sample_reads) ∧
  submitted (readPump 1%positive alice sample_env 0 sample_reads) =
    [ {| ID := "7c1e"; UserID := "alice"; Text := "hello"; CreatedAt := 1000000000%Z |};
      {| ID := "a2f0"; UserID := "alice"; Text := "again"; CreatedAt := 1500000000%Z |};
      {| ID := "d94b"; UserID := "alice"; Text := "third"; CreatedAt := 2000000000%Z |} ] ∧
  (∃ m, submitted (readPump 1%positive alice sample_env 0 sample_reads) !! 2%nat
          = Some m ∧
        readPump 1%positive alice sample_env 0 sample_reads !! 2%nat
          = Some (Broadcast m) ∧
        UserID m = "alice" ∧ Text m = "third" ∧ ID m = "d94b" ∧
        CreatedAt m = 2000000000%Z) ∧
  NoDup (ID <$> submitted (readPump 1%positive alice sample_env 0 sample_reads)).
Proof.
  assert (Hnd : NoDup ((λ i, uuid_New (sample_env i)) <$> seq 0 (length sample_reads))).
  { refine (bool_decide_unpack _ _). vm_compute. exact I. }
  assert (Hbefore : Forall (λ next, is_Some (ReadJSON next)) (take 2 sample_reads)).
  { repeat constructor; by eexists. }
  destruct (readPump_builds_message 1%positive alice sample_env 0 sample_reads)
    as (Hframes & _ & Hids).
  split; [exact Hnd|]. split; [exact Hbefore|]. split; [reflexivity|].
  split; [|exact (Hids Hnd)].
  exact (Hframes 2%nat
           {| frame_size := 16; frame_json := Some {| ReqText := "third" |} |}
           {| ReqText := "third" |} Hbefore eq_refl eq_refl).
Defined.

End witnesses.

(** * The code around the hub: properties *)

Lemma StronglySorted_sublist {A} (R : relation A) (l1 l2 : list A) :
  l1 `sublist_of` l2 → StronglySorted R l2 → StronglySorted R l1.
Proof.
  induction 1 as [|x l1 l2 Hsub IH|x l1 l2 Hsub IH]; intros Hs; [done|..].
  - apply StronglySorted_inv in Hs as [Hs Hx]. constructor; [by apply IH|].
    apply Forall_forall. intros y Hy. rewrite Forall_forall in Hx.
    apply Hx. by eapply sublist_submseteq, elem_of_submseteq in Hsub.
  - apply StronglySorted_inv in Hs as [Hs _]. by apply IH.
Qed.

(** ** The chat store *)

Section chat_store.

Import repository.
Implicit Types (db : DB) (msg : ChatMessage).

Lemma next_fault_table db : chat_messages (next_fault db).2 = chat_messages db.
Proof. unfold next_fault. by destruct (driver_faults db). Qed.

Lemma SaveMessage_cases db msg :
  ((SaveMessage db msg).2 = None ∧ (ID msg ∉ table_ids db) ∧
     fails_next db = false ∧
     chat_messages (SaveMessage db msg).1 = chat_messages db ++ [to_row msg]) ∨
  ((SaveMessage db msg).2 = Some ErrDriver ∧ fails_next db = true ∧
     chat_messages (SaveMessage db msg).1 = chat_messages db) ∨
  ((SaveMessage db msg).2 = Some ErrConstraint ∧ ID msg ∈ table_ids db ∧
     fails_next db = false ∧
     chat_messages (SaveMessage db msg).1 = chat_messages db).
Proof.
  unfold SaveMessage, exec_insert, fails_next, table_ids.
  pose proof (next_fault_table db) as Htab.
  destruct (next_fault db) as [[|] db1]; simpl in *.
  - right; left. done.
  - rewrite Htab. case_bool_decide as Hin; simpl.
    + right; right. done.
    + left. done.
Qed.

Lemma GetMessages_page db limit offset :
  (GetMessages db limit offset).2 =
    if fails_next db then ([], Some ErrDriver)
    else (scan <$> page db limit offset, None).
Proof.
  unfold GetMessages, query_select, fails_next, page.
  pose proof (next_fault_table db) as Htab.
  destruct (next_fault db) as [[|] db1]; simpl in *; [done|]. by rewrite Htab.
Qed.

Lemma GetMessages_table db limit offset :
  chat_messages (GetMessages db limit offset).1 = chat_messages db.
Proof.
  unfold GetMessages, query_select.
  pose proof (next_fault_table db) as Htab.
  by destruct (next_fault db) as [[|] db1].
Qed.

Lemma to_row_scan (r : Row) : to_row (scan r) = r.
Proof.
  destruct r as [i u t s]. unfold to_row, scan, format_RFC3339, parse_RFC3339.
  simpl. f_equal. by rewrite Z.div_mul.
Qed.

Lemma stored_fields msg :
  ID (stored msg) = ID msg ∧ UserID (stored msg) = UserID msg ∧
  Text (stored msg) = Text msg ∧
  (CreatedAt msg - 1000000000 < CreatedAt (stored msg) ≤ CreatedAt msg)%Z ∧
  ((CreatedAt msg `mod` 1000000000 = 0)%Z → stored msg = msg).
Proof.
  unfold stored, to_row, scan, format_RFC3339, parse_RFC3339. simpl.
  pose proof (Z.div_mod (CreatedAt msg) 1000000000 ltac:(lia)) as Hdm.
  pose proof (Z.mod_pos_bound (CreatedAt msg) 1000000000 ltac:(lia)) as Hb.
  split_and!; try done; [lia..|].
  intros Hmod. destruct msg as [i u t c]. simpl in *. f_equal. lia.
Qed.

Lemma page_unbounded db limit offset :
  (limit < 0 ∨ Z.of_nat (length (chat_messages db)) ≤ limit)%Z →
  page db limit offset =
    drop (Z.to_nat offset) (order_by_created_at_desc (chat_messages db)).
Proof.
  intros Hl. unfold page, limit_offset.
  destruct (Z.ltb_spec limit 0) as [Hneg|Hpos]; [done|].
  apply take_ge. rewrite length_drop, order_by_Permutation. lia.
Qed.

(** X1. A message that [SaveMessage] accepted comes back from the next
    [GetMessages] that has no limit, or a limit of at least the size of
    the table, and starts at offset 0: with the id, the author and the
    text it had and with its timestamp cut to the whole second. *)
Theorem save_then_get_round_trip db msg db1 limit :
  SaveMessage db msg = (db1, None) →
  fails_next db1 = false →
  (limit < 0 ∨ Z.of_nat (length (chat_messages db1)) ≤ limit)%Z →
  ∃ msgs, (GetMessages db1 limit 0).2 = (msgs, None) ∧
    stored msg ∈ msgs ∧
    ID (stored msg) = ID msg ∧ UserID (stored msg) = UserID msg ∧
    Text (stored msg) = Text msg ∧
    (CreatedAt msg - 1000000000 < CreatedAt (stored msg) ≤ CreatedAt msg)%Z.
Proof.
  intros Hsave Hok Hlimit.
  pose proof (SaveMessage_cases db msg) as Hcases. rewrite Hsave in Hcases.
  simpl in Hcases.
  destruct Hcases as [(_ & _ & _ & Htab)|[(? & _)|(? & _)]]; try done.
  rewrite GetMessages_page, Hok. eexists. split; [done|].
  destruct (stored_fields msg) as (? & ? & ? & ? & _).
  split_and!; try done; [|lia..].
  rewrite page_unbounded by done. simpl. rewrite drop_0.
  apply list_elem_of_fmap. exists (to_row msg). split; [done|].
  rewrite order_by_Permutation, Htab. apply elem_of_app. right. by left.
Qed.

(** X2. [id] is the primary key of the table: when the ids of the
    table are distinct they are distinct after [SaveMessage]; a message
    whose id is in the table is refused; whenever [SaveMessage] returns
    an error the table is as before, and when it returns none the table
    has gained the row of the message and nothing else. *)
Theorem SaveMessage_keeps_ids_distinct db msg :
  NoDup (table_ids db) →
  NoDup (table_ids (SaveMessage db msg).1) ∧
  (ID msg ∈ table_ids db → (SaveMessage db msg).2 ≠ None) ∧
  ((SaveMessage db msg).2 ≠ None →
     chat_messages (SaveMessage db msg).1 = chat_messages db) ∧
  ((SaveMessage db msg).2 = None →
     chat_messages (SaveMessage db msg).1 = chat_messages db ++ [to_row msg]).
Proof.
  intros Hnd. pose proof (SaveMessage_cases db msg) as Hcases.
  destruct (SaveMessage db msg) as [db' err]. simpl in *.
  destruct Hcases as [(-> & Hfresh & _ & Htab)|[(-> & _ & Htab)|(-> & Hin & _ & Htab)]].
  - split_and!; try done. unfold table_ids in *. rewrite Htab, fmap_app.
    apply NoDup_app. split_and!; [done| |apply NoDup_singleton].
    intros x Hx Hx'. apply list_elem_of_singleton in Hx'. by subst.
  - split_and!; try done. unfold table_ids in *. by rewrite Htab.
  - split_and!; try done. unfold table_ids in *. by rewrite Htab.
Qed.

Lemma page_nonneg db limit offset :
  (0 ≤ limit)%Z →
  page db limit offset =
    take (Z.to_nat limit)
      (drop (Z.to_nat offset) (order_by_created_at_desc (chat_messages db))).
Proof.
  intros Hl. unfold page, limit_offset.
  by destruct (Z.ltb_spec limit 0); [lia|].
Qed.

(** X3. Pages compose: when neither query fails, the page of [l1]
    messages at offset [o] followed by the page of [l2] messages at
    offset [o + l1] is the page of [l1 + l2] messages at offset [o]. *)
Theorem GetMessages_pages_compose db l1 l2 o :
  (0 ≤ l1)%Z → (0 ≤ l2)%Z → (0 ≤ o)%Z →
  fails_next db = false →
  fails_next (GetMessages db l1 o).1 = false →
  (GetMessages db l1 o).2.2 = None ∧
  (GetMessages (GetMessages db l1 o).1 l2 (o + l1)).2.2 = None ∧
  (GetMessages db l1 o).2.1
    ++ (GetMessages (GetMessages db l1 o).1 l2 (o + l1)).2.1
  = (GetMessages db (l1 + l2) o).2.1.
Proof.
  intros Hl1 Hl2 Ho Hok1 Hok2.
  rewrite !GetMessages_page, Hok1, Hok2. simpl. split_and!; try done.
  rewrite <-fmap_app. f_equal.
  rewrite !page_nonneg by lia. rewrite GetMessages_table.
  rewrite !Z2Nat.inj_add by lia. rewrite <-drop_drop.
  apply take_take_drop.
Qed.

(** Rows of one second are listed in the order of insertion. *)
Lemma order_by_keeps_ties :
  let row i t := {| row_id := i; row_user_id := "u1"; row_text := "hi";
                    row_created_at := t |} in
  order_by_created_at_desc
    [row "m1" 5%Z; row "m2" 5%Z; row "m3" 7%Z; row "m4" 5%Z]
  = [row "m3" 7%Z; row "m1" 5%Z; row "m2" 5%Z; row "m4" 5%Z].
Proof. reflexivity. Qed.



End chat_store.

(** ** [strconv.Atoi] *)

Section strconv_facts.

Import strconv.
Import Stdlib.Strings.Ascii.
#[local] Open Scope Z_scope.







(** [Atoi] on some numerals. *)
Lemma Atoi_samples :
  Atoi "" = (0, Some ErrSyntax) ∧ Atoi "25" = (25, None) ∧
  Atoi "-3" = (-3, None) ∧ Atoi "+7" = (7, None) ∧
  Atoi "+" = (0, Some ErrSyntax) ∧ Atoi "12a" = (0, Some ErrSyntax) ∧
  Atoi " 5" = (0, Some ErrSyntax) ∧
  Atoi "9223372036854775807" = (9223372036854775807, None) ∧
  Atoi "9223372036854775808" = (9223372036854775807, Some ErrRange) ∧
  Atoi "-9223372036854775808" = (-9223372036854775808, None) ∧
  Atoi "-9223372036854775809" = (-9223372036854775808, Some ErrRange) ∧
  Atoi "99999999999999999999" = (9223372036854775807, Some ErrRange) ∧
  Atoi "99999999999999999999a" = (9223372036854775807, Some ErrRange).
Proof. vm_compute. by split_and!. Qed.

End strconv_facts.

(** ** Reading the chat history *)

Section chat_history.

Implicit Types (db : repository.DB).

Lemma usecase_GetMessages_page db limit offset :
  (usecase.GetMessages db limit offset).2 =
    if repository.fails_next db then ([], Some ErrDriver)
    else (repository.scan <$> page db limit offset, None).
Proof. by rewrite usecase_GetMessages, GetMessages_page. Qed.

Lemma usecase_GetMessages_table db limit offset :
  repository.chat_messages (usecase.GetMessages db limit offset).1
    = repository.chat_messages db.
Proof.
  rewrite <-(GetMessages_table db limit offset).
  unfold usecase.GetMessages.
  by destruct (repository.GetMessages db limit offset) as [db' [ms [e|]]].
Qed.


Lemma to_pb_scan (r : repository.Row) :
  grpcdel.to_pb (repository.scan r) = grpcdel.row_pb r.
Proof.
  unfold grpcdel.to_pb, grpcdel.row_pb. simpl. f_equal.
  unfold repository.format_RFC3339, repository.parse_RFC3339.
  by rewrite Z.div_mul.
Qed.

(** X6. [ForumServer.GetChatMessages] hands the limit and the offset of
    the request to the store as they are. When the driver does not fail
    the response shows a window of the rows of the table listed with
    the most recent first, whichever way rows of one second follow each
    other, each row as the table has it, the text of [created_at]
    included: what is left of the listing after the first [offset]
    rows, cut after [limit] rows when [limit] is not negative and uncut
    when it is negative. [Total] is the number of messages shown (as
    long as it is below 2^31), not the size of the table. So a limit of
    0 yields no message and a negative limit every message from the
    offset on. *)
Theorem grpc_GetChatMessages_mirrors_table limit offset db :
  repository.fails_next db = false →
  ∃ resp listing, (grpcdel.GetChatMessages limit offset db).2 = inr resp ∧
    listing ≡ₚ repository.chat_messages db ∧
    StronglySorted repository.more_recent listing ∧
    ((0 ≤ limit)%Z →
       grpcdel.Messages resp =
         grpcdel.row_pb <$> take (Z.to_nat limit) (drop (Z.to_nat offset) listing) ∧
       length (grpcdel.Messages resp)
         = (Z.to_nat limit
              `min` (length (repository.chat_messages db) - Z.to_nat offset))%nat) ∧
    ((limit < 0)%Z →
       grpcdel.Messages resp = grpcdel.row_pb <$> drop (Z.to_nat offset) listing ∧
       length (grpcdel.Messages resp)
         = (length (repository.chat_messages db) - Z.to_nat offset)%nat) ∧
    ((Z.of_nat (length (grpcdel.Messages resp)) < 2147483648)%Z →
       grpcdel.Total resp = Z.of_nat (length (grpcdel.Messages resp))) ∧
    (limit = 0%Z → grpcdel.Messages resp = []).
Proof.
  intros Hok. unfold grpcdel.GetChatMessages.
  pose proof (usecase_GetMessages_page db limit offset) as Hpage.
  rewrite Hok in Hpage.
  destruct (usecase.GetMessages db limit offset) as [db' [ms [e|]]];
    simpl in *; [done|].
  injection Hpage as ->. eexists.
  exists (repository.order_by_created_at_desc (repository.chat_messages db)).
  split; [done|]. simpl.
  assert (Hmsgs : grpcdel.to_pb <$> (repository.scan <$> page db limit offset)
                  = grpcdel.row_pb <$> page db limit offset).
  { rewrite <-list_fmap_compose. apply list_fmap_ext. intros i r _.
    apply to_pb_scan. }
  rewrite Hmsgs.
  split_and!; [apply order_by_Permutation|apply order_by_sorted|..].
  - intros Hl. rewrite page_nonneg by done. split; [done|].
    by rewrite length_fmap, length_take, length_drop, order_by_Permutation.
  - intros Hneg. rewrite page_unbounded by (by left). split; [done|].
    by rewrite length_fmap, length_drop, order_by_Permutation.
  - intros Hlen. unfold grpcdel.int32.
    rewrite Z.mod_small by lia. lia.
  - intros ->. by rewrite page_nonneg.
Qed.

End chat_history.

(** ** The hub over whole runs *)

Section hub_runs.

Context {Store : Type} `{!ChatUseCase Store}.
Implicit Types (w : World Store) (c : ptr) (m : ChatMessage) (cl : Client).

Lemma send_to_Done_room c m w w' :
  send_to c m w = Done w' →
  ∃ cl, heap w !! c = Some cl ∧ has_room (send cl) = true ∧
    heap w' = <[c := with_send cl (enqueue m (send cl))]> (heap w).
Proof.
  unfold send_to, chan_send. destruct (heap w !! c) as [cl|]; [|done].
  destruct (closed (send cl)); [done|].
  destruct (has_room (send cl)) eqn:Hroom; [|done]. simpl.
  intros [= <-]. by exists cl.
Qed.

Lemma send_all_Done_fits c ms : ∀ w w' cl,
  send_all c ms w = Done w' → heap w !! c = Some cl →
  (length (buf (send cl)) ≤ cap (send cl))%nat →
  (length (buf (send cl)) + length ms ≤ cap (send cl))%nat.
Proof.
  induction ms as [|m ms IH]; intros w w' cl Hrun Hc Hlen; simpl in *; [lia|].
  destruct (send_to c m w) as [w1| |] eqn:Hsend; simpl in Hrun; try done.
  apply send_to_Done_room in Hsend as (cl0 & Hcl0 & Hroom & Hheap).
  assert (cl0 = cl) as -> by congruence.
  apply has_room_true in Hroom.
  specialize (IH w1 w' (with_send cl (enqueue m (send cl))) Hrun).
  rewrite Hheap, lookup_insert_eq in IH. specialize (IH eq_refl).
  simpl in IH. rewrite length_app in IH. simpl in IH. lia.
Qed.

Lemma step_capacity e w w' :
  step e w = Done w' → within_capacity w → within_capacity w'.
Proof.
  intros Hstep Hcap. destruct e as [r uid|c0|m|c0]; simpl in Hstep.
  - (* ServeWs *)
    destruct (accepted r) eqn:Hacc;
      [|rewrite ServeWs_rejected in Hstep by done; by injection Hstep as <-].
    rewrite ServeWs_accepted in Hstep by done.
    set (c0 := fresh (dom (heap w))) in *.
    set (new := {| send := make_chan 256; userID := uid; pumped := [] |}) in *.
    pose proof Hstep as Hrun.
    apply on_register_Done in Hstep as (_ & _ & Ho & Hc0 & _).
    simpl in Ho, Hc0. rewrite lookup_insert_eq in Hc0. simpl in Hc0.
    assert (Hfit : (length (replayed (set_client c0 new w)) ≤ 256)%nat).
    { unfold on_register, replayed in *. simpl in *.
      destruct (GetMessages (chatUC w) 100 0) as [s' [ms [err|]]]; simpl in *;
        [lia|].
      eapply (send_all_Done_fits c0 ms _ w' new) in Hrun; simpl in *;
        [lia| |lia].
      by rewrite lookup_insert_eq. }
    intros c cl Hcl. destruct (decide (c = c0)) as [->|Hne].
    + rewrite Hc0 in Hcl. injection Hcl as <-. simpl. split; [done|lia].
    + rewrite Ho, lookup_insert_ne in Hcl by done. by apply (Hcap c).
  - (* unregister *)
    apply on_unregister_Done in Hstep
      as [[_ ->]|(b & cl0 & _ & Hcl0 & _ & ->)]; [done|].
    intros c cl Hcl. simpl in Hcl. destruct (decide (c = c0)) as [->|Hne].
    + rewrite lookup_insert_eq in Hcl. injection Hcl as <-. simpl.
      by apply (Hcap c0).
    + rewrite lookup_insert_ne in Hcl by done. by apply (Hcap c).
  - (* broadcast *)
    destruct (SaveMessage (chatUC w) m) as [s' [err|]] eqn:Hsave.
    + rewrite (on_broadcast_failed m w s' err) in Hstep by done.
      by injection Hstep as <-.
    + assert (Hopen : open_members w).
      { intros c1 Hc1. eapply on_broadcast_Done_open; [done| |done].
        by rewrite Hsave. }
      destruct (on_broadcast_saved m w s' Hsave Hopen)
        as (w1 & Hrun & _ & Hh & _ & _).
      rewrite Hrun in Hstep. injection Hstep as ->.
      intros c cl Hcl. rewrite Hh in Hcl.
      destruct (decide (is_Some (clients w !! c))); [|by apply (Hcap c)].
      destruct (heap w !! c) as [cl0|] eqn:Hcl0; [|done].
      simpl in Hcl. injection Hcl as <-.
      destruct (Hcap c cl0 Hcl0) as [Hc256 Hlen].
      unfold after_delivery. destruct (has_room (send cl0)) eqn:Hroom; simpl.
      * apply has_room_true in Hroom. rewrite length_app. simpl.
        split; [done|lia].
      * done.
  - (* writePump *)
    injection Hstep as <-. intros c cl Hcl.
    destruct (heap w !! c) as [cl0|] eqn:Hcl0.
    + destruct (writePump_recv_heap c0 w c cl0 Hcl0)
        as (cl' & Hcl' & _ & _ & _ & Hcap' & Hlen').
      assert (cl' = cl) as -> by congruence.
      destruct (Hcap c cl0 Hcl0). split; [congruence|lia].
    + exfalso. unfold writePump_recv, chan_recv in Hcl.
      destruct (heap w !! c0) as [cl1|] eqn:Hc1; [|congruence].
      destruct (buf (send cl1)); [congruence|]. simpl in Hcl.
      rewrite lookup_insert_ne in Hcl; [congruence|]. intros ->. congruence.
Qed.

(** X9. Mailboxes stay within their capacity: in every world a run
    reaches from one where every mailbox has 256 slots and holds at
    most 256 messages, for instance from [NewHub], that is still so. *)
Theorem mailboxes_stay_within_capacity es : ∀ w w',
  within_capacity w → run es w = Done w' → within_capacity w'.
Proof.
  induction es as [|e es IH]; intros w w' Hcap Hrun; simpl in Hrun.
  - by injection Hrun as <-.
  - destruct (step e w) as [w1| |] eqn:Hstep; simpl in Hrun; try done.
    eapply IH; [|done]. by eapply step_capacity.
Qed.

Lemma within_capacity_NewHub (s : Store) : within_capacity (NewHub s).
Proof. intros c cl Hc. simpl in Hc. by rewrite lookup_empty in Hc. Qed.

End hub_runs.

Section hub_runs_over_repository.

Implicit Types (w : World repository.DB) (c : ptr) (m : ChatMessage).

Lemma step_Done_repository e w : open_members w → is_Done (step e w).
Proof.
  intros Hopen. destruct e as [r uid|c0|m|c0]; simpl.
  - destruct (accepted r) eqn:Hacc.
    + destruct (ServeWs_fits r uid w Hacc) as (w' & Hrun & _).
      { pose proof (replayed_le_100 w). lia. }
      by exists w'.
    + rewrite ServeWs_rejected by done. by eexists.
  - destruct (clients w !! c0) as [b|] eqn:Hb.
    + destruct (Hopen c0) as (cl & Hcl & Hop); [by exists b|].
      rewrite (on_unregister_member c0 w b cl) by done. by eexists.
    + rewrite on_unregister_nonmember by done. by eexists.
  - destruct (SaveMessage (chatUC w) m) as [s' [err|]] eqn:Hsave.
    + rewrite (on_broadcast_failed m w s' err) by done. by eexists.
    + destruct (on_broadcast_saved m w s' Hsave Hopen) as (w1 & Hrun & _).
      by exists w1.
  - by eexists.
Qed.

(** X8. With the chat repository behind it, the hub gets through every
    sequence of events: from a world that satisfies its invariant, for
    instance from [NewHub], no event makes it panic and none parks it,
    whatever the table holds and whenever the driver fails. *)
Theorem hub_over_repository_never_stops es : ∀ w,
  hub_inv w → ∃ w', run es w = Done w' ∧ hub_inv w'.
Proof.
  induction es as [|e es IH]; intros w Hinv; simpl.
  - by exists w.
  - destruct (step_Done_repository e w (proj1 Hinv)) as [w1 Hstep].
    rewrite Hstep. simpl. apply IH. by eapply step_inv.
Qed.

Lemma SaveMessage_table_grows (db : repository.DB) m :
  repository.chat_messages db
    ⊆ repository.chat_messages (SaveMessage db m).1 ∧
  ((SaveMessage db m).2 = None →
     to_row m ∈ repository.chat_messages (SaveMessage db m).1).
Proof.
  simpl. rewrite usecase_SaveMessage.
  destruct (SaveMessage_cases db m)
    as [(He & _ & _ & Htab)|[(He & _ & Htab)|(He & _ & _ & Htab)]];
    rewrite Htab, He; split; try done.
  - intros x Hx. apply elem_of_app. by left.
  - intros _. apply elem_of_app. right. by left.
Qed.

Lemma replayed_persisted w m :
  m ∈ replayed w → to_row m ∈ repository.chat_messages (chatUC w).
Proof.
  rewrite replayed_repository.
  destruct (repository.fails_next (chatUC w)); [by intros ?%elem_of_nil|].
  intros (r & -> & Hr)%list_elem_of_fmap. rewrite to_row_scan.
  pose proof (elem_of_sublist _ _ _ Hr (sublist_take _ 100)) as Hr'.
  by rewrite order_by_Permutation in Hr'.
Qed.

Lemma step_persisted e w w' :
  step e w = Done w' → all_persisted w → all_persisted w'.
Proof.
  intros Hstep Hall.
  assert (Hold : ∀ c cl, heap w !! c = Some cl →
            repository.chat_messages (chatUC w)
              ⊆ repository.chat_messages (chatUC w') →
            (∀ m, gain e w c = [m] →
               to_row m ∈ repository.chat_messages (chatUC w')) →
            ∀ m, m ∈ stream w' c →
              to_row m ∈ repository.chat_messages (chatUC w')).
  { intros c cl Hc Hsub Hgain m Hm.
    destruct (step_client e w w' c cl Hstep Hc) as (cl' & Hcl' & Hs & _).
    rewrite (stream_lookup w' c cl' Hcl'), Hs in Hm.
    apply elem_of_app in Hm as [Hm|Hm].
    - apply Hsub, (Hall c). by rewrite (stream_lookup w c cl Hc).
    - destruct (gain_cases e w c) as [Hg|(m' & Hg & _)]; rewrite Hg in Hm.
      + by apply elem_of_nil in Hm.
      + apply list_elem_of_singleton in Hm as ->. by apply Hgain. }
  destruct e as [r uid|c0|m0|c0]; simpl in Hstep.
  - (* ServeWs *)
    destruct (accepted r) eqn:Hacc;
      [|rewrite ServeWs_rejected in Hstep by done; by injection Hstep as <-].
    destruct (ServeWs_fits r uid w Hacc)
      as (w1 & Hrun & _ & Hs & Hc0 & Ho & _).
    { pose proof (replayed_le_100 w). lia. }
    rewrite Hrun in Hstep. injection Hstep as ->.
    assert (Htab : repository.chat_messages (chatUC w')
                   = repository.chat_messages (chatUC w)).
    { rewrite Hs. apply usecase_GetMessages_table. }
    intros c m Hm. rewrite Htab.
    destruct (decide (c = fresh (dom (heap w)))) as [->|Hne].
    + rewrite (stream_lookup w' _ _ Hc0) in Hm. by apply replayed_persisted.
    + unfold stream in Hm. rewrite Ho in Hm by done. by apply (Hall c).
  - (* unregister *)
    intros c m Hm. destruct (heap w !! c) as [cl|] eqn:Hc.
    + eapply (Hold c cl Hc); [| |done].
      * apply on_unregister_Done in Hstep as [[_ ->]|(? & ? & _ & _ & _ & ->)];
          done.
      * intros m'. done.
    + apply on_unregister_Done in Hstep
        as [[_ ->]|(b & cl0 & _ & Hcl0 & _ & ->)]; [by apply (Hall c)|].
      unfold stream in Hm. simpl in Hm.
      rewrite lookup_insert_ne in Hm by congruence. rewrite Hc in Hm.
      by apply elem_of_nil in Hm.
  - (* broadcast *)
    pose proof (SaveMessage_table_grows (chatUC w) m0) as [Hgrow Hrow].
    assert (Hs : chatUC w' = (SaveMessage (chatUC w) m0).1).
    { destruct (SaveMessage (chatUC w) m0) as [s' [err|]] eqn:Hsave.
      - rewrite (on_broadcast_failed m0 w s' err) in Hstep by done.
        by injection Hstep as <-.
      - assert (Hopen : open_members w).
        { intros c1 Hc1. eapply on_broadcast_Done_open; [done| |done].
          by rewrite Hsave. }
        destruct (on_broadcast_saved m0 w s' Hsave Hopen)
          as (w1 & Hrun & Hs & _).
        rewrite Hrun in Hstep. by injection Hstep as ->. }
    intros c m Hm. destruct (heap w !! c) as [cl|] eqn:Hc.
    + eapply (Hold c cl Hc); [by rewrite Hs| |done].
      intros m'. unfold gain. rewrite Hs.
      destruct (SaveMessage (chatUC w) m0).2 eqn:He; [done|].
      destruct (decide _); [|done]. destruct (full_at w c); [done|].
      intros [= <-]. by apply Hrow.
    + exfalso. unfold stream in Hm.
      destruct (heap w' !! c) as [cl'|] eqn:Hc'; [|by apply elem_of_nil in Hm].
      destruct (SaveMessage (chatUC w) m0) as [s' [err|]] eqn:Hsave.
      * rewrite (on_broadcast_failed m0 w s' err) in Hstep by done.
        injection Hstep as <-. simpl in Hc'. congruence.
      * assert (Hopen : open_members w).
        { intros c1 Hc1. eapply on_broadcast_Done_open; [done| |done].
          by rewrite Hsave. }
        destruct (on_broadcast_saved m0 w s' Hsave Hopen)
          as (w1 & Hrun & _ & Hh & _).
        rewrite Hrun in Hstep. injection Hstep as ->.
        rewrite Hh, Hc in Hc'. by destruct (decide _).
  - (* writePump *)
    injection Hstep as <-.
    destruct (writePump_recv_fields c0 w) as (_ & Hs & _).
    intros c m Hm. rewrite Hs. apply (Hall c).
    destruct (heap w !! c) as [cl|] eqn:Hc.
    + destruct (writePump_recv_heap c0 w c cl Hc) as (cl' & Hcl' & Hst & _).
      rewrite (stream_lookup _ c cl' Hcl'), Hst in Hm.
      by rewrite (stream_lookup w c cl Hc).
    + exfalso. unfold stream, writePump_recv, chan_recv in Hm.
      destruct (heap w !! c0) as [cl1|] eqn:Hc1;
        [|rewrite Hc in Hm; by apply elem_of_nil in Hm].
      destruct (buf (send cl1));
        [rewrite Hc in Hm; by apply elem_of_nil in Hm|].
      simpl in Hm. rewrite lookup_insert_ne in Hm by congruence.
      rewrite Hc in Hm. by apply elem_of_nil in Hm.
Qed.

(** X10. Nothing reaches a client that is not in the table: in every
    world a run reaches from one where the row of every message of
    every mailbox is in the table, for instance from [NewHub], the same
    holds, be the message from the history or from a broadcast. *)
Theorem delivered_messages_are_persisted es : ∀ w w',
  all_persisted w → run es w = Done w' → all_persisted w'.
Proof.
  induction es as [|e es IH]; intros w w' Hall Hrun; simpl in Hrun.
  - by injection Hrun as <-.
  - destruct (step e w) as [w1| |] eqn:Hstep; simpl in Hrun; try done.
    eapply IH; [|done]. by eapply step_persisted.
Qed.

Lemma all_persisted_NewHub (db : repository.DB) : all_persisted (NewHub db).
Proof.
  intros c m Hm. unfold stream in Hm. simpl in Hm.
  rewrite lookup_empty in Hm. by apply elem_of_nil in Hm.
Qed.

End hub_runs_over_repository.

(** ** The fan-out and the order of [range] *)

Section fanout_and_range.

Context {Store : Type} `{!ChatUseCase Store}.

(** X7. Go leaves the order of [range h.clients] open; the fan-out does
    not depend on it. In whatever order the loop visits the members it
    ends in the same membership set, the same mailboxes and the same
    store, with the same actions in another order, or it panics in
    every order. *)
Theorem fanout_ignores_map_order (m : ChatMessage) (w : World Store) cs :
  cs ≡ₚ range_keys (clients w) →
  match fanout m cs w, fanout m (range_keys (clients w)) w with
  | Done w1, Done w2 =>
      clients w1 = clients w2 ∧ chatUC w1 = chatUC w2 ∧
      heap w1 = heap w2 ∧ trace w1 ≡ₚ trace w2
  | Panic _, Panic _ => True
  | _, _ => False
  end.
Proof.
  intros Hperm. apply fanout_order; [|done].
  rewrite Hperm. apply NoDup_range_keys.
Qed.

End fanout_and_range.

(** ** [readPump] as a whole *)

Section readPump_loop.

Implicit Types (c : ptr) (cl : Client) (env : nat → Tick).

Lemma readPump_decodable c cl env good : ∀ n,
  Forall (λ next, is_Some (ReadJSON next)) good →
  readPump c cl env n good
    = Broadcast <$> submitted (readPump c cl env n good) ∧
  length (submitted (readPump c cl env n good)) = length good.
Proof.
  induction good as [|next good IH]; intros n Hgood; [done|].
  apply Forall_cons in Hgood as [[req Hreq] Hgood]. simpl. rewrite Hreq.
  destruct (IH (S n) Hgood) as [IH1 IH2].
  unfold submitted in *. cbn [omap list_omap broadcast_of].
  rewrite fmap_cons, <-IH1. cbn [length]. by rewrite IH2.
Qed.

(** X13. [readPump] stops at the first read that fails, be it a closed
    connection, a frame over the read limit of 512 bytes or a body that
    is no JSON of the request: every frame before it gives one
    broadcast, in order; then the pump unregisters its own client,
    once, as the last thing it does; whatever the connection would
    have yielded afterwards is never read. *)
Theorem readPump_stops_at_first_failure c cl env n good bad rest :
  Forall (λ next, is_Some (ReadJSON next)) good →
  ReadJSON bad = None →
  readPump c cl env n (good ++ bad :: rest)
    = (Broadcast <$> submitted (readPump c cl env n good))
        ++ [Unregister c] ∧
  length (submitted (readPump c cl env n good)) = length good ∧
  submitted (readPump c cl env n (good ++ bad :: rest))
    = submitted (readPump c cl env n good).
Proof.
  intros Hgood Hbad.
  assert (Happ : ∀ n, readPump c cl env n (good ++ bad :: rest)
                      = readPump c cl env n good ++ [Unregister c]).
  { clear n. induction good as [|next good IH]; intros n; simpl.
    - by rewrite Hbad.
    - apply Forall_cons in Hgood as [[req Hreq] Hgood]. rewrite Hreq.
      simpl. by rewrite IH. }
  destruct (readPump_decodable c cl env good n Hgood) as [Hb Hlen].
  split_and!; [by rewrite Happ, <-Hb|done|].
  rewrite Happ. unfold submitted. rewrite omap_app. simpl.
  by rewrite app_nil_r.
Qed.

End readPump_loop.

(** ** Sample runs of the code around the hub *)

Section more_witnesses.

(** [hello] saved into the empty table and read back without limit. *)
Lemma save_then_get_round_trip_witness :
  repository.SaveMessage empty_db hello
    = ((repository.SaveMessage empty_db hello).1, None) ∧
  ∃ msgs,
    (repository.GetMessages (repository.SaveMessage empty_db hello).1 (-1) 0).2
      = (msgs, None) ∧
    stored hello ∈ msgs.
Proof.
  assert (Hsave : repository.SaveMessage empty_db hello
                  = ((repository.SaveMessage empty_db hello).1, None))
    by reflexivity.
  split; [exact Hsave|].
  destruct (save_then_get_round_trip empty_db hello
              (repository.SaveMessage empty_db hello).1 (-1) Hsave)
    as (msgs & Hget & Hin & _); [reflexivity|left; lia|].
  exists msgs. split; [exact Hget|exact Hin].
Defined.

(** [hello] is in the table already: saving it again is refused. *)
Lemma SaveMessage_keeps_ids_distinct_witness :
  NoDup (table_ids history_db) ∧
  NoDup (table_ids (repository.SaveMessage history_db hello).1) ∧
  (repository.SaveMessage history_db hello).2 = Some ErrConstraint.
Proof.
  assert (Hnd : NoDup (table_ids history_db)).
  { refine (bool_decide_unpack _ _). vm_compute. exact I. }
  split; [exact Hnd|].
  split; [|reflexivity].
  exact (proj1 (SaveMessage_keeps_ids_distinct history_db hello Hnd)).
Defined.

(** The first message and then the second are the first two. *)
Lemma GetMessages_pages_compose_witness :
  (repository.GetMessages history_db 1 0).2.1
    ++ (repository.GetMessages (repository.GetMessages history_db 1 0).1 1 (0 + 1)).2.1
  = (repository.GetMessages history_db (1 + 1) 0).2.1.
Proof.
  apply (GetMessages_pages_compose history_db 1 1 0);
    [lia|lia|lia|reflexivity|reflexivity].
Defined.



(** The limit 1 shows the most recent row, and [Total] is 1. *)
Lemma grpc_GetChatMessages_mirrors_table_witness :
  repository.fails_next history_db = false ∧
  ∃ resp listing, (grpcdel.GetChatMessages 1 0 history_db).2 = inr resp ∧
    grpcdel.Messages resp
      = [ {| grpcdel.Id := "m2"; grpcdel.UserId := "u1";
             grpcdel.TextPb := "again"; grpcdel.CreatedAtPb := 2%Z |} ] ∧
    grpcdel.Total resp = 1%Z ∧
    listing ≡ₚ repository.chat_messages history_db ∧
    StronglySorted repository.more_recent listing ∧
    grpcdel.Messages resp = grpcdel.row_pb <$> take 1 (drop 0 listing).
Proof.
  assert (Hok : repository.fails_next history_db = false) by reflexivity.
  split; [exact Hok|].
  destruct (grpc_GetChatMessages_mirrors_table 1 0 history_db Hok)
    as (resp & listing & Hresp & Hperm & Hsorted & Hcut & _).
  destruct Hcut as [Hrows _]; [lia|].
  exists resp, listing.
  assert (Hshown : resp = {| grpcdel.Messages :=
                       [ {| grpcdel.Id := "m2"; grpcdel.UserId := "u1";
                            grpcdel.TextPb := "again";
                            grpcdel.CreatedAtPb := 2%Z |} ];
                     grpcdel.Total := 1%Z |}).
  { assert (Hrun : (grpcdel.GetChatMessages 1 0 history_db).2
                   = inr {| grpcdel.Messages :=
                              [ {| grpcdel.Id := "m2"; grpcdel.UserId := "u1";
                                   grpcdel.TextPb := "again";
                                   grpcdel.CreatedAtPb := 2%Z |} ];
                            grpcdel.Total := 1%Z |}) by reflexivity.
    rewrite Hresp in Hrun. by injection Hrun. }
  split; [exact Hresp|].
  split; [by rewrite Hshown|]. split; [by rewrite Hshown|].
  split; [exact Hperm|]. split; [exact Hsorted|exact Hrows].
Defined.

(** The sleeper before alice, or alice before the sleeper. *)
Lemma fanout_ignores_map_order_witness :
  [2%positive; 1%positive] ≡ₚ range_keys (clients w_sleeper) ∧
  match fanout hello [2%positive; 1%positive] w_sleeper,
        fanout hello (range_keys (clients w_sleeper)) w_sleeper with
  | Done w1, Done w2 =>
      clients w1 = clients w2 ∧ chatUC w1 = chatUC w2 ∧
      heap w1 = heap w2 ∧ trace w1 ≡ₚ trace w2
  | Panic _, Panic _ => True
  | _, _ => False
  end.
Proof.
  assert (Hperm : [2%positive; 1%positive] ≡ₚ range_keys (clients w_sleeper)).
  { vm_compute. first [apply perm_swap | reflexivity]. }
  split; [exact Hperm|].
  exact (fanout_ignores_map_order hello w_sleeper [2%positive; 1%positive] Hperm).
Defined.

Lemma hub_over_repository_never_stops_witness :
  hub_inv (NewHub flaky_db) ∧
  ∃ w', run [EvServeWs upgrade_request "alice"; EvBroadcast hello;
             EvUnregister 1%positive] (NewHub flaky_db) = Done w' ∧
    hub_inv w'.
Proof.
  split; [apply hub_inv_NewHub|].
  apply hub_over_repository_never_stops, hub_inv_NewHub.
Defined.

Lemma mailboxes_stay_within_capacity_witness :
  within_capacity w_sleeper ∧
  ∃ w', run [EvBroadcast hello; EvBroadcast again] w_sleeper = Done w' ∧
    within_capacity w'.
Proof.
  assert (Hcap : within_capacity w_sleeper).
  { intros c cl Hc.
    destruct (decide (c = 1%positive)) as [->|H1];
      [vm_compute in Hc; injection Hc as <-; split; [reflexivity|];
       apply Nat.leb_le; vm_compute; reflexivity|].
    destruct (decide (c = 2%positive)) as [->|H2];
      [vm_compute in Hc; injection Hc as <-; split; [reflexivity|];
       apply Nat.leb_le; vm_compute; reflexivity|].
    unfold w_sleeper in Hc. simpl in Hc.
    rewrite lookup_insert_ne, lookup_singleton_ne in Hc by done.
    discriminate. }
  split; [exact Hcap|].
  destruct (run [EvBroadcast hello; EvBroadcast again] w_sleeper)
    as [w'|f|] eqn:Hrun; [|vm_compute in Hrun; discriminate..].
  exists w'. split; [reflexivity|].
  exact (mailboxes_stay_within_capacity _ _ _ Hcap Hrun).
Defined.

Lemma delivered_messages_are_persisted_witness :
  all_persisted (NewHub empty_db) ∧
  ∃ w', run [EvServeWs upgrade_request "alice"; EvBroadcast hello]
          (NewHub empty_db) = Done w' ∧
    all_persisted w'.
Proof.
  split; [apply all_persisted_NewHub|].
  destruct (run [EvServeWs upgrade_request "alice"; EvBroadcast hello]
              (NewHub empty_db))
    as [w'|f|] eqn:Hrun; [|vm_compute in Hrun; discriminate..].
  exists w'. split; [reflexivity|].
  exact (delivered_messages_are_persisted _ _ _
           (all_persisted_NewHub empty_db) Hrun).
Defined.

(** Two frames, a frame of 600 bytes and one more frame. *)
Lemma readPump_stops_at_first_failure_witness :
  readPump 1%positive alice sample_env 0
    ([Some {| frame_size := 16; frame_json := Some {| ReqText := "hello" |} |};
      Some {| frame_size := 16; frame_json := Some {| ReqText := "again" |} |}]
     ++ Some {| frame_size := 600; frame_json := Some {| ReqText := "long" |} |}
        :: [Some {| frame_size := 16; frame_json := Some {| ReqText := "late" |} |}])
  = [Broadcast {| ID := "7c1e"; UserID := "alice"; Text := "hello";
                  CreatedAt := 1000000000%Z |};
     Broadcast {| ID := "a2f0"; UserID := "alice"; Text := "again";
                  CreatedAt := 1500000000%Z |};
     Unregister 1%positive].
Proof.
  refine (proj1 (readPump_stops_at_first_failure 1%positive alice sample_env 0
            _ _ _ _ _)); [|reflexivity].
  repeat constructor; by eexists.
Defined.

End more_witnesses.

(** ** [writePump] beside the hub *)

Section writePump_loop.

Context {Store : Type} `{!ChatUseCase Store}.
Implicit Types (w : World Store) (c : ptr) (k : Conn) (cl : Client).

(** A step that is not a receive of the pump of [c] leaves what the
    pump took as it is and never reopens the mailbox. *)
Lemma step_other c e w w' cl :
  step e w = Done w' → heap w !! c = Some cl → e ≠ EvWritePump c →
  ∃ cl', heap w' !! c = Some cl' ∧ pumped cl' = pumped cl ∧
    (closed (send cl) = true → closed (send cl') = true) ∧
    buf (send cl') = buf (send cl) ++ gain e w c.
Proof.
  intros Hstep Hc Hne.
  destruct (step_client e w w' c cl Hstep Hc) as (cl' & Hcl' & Hs & _).
  exists cl'. split; [done|].
  assert (Hp : pumped cl' = pumped cl ∧
               (closed (send cl) = true → closed (send cl') = true)).
  { destruct e as [r uid|c0|m|c0]; simpl in Hstep.
    - destruct (accepted r) eqn:Hacc.
      + rewrite ServeWs_accepted in Hstep by done.
        apply on_register_Done in Hstep as (_ & _ & Ho & _ & _).
        pose proof (fresh_heap w c cl Hc) as Hfr. simpl in Ho.
        rewrite Ho, lookup_insert_ne in Hcl' by done.
        by assert (cl' = cl) as -> by congruence.
      + rewrite ServeWs_rejected in Hstep by done. injection Hstep as <-.
        by assert (cl' = cl) as -> by congruence.
    - apply on_unregister_Done in Hstep
        as [[_ ->]|(b & cl0 & _ & Hcl0 & _ & ->)].
      + by assert (cl' = cl) as -> by congruence.
      + simpl in Hcl'. destruct (decide (c = c0)) as [->|Hne'].
        * rewrite lookup_insert_eq in Hcl'. injection Hcl' as <-.
          by assert (cl0 = cl) as -> by congruence.
        * rewrite lookup_insert_ne in Hcl' by done.
          by assert (cl' = cl) as -> by congruence.
    - destruct (SaveMessage (chatUC w) m) as [s' [err|]] eqn:Hsave.
      + rewrite (on_broadcast_failed m w s' err) in Hstep by done.
        injection Hstep as <-. simpl in Hcl'.
        by assert (cl' = cl) as -> by congruence.
      + assert (Hopen : open_members w).
        { intros c1 Hc1. eapply on_broadcast_Done_open; [done| |done].
          by rewrite Hsave. }
        destruct (on_broadcast_saved m w s' Hsave Hopen)
          as (w1 & Hrun & _ & Hh & _).
        rewrite Hrun in Hstep. injection Hstep as ->.
        rewrite Hh, Hc in Hcl'.
        destruct (decide (is_Some (clients w !! c))); simpl in Hcl';
          injection Hcl' as <-; [|done].
        unfold after_delivery. by destruct (has_room (send cl)).
    - injection Hstep as <-.
      assert (c ≠ c0) as Hne' by (intros ->; done).
      unfold writePump_recv, chan_recv in Hcl'.
      destruct (heap w !! c0) as [cl0|];
        [|by assert (cl' = cl) as -> by congruence].
      destruct (buf (send cl0));
        [by assert (cl' = cl) as -> by congruence|].
      simpl in Hcl'. rewrite lookup_insert_ne in Hcl' by done.
      by assert (cl' = cl) as -> by congruence. }
  destruct Hp as [Hp Hcl]. split_and!; try done.
  unfold mailbox_stream in Hs. rewrite Hp, <-app_assoc in Hs.
  by apply app_inv_head in Hs.
Qed.

Lemma texts_snoc (fs : list WireFrame) (f : WireFrame) :
  texts (fs ++ [f]) = texts fs ++ from_option (λ m, [m]) [] (text_of f).
Proof.
  unfold texts. rewrite omap_app. simpl. by destruct (text_of f).
Qed.

Lemma hub_move_pump_inv c e w w' k :
  hub_inv w → step e w = Done w' → e ≠ EvWritePump c →
  pump_inv c w k → pump_inv c w' k.
Proof.
  intros [Hopen _] Hstep Hne (cl & Hc & Hrun & Hlost & Hclose).
  destruct (step_other c e w w' cl Hstep Hc Hne)
    as (cl' & Hcl' & Hp & Hcl & Hbuf).
  exists cl'. rewrite Hp. split_and!; try done.
  intros Hin. destruct (Hclose Hin) as (Hret & Hpum & Hclosed & Hempty & Hfs).
  split_and!; try done; [by apply Hcl|].
  rewrite Hbuf, Hempty. simpl. apply gain_nonmember.
  destruct (clients w !! c) as [b|] eqn:Hb; [|done].
  destruct (Hopen c) as (cl0 & Hcl0 & Hop); [by exists b|]. congruence.
Qed.

Lemma writePump_recv_head c w cl m rest :
  heap w !! c = Some cl → buf (send cl) = m :: rest →
  heap (writePump_recv c w) !! c
    = Some {| send := {| buf := rest; cap := cap (send cl);
                         closed := closed (send cl) |};
              userID := userID cl; pumped := pumped cl ++ [m] |}.
Proof.
  intros Hc Hbuf. unfold writePump_recv, chan_recv. rewrite Hc, Hbuf. simpl.
  by rewrite lookup_insert_eq.
Qed.

Lemma pump_move_pump_inv c t w k :
  pump_inv c w k →
  pump_inv c (writePump_turn c t (w, k)).1 (writePump_turn c t (w, k)).2.
Proof.
  intros Hinv. pose proof Hinv as (cl & Hc & Hrun & Hlost & Hclose).
  unfold writePump_turn. destruct (returned k) eqn:Hret; [done|].
  destruct (Hrun eq_refl) as [Hpum Hno].
  destruct t as [write_ok flush_ok|ping_ok].
  - rewrite Hc. destruct (buf (send cl)) as [|m rest] eqn:Hbuf.
    + destruct (closed (send cl)) eqn:Hclosed; [|done].
      simpl. exists cl. split; [done|]. split; [done|].
      destruct write_ok; simpl.
      * rewrite texts_snoc. simpl. rewrite app_nil_r.
        split; [exists []; rewrite app_nil_r; split; [done|simpl; lia]|].
        intros _. split_and!; try done. by exists (wire k).
      * rewrite app_nil_r. split; [exists []; rewrite app_nil_r; split; [done|simpl; lia]|done].
    + pose proof (writePump_recv_head c w cl m rest Hc Hbuf) as Hhead.
      destruct write_ok; simpl; [destruct flush_ok; simpl|].
      * eexists. split; [done|]. simpl. rewrite texts_snoc, Hpum. simpl.
        assert (Hno' : CloseFrame ∉ wire k ++ [TextFrame m]).
        { rewrite elem_of_app, list_elem_of_singleton. by intros [?|?]. }
        split_and!; try done. exists []. rewrite app_nil_r. split; [done|simpl; lia].
      * eexists. split; [done|]. simpl. rewrite Hpum.
        split_and!; try done. exists [m]. split; [done|simpl; lia].
      * eexists. split; [done|]. simpl. rewrite Hpum.
        split_and!; try done. exists [m]. split; [done|simpl; lia].
  - destruct ping_ok; simpl.
    + exists cl. simpl. rewrite texts_snoc. simpl. rewrite app_nil_r.
      assert (Hno' : CloseFrame ∉ wire k ++ [PingFrame]).
      { rewrite elem_of_app, list_elem_of_singleton. by intros [?|?]. }
      split_and!; try done.
    + exists cl. simpl. split_and!; try done.
Qed.

Lemma pump_move_hub_inv c t w k :
  hub_inv w → hub_inv (writePump_turn c t (w, k)).1.
Proof.
  intros Hinv.
  assert (Hrecv : hub_inv (writePump_recv c w)).
  { by apply (step_inv (EvWritePump c) w). }
  unfold writePump_turn. destruct (returned k); [done|].
  destruct t as [write_ok flush_ok|ping_ok]; [|by destruct ping_ok].
  destruct (heap w !! c) as [cl|]; [|done].
  destruct (buf (send cl)).
  - by destruct (closed (send cl)).
  - by destruct write_ok, flush_ok.
Qed.

Lemma moves_inv c mvs : ∀ (s s' : World Store * Conn),
  hub_inv s.1 → pump_inv c s.1 s.2 →
  HubMove (EvWritePump c) ∉ mvs →
  moves c mvs s = Done s' →
  hub_inv s'.1 ∧ pump_inv c s'.1 s'.2.
Proof.
  induction mvs as [|mv mvs IH]; intros [w k] s' Hinv Hpump Hnot Hrun;
    simpl in Hrun.
  - by injection Hrun as <-.
  - apply not_elem_of_cons in Hnot as [Hmv Hnot].
    destruct mv as [e|t]; simpl in Hrun.
    + destruct (step e w) as [w1| |] eqn:Hstep; simpl in Hrun; try done.
      apply (IH (w1, k) s'); simpl; try done.
      * by eapply step_inv.
      * eapply hub_move_pump_inv; try done. by intros ->.
    + apply (IH (writePump_turn c t (w, k)) s'); try done.
      * by apply pump_move_hub_inv.
      * by apply pump_move_pump_inv.
Qed.

Lemma pump_starts_inv c w k : pump_starts c w k → pump_inv c w k.
Proof.
  intros (_ & -> & cl & Hc & Hp). exists cl. simpl. rewrite Hp.
  split_and!; try done.
  - intros _. split; [done|]. by intros ?%elem_of_nil.
  - exists []. split; [done|simpl; lia].
  - by intros ?%elem_of_nil.
Qed.

(** X11. What the peer receives is the client's stream, in order and
    without gaps or repeats: with the hub and [writePump] running side
    by side from the state [ServeWs] leaves, the messages on the wire,
    then at most one message that was taken off the mailbox and lost in
    a failed write, then the mailbox make up the stream of everything
    the hub ever queued for the client; while the pump runs nothing is
    lost. *)
Theorem wire_carries_the_stream_in_order c mvs w k w' k' :
  pump_starts c w k →
  HubMove (EvWritePump c) ∉ mvs →
  moves c mvs (w, k) = Done (w', k') →
  ∃ lost,
    stream w' c = texts (wire k') ++ lost ++ mailbox w' c ∧
    (length lost ≤ 1)%nat ∧
    (returned k' = false → lost = []).
Proof.
  intros Hstart Hnot Hrun.
  destruct (moves_inv c mvs (w, k) (w', k')) as [_ Hinv]; try done.
  { apply Hstart. }
  { by apply pump_starts_inv. }
  simpl in Hinv. destruct Hinv as (cl & Hc & Hrunning & (lost & Hp & Hlen) & _).
  unfold stream, mailbox, mailbox_stream. rewrite Hc.
  destruct (returned k') eqn:Hret.
  - exists lost. rewrite Hp, <-app_assoc. done.
  - destruct (Hrunning eq_refl) as [Hpum _]. exists []. rewrite Hpum.
    split_and!; [done|simpl; lia|done].
Qed.

(** X12. [writePump] writes its close frame last, when nothing is left
    to send. [wire] lists the frames [writePump] has written; if a
    close frame is among them, the hub had closed the mailbox of the
    client and [writePump] has found it closed and empty and has
    returned, the close frame is the last frame it wrote and the only
    close frame it wrote, the client is no member any more, and every
    message the hub ever queued for the client was written before the
    close frame. (A close frame the read side of the library sends in
    answer to a close frame of the peer is not a frame of [writePump]
    and is outside this statement.) *)
Theorem close_frame_ends_the_wire c mvs w k w' k' :
  pump_starts c w k →
  HubMove (EvWritePump c) ∉ mvs →
  moves c mvs (w, k) = Done (w', k') →
  CloseFrame ∈ wire k' →
  returned k' = true ∧
  (∃ fs, wire k' = fs ++ [CloseFrame] ∧ CloseFrame ∉ fs) ∧
  texts (wire k') = stream w' c ∧
  mailbox w' c = [] ∧
  clients w' !! c = None ∧
  (∃ cl, heap w' !! c = Some cl ∧ closed (send cl) = true ∧
     buf (send cl) = [] ∧ pumped cl = texts (wire k')).
Proof.
  intros Hstart Hnot Hrun Hin.
  destruct (moves_inv c mvs (w, k) (w', k')) as [[Hopen _] Hinv]; try done.
  { apply Hstart. }
  { by apply pump_starts_inv. }
  simpl in *. destruct Hinv as (cl & Hc & _ & _ & Hclose).
  destruct (Hclose Hin) as (Hret & Hpum & Hclosed & Hempty & Hfs).
  unfold stream, mailbox, mailbox_stream. rewrite Hc, Hempty, app_nil_r.
  split_and!; try done; [|by exists cl].
  destruct (clients w' !! c) as [b|] eqn:Hb; [|done].
  destruct (Hopen c) as (cl0 & Hcl0 & Hop); [by exists b|]. congruence.
Qed.

End writePump_loop.

Section writePump_witnesses.

(** [ServeWs] leaves the new client and its connection ready for the
    pump. *)
Lemma pump_starts_after_ServeWs r uid (w0 w : World repository.DB) :
  hub_inv w0 → accepted r = true → ServeWs r uid w0 = Done w →
  pump_starts (fresh (dom (heap w0))) w fresh_conn.
Proof.
  intros Hinv Hacc Hrun. split_and!; [|done|].
  - by apply (step_inv (EvServeWs r uid) w0).
  - rewrite ServeWs_accepted in Hrun by done.
    apply on_register_Done in Hrun as (_ & _ & _ & Hc0 & _).
    simpl in Hc0. rewrite lookup_insert_eq in Hc0. simpl in Hc0.
    eexists. split; [exact Hc0|done].
Qed.

(** Alice connects to a hub with two messages of history; her pump
    writes the first, the hub broadcasts a third, and the write of the
    second fails: one message on the wire, one lost, one waiting. *)
Lemma wire_carries_the_stream_in_order_witness :
  ∃ w w' k',
    pump_starts 1%positive w fresh_conn ∧
    (HubMove (EvWritePump 1%positive)
       ∉ [PumpMove (TurnSend true true);
          HubMove (EvBroadcast
                     {| ID := "m3"; UserID := "u2"; Text := "third";
                        CreatedAt := 3000000000%Z |});
          PumpMove (TurnSend true false)]) ∧
    moves 1%positive
      [PumpMove (TurnSend true true);
       HubMove (EvBroadcast
                  {| ID := "m3"; UserID := "u2"; Text := "third";
                     CreatedAt := 3000000000%Z |});
       PumpMove (TurnSend true false)] (w, fresh_conn) = Done (w', k') ∧
    ∃ lost,
      stream w' 1%positive = texts (wire k') ++ lost ++ mailbox w' 1%positive ∧
      (length lost ≤ 1)%nat ∧
      (returned k' = false → lost = []).
Proof.
  destruct (ServeWs upgrade_request "alice" (NewHub history_db))
    as [w|f|] eqn:Hserve; [|vm_compute in Hserve; discriminate..].
  assert (Hstart : pump_starts 1%positive w fresh_conn).
  { exact (pump_starts_after_ServeWs upgrade_request "alice"
             (NewHub history_db) w (hub_inv_NewHub history_db)
             eq_refl Hserve). }
  set (mvs := [PumpMove (TurnSend true true);
               HubMove (EvBroadcast
                          {| ID := "m3"; UserID := "u2"; Text := "third";
                             CreatedAt := 3000000000%Z |});
               PumpMove (TurnSend true false)]).
  assert (Hnot : HubMove (EvWritePump 1%positive) ∉ mvs).
  { intros Hin. unfold mvs in Hin.
    repeat (apply elem_of_cons in Hin as [Hin|Hin]; [discriminate|]).
    by apply elem_of_nil in Hin. }
  destruct (moves 1%positive mvs (w, fresh_conn)) as [[w' k']|f|] eqn:Hrun;
    [|vm_compute in Hserve; injection Hserve as <-;
      vm_compute in Hrun; discriminate..].
  exists w, w', k'. split; [exact Hstart|]. split; [exact Hnot|].
  split; [exact Hrun|].
  exact (wire_carries_the_stream_in_order 1%positive mvs w fresh_conn w' k'
           Hstart Hnot Hrun).
Defined.

(** Alice's pump writes both messages of the history, her read pump
    unregisters her, and the pump finds the mailbox closed. *)
Lemma close_frame_ends_the_wire_witness :
  ∃ w w' k',
    pump_starts 1%positive w fresh_conn ∧
    (HubMove (EvWritePump 1%positive)
       ∉ [PumpMove (TurnSend true true); PumpMove (TurnSend true true);
          HubMove (EvUnregister 1%positive); PumpMove (TurnSend true true)]) ∧
    moves 1%positive
      [PumpMove (TurnSend true true); PumpMove (TurnSend true true);
       HubMove (EvUnregister 1%positive); PumpMove (TurnSend true true)]
      (w, fresh_conn) = Done (w', k') ∧
    CloseFrame ∈ wire k' ∧
    returned k' = true ∧
    texts (wire k') = stream w' 1%positive ∧
    clients w' !! 1%positive = None.
Proof.
  destruct (ServeWs upgrade_request "alice" (NewHub history_db))
    as [w|f|] eqn:Hserve; [|vm_compute in Hserve; discriminate..].
  assert (Hstart : pump_starts 1%positive w fresh_conn).
  { exact (pump_starts_after_ServeWs upgrade_request "alice"
             (NewHub history_db) w (hub_inv_NewHub history_db)
             eq_refl Hserve). }
  set (mvs := [PumpMove (TurnSend true true); PumpMove (TurnSend true true);
               HubMove (EvUnregister 1%positive);
               PumpMove (TurnSend true true)]).
  assert (Hnot : HubMove (EvWritePump 1%positive) ∉ mvs).
  { intros Hin. unfold mvs in Hin.
    repeat (apply elem_of_cons in Hin as [Hin|Hin]; [discriminate|]).
    by apply elem_of_nil in Hin. }
  destruct (moves 1%positive mvs (w, fresh_conn)) as [[w' k']|f|] eqn:Hrun;
    [|vm_compute in Hserve; injection Hserve as <-;
      vm_compute in Hrun; discriminate..].
  assert (Hin : CloseFrame ∈ wire k').
  { pose proof Hrun as Hrun'.
    vm_compute in Hserve. injection Hserve as <-.
    vm_compute in Hrun'. injection Hrun' as _ <-. simpl.
    repeat (apply elem_of_cons; first [by left | right]). }
  destruct (close_frame_ends_the_wire 1%positive mvs w fresh_conn w' k'
              Hstart Hnot Hrun Hin) as (Hret & _ & Htexts & _ & Hcs & _).
  exists w, w', k'. split_and!; try done.
Defined.

End writePump_witnesses.

(** * Comments *)

Lemma filter_ext_elem_of {A} (P1 P2 : A → Prop)
    `{!∀ x, Decision (P1 x), !∀ x, Decision (P2 x)} (l : list A) :
  (∀ x, x ∈ l → P1 x ↔ P2 x) → filter P1 l = filter P2 l.
Proof.
  induction l as [|x l IH]; intros Hext; [done|].
  rewrite !filter_cons.
  assert (Hl : filter P1 l = filter P2 l).
  { apply IH. intros y Hy. apply Hext. by right. }
  assert (Hx : P1 x ↔ P2 x) by (apply Hext; by left).
  rewrite Hl. destruct (decide (P1 x)), (decide (P2 x)); tauto.
Qed.

Section comment_facts.

Import comments.
Import comments.Repository.

Implicit Types (r : Row) (l : list Row) (db : DB) (id : string).

Lemma next_fault_comments db : comments (next_fault db).2 = comments db.
Proof. unfold next_fault. by destruct (driver_faults db). Qed.

Lemma works_for_S n db :
  comments_works_for (S n) db = true →
  fails_next db = false ∧ comments_works_for n (next_fault db).2 = true.
Proof.
  unfold comments_works_for, fails_next, next_fault.
  destruct (driver_faults db) as [|f rest] eqn:Hfaults; simpl.
  - intros _. split; [done|]. by rewrite Hfaults, take_nil.
  - intros [Hf Hrest]%andb_prop. split; [by destruct f|done].
Qed.

Lemma find_id_fresh l r :
  row_id r ∉ row_id <$> l →
  List.find (λ x, bool_decide (row_id x = row_id r)) (l ++ [r]) = Some r.
Proof.
  induction l as [|x l IH]; intros Hnot.
  - simpl. by rewrite bool_decide_eq_true_2.
  - rewrite fmap_cons in Hnot. apply not_elem_of_cons in Hnot as [Hne Hnot].
    simpl. rewrite bool_decide_eq_false_2 by done. by apply IH.
Qed.

Lemma find_id_unique l r :
  NoDup (row_id <$> l) → r ∈ l →
  List.find (λ x, bool_decide (row_id x = row_id r)) l = Some r.
Proof.
  induction l as [|x l IH]; intros Hnd Hin.
  - by apply elem_of_nil in Hin.
  - rewrite fmap_cons in Hnd. apply NoDup_cons in Hnd as [Hx Hnd].
    apply elem_of_cons in Hin as [->|Hin]; simpl.
    + by rewrite bool_decide_eq_true_2.
    + rewrite bool_decide_eq_false_2; [by apply IH|].
      intros Heq. apply Hx. rewrite Heq. by apply list_elem_of_fmap_2.
Qed.

Lemma find_id_None l id :
  id ∉ row_id <$> l →
  List.find (λ x, bool_decide (row_id x = id)) l = None.
Proof.
  induction l as [|x l IH]; intros Hnot; [done|].
  rewrite fmap_cons in Hnot. apply not_elem_of_cons in Hnot as [Hne Hnot].
  simpl. rewrite bool_decide_eq_false_2 by done. by apply IH.
Qed.

Lemma find_id_Some l id r :
  List.find (λ x, bool_decide (row_id x = id)) l = Some r →
  r ∈ l ∧ row_id r = id.
Proof.
  intros [Hin Hid]%find_some. split; [by apply list_elem_of_In|].
  by apply bool_decide_eq_true_1 in Hid.
Qed.

(** What the statements do when the driver lets them through. *)

Lemma Repository_GetByID_spec db id :
  comments (Repository.GetByID db id).1 = comments db ∧
  (Repository.GetByID db id).1 = (next_fault db).2 ∧
  (Repository.GetByID db id).2 =
    if fails_next db then inl (Sql ErrDriver)
    else match List.find (λ x, bool_decide (row_id x = id)) (comments db) with
         | None => inl NotFound
         | Some r => inr (scan r)
         end.
Proof.
  unfold Repository.GetByID, fails_next.
  pose proof (next_fault_comments db) as Htab.
  destruct (next_fault db) as [[|] db1]; simpl in *; [done|].
  rewrite Htab. by destruct (List.find _ _).
Qed.

Lemma Repository_Create_spec db (c : Comment) :
  (Repository.Create db c).2 = None ∧ (ID c ∉ ids db) ∧
    fails_next db = false ∧
    comments (Repository.Create db c).1 = comments db ++ [to_row c] ∧
    driver_faults (Repository.Create db c).1 = driver_faults (next_fault db).2
  ∨ (Repository.Create db c).2 ≠ None ∧
    comments (Repository.Create db c).1 = comments db.
Proof.
  unfold Repository.Create, exec_insert, fails_next, ids.
  pose proof (next_fault_comments db) as Htab.
  destruct (next_fault db) as [[|] db1]; simpl in *; [by right|].
  rewrite Htab. case_bool_decide as Hin; simpl; [by right|].
  by left.
Qed.

Lemma Repository_Update_spec db id content :
  if fails_next db
  then (Repository.Update db id content).2 = Some (Sql ErrDriver) ∧
       comments (Repository.Update db id content).1 = comments db
  else (Repository.Update db id content).2 = None ∧
       comments (Repository.Update db id content).1 =
         (λ r, if bool_decide (row_id r = id) then with_content content r else r)
           <$> comments db ∧
       driver_faults (Repository.Update db id content).1
         = driver_faults (next_fault db).2.
Proof.
  unfold Repository.Update, fails_next.
  pose proof (next_fault_comments db) as Htab.
  destruct (next_fault db) as [[|] db1]; simpl in *; [done|].
  by rewrite Htab.
Qed.

Lemma Repository_Delete_spec db id :
  if fails_next db
  then (Repository.Delete db id).2 = Some (Sql ErrDriver) ∧
       comments (Repository.Delete db id).1 = comments db
  else (Repository.Delete db id).2 = None ∧
       comments (Repository.Delete db id).1 =
         filter (λ r, row_id r ≠ id) (comments db) ∧
       driver_faults (Repository.Delete db id).1
         = driver_faults (next_fault db).2.
Proof.
  unfold Repository.Delete, fails_next.
  pose proof (next_fault_comments db) as Htab.
  destruct (next_fault db) as [[|] db1]; simpl in *; [done|].
  by rewrite Htab.
Qed.

Lemma RFC3339_round_trip (t : Time) :
  (t - 1000000000
     < repository.parse_RFC3339 (repository.format_RFC3339 t) ≤ t)%Z.
Proof.
  unfold repository.parse_RFC3339, repository.format_RFC3339.
  pose proof (Z.mul_div_le t 1000000000).
  pose proof (Z.mul_succ_div_gt t 1000000000). lia.
Qed.

(** The table after [CommentUseCase.Update]: as before, or the comment
    with this id was read, is the caller's, and the statement ran. *)
Lemma UseCase_Update_table db id content a :
  comments (UseCase.Update db id content a).1 = comments db ∨
  ∃ r0, List.find (λ x, bool_decide (row_id x = id)) (comments db) = Some r0 ∧
    row_author_id r0 = a ∧
    comments (UseCase.Update db id content a).1 =
      (λ r, if bool_decide (row_id r = id) then with_content content r else r)
        <$> comments db.
Proof.
  unfold UseCase.Update.
  destruct (Repository_GetByID_spec db id) as (Htab1 & _ & Hres1).
  destruct (Repository.GetByID db id) as [db1 [e|c]]; simpl in *; [by left|].
  destruct (fails_next db); [done|].
  destruct (List.find _ (comments db)) as [r0|] eqn:Hfind; [|done].
  injection Hres1 as ->. simpl.
  case_bool_decide as Hauth; simpl; [|by left].
  pose proof (Repository_Update_spec db1 id content) as Hupd.
  destruct (Repository.Update db1 id content) as [db2 [e|]]; simpl in *.
  { left. destruct (fails_next db1); [|by destruct Hupd].
    destruct Hupd as [_ ->]. done. }
  destruct (fails_next db1); [by destruct Hupd|].
  destruct Hupd as (_ & Htab2 & _).
  destruct (Repository_GetByID_spec db2 id) as (Htab3 & _ & _).
  right. exists r0. split; [done|]. split; [done|].
  destruct (Repository.GetByID db2 id) as [db3 [e|c]]; simpl in *;
    by rewrite Htab3, Htab2, Htab1.
Qed.

Lemma UseCase_Delete_table db id a :
  comments (UseCase.Delete db id a).1 = comments db ∨
  ∃ r0, List.find (λ x, bool_decide (row_id x = id)) (comments db) = Some r0 ∧
    row_author_id r0 = a ∧
    comments (UseCase.Delete db id a).1
      = filter (λ r, row_id r ≠ id) (comments db).
Proof.
  unfold UseCase.Delete.
  destruct (Repository_GetByID_spec db id) as (Htab1 & _ & Hres1).
  destruct (Repository.GetByID db id) as [db1 [e|c]]; simpl in *; [by left|].
  destruct (fails_next db); [done|].
  destruct (List.find _ (comments db)) as [r0|] eqn:Hfind; [|done].
  injection Hres1 as ->. simpl.
  case_bool_decide as Hauth; simpl; [|by left].
  pose proof (Repository_Delete_spec db1 id) as Hdel.
  destruct (Repository.Delete db1 id) as [db2 [e|]]; simpl in *.
  { left. destruct (fails_next db1); [|by destruct Hdel].
    destruct Hdel as [_ ->]. done. }
  destruct (fails_next db1); [by destruct Hdel|].
  destruct Hdel as (_ & Htab2 & _).
  right. exists r0. split; [done|]. split; [done|]. by rewrite Htab2, Htab1.
Qed.

Lemma same_id_same_row l r r0 :
  NoDup (row_id <$> l) → r ∈ l →
  List.find (λ x, bool_decide (row_id x = row_id r)) l = Some r0 → r0 = r.
Proof.
  intros Hnd Hin Hfind. rewrite (find_id_unique l r Hnd Hin) in Hfind.
  by injection Hfind.
Qed.

(** X14. A comment that [CommentUseCase.Create] accepted is read back
    by [GetByID] under its generated id with the content and the post
    of the request, the caller as author, and the time of creation cut
    to the whole second. *)
Theorem comment_create_then_get env db req a db1 c :
  UseCase.Create env db req a = (db1, inr c) →
  fails_next db1 = false →
  c = NewComment env req a ∧
  ∃ c', (UseCase.GetByID db1 (ID c)).2 = inr c' ∧
    ID c' = uuid_New env ∧ Content c' = ReqContent req ∧
    PostID c' = ReqPostID req ∧ AuthorID c' = a ∧
    (time_Now env - 1000000000 < CreatedAt c' ≤ time_Now env)%Z.
Proof.
  unfold UseCase.Create. intros Hcreate Hok.
  destruct (Repository_Create_spec db (NewComment env req a))
    as [(Hnone & Hfresh & _ & Htab & _)|[Herr _]];
    destruct (Repository.Create db (NewComment env req a)) as [db' [e|]];
    simpl in *; try done.
  injection Hcreate as -> <-. split; [done|].
  unfold UseCase.GetByID.
  destruct (Repository_GetByID_spec db1 (ID (NewComment env req a)))
    as (_ & _ & Hres).
  rewrite Hok, Htab in Hres.
  change (ID (NewComment env req a)) with (row_id (to_row (NewComment env req a)))
    in Hres at 2.
  rewrite find_id_fresh in Hres by done.
  destruct (Repository.GetByID db1 _) as [db2 [e|c']]; simpl in *; [done|].
  injection Hres as ->. eexists. split; [done|]. simpl.
  split_and!; try done; apply RFC3339_round_trip.
Qed.

(** X15. Nobody but its author changes or deletes a comment: with ids
    distinct, as the primary key keeps them, a comment of another
    author is in the table after [Update] and after [Delete] as it was
    before, whatever the id asked for and whatever the driver does; and
    when it is the comment asked for and the driver answers, both
    return "unauthorized" and leave the whole table as it was. *)
Theorem only_the_author_changes_a_comment db id content a r :
  NoDup (ids db) → r ∈ comments db → row_author_id r ≠ a →
  r ∈ comments (UseCase.Update db id content a).1 ∧
  r ∈ comments (UseCase.Delete db id a).1 ∧
  (row_id r = id → fails_next db = false →
     (UseCase.Update db id content a).2 = inl Unauthorized ∧
     (UseCase.Delete db id a).2 = Some Unauthorized ∧
     comments (UseCase.Update db id content a).1 = comments db ∧
     comments (UseCase.Delete db id a).1 = comments db).
Proof.
  intros Hnd Hin Hauthor. split_and!.
  - destruct (UseCase_Update_table db id content a)
      as [->|(r0 & Hfind & Ha & ->)]; [done|].
    apply list_elem_of_fmap. exists r. split; [|done].
    rewrite bool_decide_eq_false_2; [done|]. intros <-.
    apply (same_id_same_row _ r r0 Hnd Hin) in Hfind. congruence.
  - destruct (UseCase_Delete_table db id a)
      as [->|(r0 & Hfind & Ha & ->)]; [done|].
    apply list_elem_of_filter. split; [|done]. intros <-.
    apply (same_id_same_row _ r r0 Hnd Hin) in Hfind. congruence.
  - intros <- Hok.
    destruct (Repository_GetByID_spec db (row_id r)) as (Htab & _ & Hres).
    rewrite Hok, (find_id_unique _ r Hnd Hin) in Hres.
    unfold UseCase.Update, UseCase.Delete.
    destruct (Repository.GetByID db (row_id r)) as [db1 [e|c]]; simpl in *;
      [done|].
    injection Hres as ->. simpl.
    rewrite bool_decide_eq_false_2 by done. simpl. done.
Qed.

Lemma fails_next_lookup db :
  fails_next db = default false (driver_faults db !! 0%nat).
Proof. unfold fails_next, next_fault. by destruct (driver_faults db). Qed.

Lemma driver_faults_next db :
  driver_faults (next_fault db).2 = drop 1 (driver_faults db).
Proof.
  unfold next_fault. destruct (driver_faults db) eqn:Hf; simpl; [|done].
  by rewrite Hf.
Qed.

Lemma works_for_2 db :
  comments_works_for 2 db = true →
  fails_next db = false ∧ fails_next (next_fault db).2 = false.
Proof.
  intros [H1 H2]%works_for_S. by apply works_for_S in H2 as [H2 _].
Qed.

(** X16. The author deletes a comment: when the comment with this id
    is the caller's and the driver answers the two statements, [Delete]
    returns no error and removes that comment and no other; afterwards
    the id is not in the table, [GetByID] answers "comment not found"
    and so does a second [Delete], which is thus no repetition of the
    first. *)
Theorem author_deletes_comment db id a r :
  NoDup (ids db) → r ∈ comments db → row_id r = id → row_author_id r = a →
  comments_works_for 2 db = true →
  (UseCase.Delete db id a).2 = None ∧
  comments (UseCase.Delete db id a).1
    = filter (λ x, x ≠ r) (comments db) ∧
  (id ∉ ids (UseCase.Delete db id a).1) ∧
  (fails_next (UseCase.Delete db id a).1 = false →
     (UseCase.GetByID (UseCase.Delete db id a).1 id).2 = inl NotFound ∧
     (UseCase.Delete (UseCase.Delete db id a).1 id a).2 = Some NotFound).
Proof.
  intros Hnd Hin <- <- [Hok1 Hok2]%works_for_2.
  destruct (Repository_GetByID_spec db (row_id r)) as (Htab1 & Hdb1 & Hres1).
  rewrite Hok1, (find_id_unique _ r Hnd Hin) in Hres1.
  assert (Hfilter : filter (λ x, row_id x ≠ row_id r) (comments db)
                    = filter (λ x, x ≠ r) (comments db)).
  { apply filter_ext_elem_of. intros x Hx. split; [by intros ? ->|].
    intros Hne Hid. apply Hne.
    pose proof (find_id_unique _ x Hnd Hx) as Hfx. rewrite Hid in Hfx.
    rewrite (find_id_unique _ r Hnd Hin) in Hfx. by injection Hfx. }
  assert (Hdel : (UseCase.Delete db (row_id r) (row_author_id r)).2 = None ∧
            comments (UseCase.Delete db (row_id r) (row_author_id r)).1
              = filter (λ x, row_id x ≠ row_id r) (comments db)).
  { unfold UseCase.Delete.
    destruct (Repository.GetByID db (row_id r)) as [db1 [e|c]]; simpl in *;
      [done|].
    injection Hres1 as ->. simpl. rewrite bool_decide_eq_true_2 by done.
    simpl. pose proof (Repository_Delete_spec db1 (row_id r)) as Hdel.
    rewrite <-Hdb1 in Hok2. rewrite Hok2 in Hdel.
    destruct Hdel as (Hnone & Htab2 & _).
    destruct (Repository.Delete db1 (row_id r)) as [db2 [e|]]; simpl in *;
      [done|].
    by rewrite Htab2, Htab1. }
  destruct Hdel as [Hnone Htab].
  assert (Hgone : row_id r ∉ ids (UseCase.Delete db (row_id r) (row_author_id r)).1).
  { unfold ids. rewrite Htab. intros (x & Hid & Hx)%list_elem_of_fmap.
    apply list_elem_of_filter in Hx as [Hne _]. by apply Hne. }
  split_and!; try done; [by rewrite Htab, Hfilter|].
  intros Hok3.
  set (db' := (UseCase.Delete db (row_id r) (row_author_id r)).1) in *.
  destruct (Repository_GetByID_spec db' (row_id r)) as (_ & _ & Hres).
  rewrite Hok3, (find_id_None _ _ Hgone) in Hres.
  unfold UseCase.GetByID, UseCase.Delete.
  by destruct (Repository.GetByID db' (row_id r)) as [db3 [e|c]];
    simpl in *; simplify_eq.
Qed.

(** X17. The author updates a comment: when the comment with this id
    is the caller's and the driver answers the first two statements,
    the table has the new content in that row and is otherwise as
    before, ids and order included. What [Update] returns depends on
    the third statement, the read of the updated row: the comment with
    the new content, or the error of that read, with the new content
    written all the same. *)
Theorem author_updates_comment db id content a r :
  NoDup (ids db) → r ∈ comments db → row_id r = id → row_author_id r = a →
  comments_works_for 2 db = true →
  comments (UseCase.Update db id content a).1
    = (λ x, if bool_decide (x = r) then with_content content r else x)
        <$> comments db ∧
  ids (UseCase.Update db id content a).1 = ids db ∧
  (UseCase.Update db id content a).2 =
    if default false (driver_faults db !! 2%nat) then inl (Sql ErrDriver)
    else inr (scan (with_content content r)).
Proof.
  intros Hnd Hin <- <- [Hok1 Hok2]%works_for_2.
  destruct (Repository_GetByID_spec db (row_id r)) as (Htab1 & Hdb1 & Hres1).
  rewrite Hok1, (find_id_unique _ r Hnd Hin) in Hres1.
  assert (Hmap : (λ x, if bool_decide (row_id x = row_id r)
                       then with_content content x else x) <$> comments db
                 = (λ x, if bool_decide (x = r)
                         then with_content content r else x) <$> comments db).
  { apply list_fmap_ext. intros i x Hx. apply list_elem_of_lookup_2 in Hx.
    case_bool_decide as Hid.
    - pose proof (find_id_unique _ x Hnd Hx) as Hfx. rewrite Hid in Hfx.
      rewrite (find_id_unique _ r Hnd Hin) in Hfx. injection Hfx as ->.
      by rewrite bool_decide_eq_true_2.
    - rewrite bool_decide_eq_false_2; [done|]. by intros ->. }
  assert (Hids : row_id <$> ((λ x, if bool_decide (x = r)
                                   then with_content content r else x)
                               <$> comments db) = row_id <$> comments db).
  { rewrite <-list_fmap_compose. apply list_fmap_ext. intros i x _. simpl.
    by case_bool_decide as Hx; [subst|]. }
  unfold ids, UseCase.Update.
  destruct (Repository.GetByID db (row_id r)) as [db1 [e|c]]; simpl in *;
    [done|].
  injection Hres1 as ->. simpl. rewrite bool_decide_eq_true_2 by done. simpl.
  pose proof (Repository_Update_spec db1 (row_id r) content) as Hupd.
  rewrite <-Hdb1 in Hok2. rewrite Hok2, Htab1 in Hupd.
  destruct Hupd as (Hnone & Htab2 & Hfaults2).
  destruct (Repository.Update db1 (row_id r) content) as [db2 [e|]];
    simpl in *; [done|].
  destruct (Repository_GetByID_spec db2 (row_id r)) as (Htab3 & _ & Hres3).
  assert (Hthird : fails_next db2 = default false (driver_faults db !! 2%nat)).
  { rewrite fails_next_lookup, Hfaults2, Hdb1, !driver_faults_next.
    rewrite drop_drop, lookup_drop. done. }
  assert (Hfind : List.find (λ x, bool_decide (row_id x = row_id r))
                    (comments db2) = Some (with_content content r)).
  { rewrite Htab2, Hmap.
    apply (find_id_unique _ (with_content content r)).
    - by rewrite Hids.
    - apply list_elem_of_fmap. exists r. by rewrite bool_decide_eq_true_2. }
  rewrite Hthird, Hfind in Hres3.
  destruct (Repository.GetByID db2 (row_id r)) as [db3 [e|c]]; simpl in *;
    rewrite Htab3, Htab2, Hmap, Hids;
    destruct (default false (driver_faults db !! 2%nat)); by simplify_eq.
Qed.

Lemma insert_desc_comments_Permutation r l : insert_desc r l ≡ₚ r :: l.
Proof.
  induction l as [|x l IH]; simpl; [done|].
  destruct (row_created_at x <=? row_created_at r)%Z; [done|].
  rewrite IH. apply Permutation_swap.
Qed.

Lemma order_by_comments_Permutation l : order_by_created_at_desc l ≡ₚ l.
Proof.
  induction l as [|x l IH]; simpl; [done|].
  by rewrite insert_desc_comments_Permutation, IH.
Qed.

Lemma insert_desc_comments_sorted r l :
  StronglySorted more_recent l → StronglySorted more_recent (insert_desc r l).
Proof.
  induction 1 as [|x l Hl IH Hx]; simpl.
  - repeat constructor.
  - destruct (Z.leb_spec (row_created_at x) (row_created_at r)) as [Hlt|Hge].
    + constructor; [by constructor|].
      constructor; [unfold more_recent; lia|].
      eapply Forall_impl; [exact Hx|]. unfold more_recent. intros y Hy. lia.
    + constructor; [done|].
      rewrite insert_desc_comments_Permutation. constructor; [unfold more_recent; lia|done].
Qed.

Lemma order_by_comments_sorted l :
  StronglySorted more_recent (order_by_created_at_desc l).
Proof.
  induction l as [|x l IH]; simpl; [constructor|].
  by apply insert_desc_comments_sorted.
Qed.

(** X18. [CommentUseCase.GetByPostID] never alters the table. When the
    driver answers both statements it returns comments of the post
    asked for and of no other, each at most as often as the table has
    it, the most recent first, at most [limit] of them when [limit] is
    not negative; the total beside them is the number of all comments
    of the post, whatever the limit and the offset, so that it is never
    less than the number of comments returned. *)
Theorem comments_of_post_page db p limit offset :
  comments (UseCase.GetByPostID db p limit offset).1 = comments db ∧
  (comments_works_for 2 db = true →
     ∃ rows,
       (UseCase.GetByPostID db p limit offset).2
         = inr (scan <$> rows, Z.of_nat (length (of_post p (comments db)))) ∧
       rows ⊆+ of_post p (comments db) ∧
       Forall (λ x, row_post_id x = p ∧ x ∈ comments db) rows ∧
       StronglySorted more_recent rows ∧
       ((0 ≤ limit)%Z → (length rows ≤ Z.to_nat limit)%nat) ∧
       (length rows ≤ length (of_post p (comments db)))%nat).
Proof.
  unfold UseCase.GetByPostID, Repository.GetByPostID, CountByPostID.
  pose proof (next_fault_comments db) as Htab1.
  split.
  - destruct (next_fault db) as [[|] db1]; simpl in *; [done|].
    pose proof (next_fault_comments db1) as Htab2.
    destruct (next_fault db1) as [[|] db2]; simpl in *; congruence.
  - intros [Hok1 Hok2]%works_for_2. unfold fails_next in *.
    destruct (next_fault db) as [[|] db1]; simpl in *; [done|].
    pose proof (next_fault_comments db1) as Htab2.
    destruct (next_fault db1) as [[|] db2]; simpl in *; [done|].
    rewrite Htab2, Htab1. eexists. split; [done|].
    set (sorted := order_by_created_at_desc (of_post p (comments db))).
    assert (Hsub : repository.limit_offset limit offset sorted
                     `sublist_of` sorted).
    { unfold repository.limit_offset. destruct (limit <? 0)%Z.
      - apply sublist_drop.
      - etrans; [apply sublist_take|apply sublist_drop]. }
    assert (Hms : repository.limit_offset limit offset sorted
                    ⊆+ of_post p (comments db)).
    { rewrite <-(order_by_comments_Permutation (of_post p (comments db))).
      by apply sublist_submseteq. }
    split_and!.
    + done.
    + apply Forall_forall. intros x Hx.
      eapply elem_of_submseteq in Hx; [|exact Hms].
      by apply list_elem_of_filter in Hx.
    + eapply StronglySorted_sublist; [done|apply order_by_comments_sorted].
    + intros Hl. unfold repository.limit_offset.
      destruct (Z.ltb_spec limit 0); [lia|]. rewrite length_take. lia.
    + by apply submseteq_length.
Qed.

End comment_facts.

(** * The HTTP delivery *)

Section strings_facts.

Lemma strip_Some prefix : ∀ s rest,
  strings.strip prefix s = Some rest ↔ s = (prefix +:+ rest)%string.
Proof.
  induction prefix as [|a prefix IH]; intros s rest; simpl.
  - split; [by intros [= ->]|by intros ->].
  - destruct s as [|b s]; [done|].
    destruct (Ascii.eqb_spec a b) as [->|Hne].
    + rewrite IH. split; [by intros ->|by intros [= ->]].
    + split; [done|]. intros [= -> _]. done.
Qed.

Lemma length_append (s1 s2 : string) :
  String.length (s1 +:+ s2) = (String.length s1 + String.length s2)%nat.
Proof. induction s1 as [|a s1 IH]; simpl; [done|]. by rewrite IH. Qed.

(** [TrimPrefix] returns its argument exactly when there was nothing to
    trim. *)
Lemma TrimPrefix_Bearer s :
  strings.TrimPrefix s "Bearer " = s ↔ strings.strip "Bearer " s = None.
Proof.
  unfold strings.TrimPrefix.
  destruct (strings.strip "Bearer " s) as [rest|] eqn:Hstrip; [|done].
  split; [|done]. intros ->. apply strip_Some in Hstrip.
  apply (f_equal String.length) in Hstrip.
  rewrite length_append in Hstrip. simpl in Hstrip. lia.
Qed.

Lemma length_Split s sep :
  length (strings.Split s sep) = S (strings.count sep s).
Proof.
  induction s as [|a s IH]; simpl; [done|].
  destruct (Ascii.eqb a sep); simpl; [by rewrite IH|].
  destruct (strings.Split s sep); simpl in *; [done|done].
Qed.

End strings_facts.

Section middleware.

Import Stdlib.Strings.Ascii.
Import httpdelivery.

Context {St : Type}.
Implicit Types (out : Outside) (r : HttpRequest) (st : St) (next : Handler St).

Lemma JWT_cases out JWTSecret next r st :
  (Method (request r) ≠ "OPTIONS" ∧
   ∃ userID, authenticated out JWTSecret r userID ∧
     JWT out JWTSecret next r st
       = next (WithValue r "user_id" (VString userID)) st) ∨
  (Method (request r) = "OPTIONS" ∧
   JWT out JWTSecret next r st = Responded (Status 200) st) ∨
  (Method (request r) ≠ "OPTIONS" ∧
   (∀ userID, ¬ authenticated out JWTSecret r userID) ∧
   JWT out JWTSecret next r st = Responded (Status 401) st).
Proof.
  unfold JWT. case_bool_decide as Hopt; [right; by left|].
  assert (Htok : ∀ userID, authenticated out JWTSecret r userID →
            ∃ tokenString token claims,
              strings.strip "Bearer " (Authorization r) = Some tokenString ∧
              strings.count "."%char tokenString = 2%nat ∧
              ParseWithClaims out tokenString (keyFunc JWTSecret) = Some token ∧
              Valid token = true ∧ Claims token = Some claims ∧
              (∀ exp, ExpiresAt claims = Some exp → (time_Now_ out ≤ exp)%Z) ∧
              ClaimsUserID claims = userID).
  { intros userID (tokenString & token & claims & Hauth & Hrest).
    exists tokenString, token, claims. split; [|done]. by apply strip_Some. }
  case_bool_decide as Hempty.
  { right; right. split_and!; try done. intros userID Hu.
    destruct (Htok userID Hu) as (? & ? & ? & Hstrip & _).
    by rewrite Hempty in Hstrip. }
  case_bool_decide as Htrim.
  { right; right. split_and!; try done. intros userID Hu.
    destruct (Htok userID Hu) as (? & ? & ? & Hstrip & _).
    apply TrimPrefix_Bearer in Htrim. congruence. }
  assert (∃ tokenString, strings.strip "Bearer " (Authorization r)
                         = Some tokenString) as [tokenString Hstrip].
  { destruct (strings.strip "Bearer " (Authorization r)) eqn:Hs; [by eexists|].
    by apply TrimPrefix_Bearer in Hs. }
  unfold strings.TrimPrefix in *. rewrite Hstrip in *.
  rewrite length_Split.
  destruct (Nat.eqb_spec (S (strings.count "."%char tokenString)) 3) as [Hdots|Hdots];
    simpl.
  2:{ right; right. split_and!; try done. intros userID Hu.
      destruct (Htok userID Hu) as (? & ? & ? & ? & ? & _). simplify_eq. lia. }
  destruct (ParseWithClaims out tokenString (keyFunc JWTSecret))
    as [token|] eqn:Hparse.
  2:{ right; right. split_and!; try done. intros userID Hu.
      destruct (Htok userID Hu) as (? & ? & ? & ? & ? & ? & _). simplify_eq. }
  destruct (Valid token) eqn:Hvalid; simpl.
  2:{ right; right. split_and!; try done. intros userID Hu.
      destruct (Htok userID Hu) as (? & ? & ? & ? & ? & ? & ? & _).
      simplify_eq; congruence. }
  destruct (Claims token) as [claims|] eqn:Hclaims.
  2:{ right; right. split_and!; try done. intros userID Hu.
      destruct (Htok userID Hu) as (? & ? & ? & ? & ? & ? & ? & ? & _).
      simplify_eq; congruence. }
  destruct (ExpiresAt claims) as [exp|] eqn:Hexp.
  - destruct (Z.ltb_spec exp (time_Now_ out)) as [Hlt|Hge].
    + right; right. split_and!; try done. intros userID Hu.
      destruct (Htok userID Hu)
        as (? & tok' & cl' & ? & ? & ? & ? & ? & Hnot & _).
      assert (tok' = token) as -> by congruence.
      assert (cl' = claims) as -> by congruence.
      specialize (Hnot exp Hexp). lia.
    + left. split; [done|]. exists (ClaimsUserID claims). split; [|done].
      exists tokenString, token, claims. split_and!; try done.
      * by apply strip_Some.
      * lia.
      * intros exp' ?. simplify_eq. lia.
  - left. split; [done|]. exists (ClaimsUserID claims). split; [|done].
    exists tokenString, token, claims. split_and!; try done.
    + by apply strip_Some.
    + lia.
    + intros exp' ?. congruence.
Qed.

Lemma authenticated_unique out JWTSecret r u1 u2 :
  authenticated out JWTSecret r u1 → authenticated out JWTSecret r u2 → u1 = u2.
Proof.
  intros (t1 & tok1 & cl1 & Ha1 & _ & Hp1 & _ & Hc1 & _ & <-)
         (t2 & tok2 & cl2 & Ha2 & _ & Hp2 & _ & Hc2 & _ & <-).
  apply strip_Some in Ha1, Ha2. congruence.
Qed.

(** X19. [AuthMiddleware.JWT] runs the handler behind it for exactly
    the requests that carry a header "Bearer " followed by a token with
    two dots which the library accepts for the secret, valid and not
    expired, and hands it the request with the user of the token under
    "user_id". A request with method OPTIONS is answered 200 and every
    other request 401, the handler not run and the state untouched. *)
Theorem JWT_runs_next_only_for_bearer_token out JWTSecret next r st :
  (Method (request r) = "OPTIONS" →
   JWT out JWTSecret next r st = Responded (Status 200) st) ∧
  (Method (request r) ≠ "OPTIONS" →
   ∀ userID, authenticated out JWTSecret r userID →
     JWT out JWTSecret next r st
       = next (WithValue r "user_id" (VString userID)) st) ∧
  (Method (request r) ≠ "OPTIONS" →
   (∀ userID, ¬ authenticated out JWTSecret r userID) →
   JWT out JWTSecret next r st = Responded (Status 401) st).
Proof.
  split_and!.
  - intros Hopt.
    destruct (JWT_cases out JWTSecret next r st)
      as [[Hne _]|[[_ ->]|[Hne _]]]; done.
  - intros Hopt userID Hu.
    destruct (JWT_cases out JWTSecret next r st)
      as [(_ & userID' & Hu' & ->)|[[? _]|(_ & Hnot & _)]]; try done.
    + by rewrite (authenticated_unique out JWTSecret r userID userID').
    + by destruct (Hnot userID).
  - intros Hopt Hnot.
    destruct (JWT_cases out JWTSecret next r st)
      as [(_ & userID' & Hu' & _)|[[? _]|(_ & _ & ->)]]; try done.
    by destruct (Hnot userID').
Qed.

(** A route of the authenticated group: 200 for OPTIONS, 401 without a
    token that passes, the handler otherwise. *)
Lemma route_cases out JWTSecret next r st :
  enableCORS (JWT out JWTSecret next) r st = Responded (Status 200) st ∨
  enableCORS (JWT out JWTSecret next) r st = Responded (Status 401) st ∨
  ∃ userID, authenticated out JWTSecret r userID ∧
    enableCORS (JWT out JWTSecret next) r st
      = next (WithValue r "user_id" (VString userID)) st.
Proof.
  unfold enableCORS. case_bool_decide as Hopt; [by left|].
  destruct (JWT_cases out JWTSecret next r st)
    as [(_ & userID & Hu & ->)|[[? _]|(_ & _ & ->)]]; try done.
  - right; right. by exists userID.
  - right; by left.
Qed.

End middleware.

Section routes.

Import httpdelivery.

Implicit Types (out : Outside) (r : HttpRequest).

Lemma WithValue_claims r userID :
  ContextValue (WithValue r "user_id" (VString userID)) !! "claims"
    = ContextValue r !! "claims".
Proof. unfold WithValue. simpl. by rewrite lookup_insert_ne. Qed.

Lemma WithValue_user_id r userID :
  user_id_of (WithValue r "user_id" (VString userID)) = Some userID.
Proof. unfold user_id_of, WithValue. simpl. by rewrite lookup_insert_eq. Qed.

(** X20. The chat never opens through the router. No context that
    reaches [ChatHandlers.Connect] behind the JWT middleware holds
    anything under "claims", the middleware stores the user under
    "user_id"; so for every request the route answers 200 or 401 from
    the middlewares, or [Connect] panics in its type assertion, which
    every request with a token that passes does. [ServeWs] is not
    called and the hub stays as it is. *)
Theorem chat_ws_route_never_reaches_the_hub {Store} `{!ChatUseCase Store}
    out jwtSecret r (w : World Store) :
  ContextValue r !! "claims" = None →
  (route_chat_ws out jwtSecret r w = Responded (Status 200) w ∨
   route_chat_ws out jwtSecret r w = Responded (Status 401) w ∨
   route_chat_ws out jwtSecret r w = Panicked InterfaceConversion) ∧
  (Method (request r) ≠ "OPTIONS" →
   (∃ userID, authenticated out jwtSecret r userID) →
   route_chat_ws out jwtSecret r w = Panicked InterfaceConversion).
Proof.
  intros Hnone. unfold route_chat_ws.
  assert (Hconnect : ∀ userID,
            Connect (WithValue r "user_id" (VString userID)) w
            = Panicked InterfaceConversion).
  { intros userID. unfold Connect. by rewrite WithValue_claims, Hnone. }
  split.
  - destruct (route_cases out jwtSecret Connect r w)
      as [->|[->|(userID & _ & ->)]]; [by left|right; by left|].
    right; right. apply Hconnect.
  - intros Hopt [userID Hu]. unfold enableCORS.
    rewrite bool_decide_eq_false_2 by done.
    destruct (JWT_cases out jwtSecret Connect r w)
      as [(_ & userID' & _ & ->)|[[? _]|(_ & Hnot & _)]]; try done.
    by destruct (Hnot userID).
Qed.

(** X21. No post is created through the router. [CreatePost] looks for
    a map under "claims", which nothing stores: the route answers 200
    to OPTIONS, 400 to a body it cannot use and 401 to everything else,
    a request with a token that passes included, and [PostUseCase.Create]
    is not called: the table and the driver are left as they were. *)
Theorem create_post_route_never_creates out jwtSecret r
    (db : posts.Repository.DB) :
  ContextValue r !! "claims" = None →
  ∃ code, route_create_post out jwtSecret r db = Responded (Status code) db ∧
    (code = 200 ∨ code = 400 ∨ code = 401)%Z.
Proof.
  intros Hnone. unfold route_create_post.
  destruct (route_cases out jwtSecret (CreatePost out) r db)
    as [->|[->|(userID & _ & ->)]];
    [exists 200%Z; split; [done|by left]
    |exists 401%Z; split; [done|right; by right]|].
  unfold CreatePost. rewrite WithValue_claims, Hnone. simpl.
  destruct (as_PostRequest (body r)) as [req|];
    [|exists 400%Z; split; [done|right; by left]].
  destruct (_ && _);
    [exists 400%Z; split; [done|right; by left]
    |exists 401%Z; split; [done|right; by right]].
Qed.

End routes.

(** ** Posts behind the routes *)

Section post_facts.

Import posts.
Import posts.Repository.

Implicit Types (r : Row) (l : list Row) (db : DB) (id : string).

Lemma next_fault_posts db : posts (next_fault db).2 = posts db.
Proof. unfold next_fault. by destruct (driver_faults db). Qed.

Lemma find_post_unique l r :
  NoDup (row_id <$> l) → r ∈ l →
  List.find (λ x, bool_decide (row_id x = row_id r)) l = Some r.
Proof.
  induction l as [|x l IH]; intros Hnd Hin.
  - by apply elem_of_nil in Hin.
  - rewrite fmap_cons in Hnd. apply NoDup_cons in Hnd as [Hx Hnd].
    apply elem_of_cons in Hin as [->|Hin]; simpl.
    + by rewrite bool_decide_eq_true_2.
    + rewrite bool_decide_eq_false_2; [by apply IH|].
      intros Heq. apply Hx. rewrite Heq. by apply list_elem_of_fmap_2.
Qed.

Lemma posts_GetByID_spec db id :
  posts (Repository.GetByID db id).1 = posts db ∧
  (Repository.GetByID db id).2 =
    if fails_next db then inl (Sql ErrDriver)
    else match List.find (λ x, bool_decide (row_id x = id)) (posts db) with
         | None => inl NotFound
         | Some r => inr (scan r)
         end.
Proof.
  unfold Repository.GetByID, fails_next.
  pose proof (next_fault_posts db) as Htab.
  destruct (next_fault db) as [[|] db1]; simpl in *; [done|].
  rewrite Htab. by destruct (List.find _ _).
Qed.

Lemma posts_Update_spec db id upd :
  (Repository.Update db id upd).2 ≠ None ∧
    posts (Repository.Update db id upd).1 = posts db ∨
  (Repository.Update db id upd).2 = None ∧
    ∀ x, x ∈ posts db → row_id x ≠ id → x ∈ posts (Repository.Update db id upd).1.
Proof.
  unfold Repository.Update.
  pose proof (next_fault_posts db) as Htab.
  destruct (next_fault db) as [[|] db1]; simpl in *; [by left|].
  right. split; [done|]. intros x Hx Hne. rewrite Htab.
  apply list_elem_of_fmap. exists x. split; [|done].
  by rewrite bool_decide_eq_false_2.
Qed.

Lemma posts_Delete_spec db id :
  (Repository.Delete db id).2 ≠ None ∧
    posts (Repository.Delete db id).1 = posts db ∨
  (Repository.Delete db id).2 = None ∧
    posts (Repository.Delete db id).1 = filter (λ x, row_id x ≠ id) (posts db).
Proof.
  unfold Repository.Delete.
  pose proof (next_fault_posts db) as Htab.
  destruct (next_fault db) as [[|] db1]; simpl in *; [by left|].
  right. by rewrite Htab.
Qed.

(** A post that [PostUseCase.Delete] removed was the one asked for, the
    caller was its author, and no error is returned. *)
Lemma posts_Delete_removed db id a x :
  NoDup (ids db) → x ∈ posts db →
  x ∉ posts (UseCase.Delete db id a).1 →
  row_id x = id ∧ row_author_id x = a ∧ (UseCase.Delete db id a).2 = None.
Proof.
  intros Hnd Hin. unfold UseCase.Delete.
  destruct (posts_GetByID_spec db id) as (Htab1 & Hres1).
  destruct (Repository.GetByID db id) as [db1 [e|post]]; simpl in *;
    [by rewrite Htab1|].
  destruct (fails_next db); [done|].
  destruct (List.find _ (posts db)) as [r0|] eqn:Hfind; [|done].
  injection Hres1 as ->. simpl.
  case_bool_decide as Hauth; simpl; [|by rewrite Htab1].
  destruct (posts_Delete_spec db1 id) as [[Herr Htab2]|[Hnone Htab2]];
    destruct (Repository.Delete db1 id) as [db2 [e|]]; simpl in *;
    try done; [by rewrite Htab2, Htab1|].
  rewrite Htab2, Htab1. intros Hgone.
  assert (Hid : row_id x = id).
  { destruct (decide (row_id x = id)) as [|Hne]; [done|].
    exfalso. apply Hgone. by apply list_elem_of_filter. }
  split_and!; try done. subst id.
  rewrite (find_post_unique _ x Hnd Hin) in Hfind. by injection Hfind as <-.
Qed.

(** A post that is not in the table after [PostUseCase.Update] as it
    was before was the one asked for, and the caller was its author. *)
Lemma posts_Update_changed db id upd a x :
  NoDup (ids db) → x ∈ posts db →
  x ∉ posts (UseCase.Update db id upd a).1 →
  row_id x = id ∧ row_author_id x = a.
Proof.
  intros Hnd Hin. unfold UseCase.Update.
  destruct (posts_GetByID_spec db id) as (Htab1 & Hres1).
  destruct (Repository.GetByID db id) as [db1 [e|post]]; simpl in *;
    [by rewrite Htab1|].
  destruct (fails_next db); [done|].
  destruct (List.find _ (posts db)) as [r0|] eqn:Hfind; [|done].
  injection Hres1 as ->. simpl.
  case_bool_decide as Hauth; simpl; [|by rewrite Htab1]. subst a.
  assert (Hkept : ∀ db', posts db' = posts (Repository.Update db1 id upd).1 →
            x ∉ posts db' → row_id x = id ∧ row_author_id x = row_author_id r0).
  { intros db' Hdb' Hgone. rewrite Hdb' in Hgone.
    assert (Hid : row_id x = id).
    { destruct (decide (row_id x = id)) as [|Hne]; [done|].
      exfalso. apply Hgone.
      destruct (posts_Update_spec db1 id upd) as [[_ ->]|[_ Hother]];
        [by rewrite Htab1|].
      apply Hother; [by rewrite Htab1|done]. }
    split; [done|]. subst id.
    rewrite (find_post_unique _ x Hnd Hin) in Hfind. by injection Hfind as <-. }
  destruct (Repository.Update db1 id upd) as [db2 [e|]]; simpl in *;
    [by apply Hkept|].
  destruct (posts_GetByID_spec db2 id) as (Htab3 & _).
  destruct (Repository.GetByID db2 id) as [db3 [e|post]]; simpl in *;
    by apply (Hkept db3).
Qed.

End post_facts.

Section routes_to_the_tables.

Import httpdelivery.

Implicit Types (out : Outside) (r : HttpRequest).

Lemma WithValue_final_postID r userID :
  final_postID (WithValue r "user_id" (VString userID)) = final_postID r.
Proof. done. Qed.

Lemma WithValue_URLParam r userID key :
  URLParam (WithValue r "user_id" (VString userID)) key = URLParam r key.
Proof. done. Qed.

(** X22. A post changes through the router only for its author. With
    ids distinct, the routes for deleting and for updating a post
    answer every request, and when a post that was in the table is not
    there afterwards as it was, the request carried a token that passes
    and names the author of that post, and the post was the one the
    URL asked for; a deletion is then answered 204. *)
Theorem post_routes_need_the_authors_token out jwtSecret r
    (db : posts.Repository.DB) (x : posts.Repository.Row) :
  NoDup (posts.ids db) → x ∈ posts.Repository.posts db →
  (∃ resp db',
     route_delete_post out jwtSecret r db = Responded resp db' ∧
     (x ∉ posts.Repository.posts db' →
        authenticated out jwtSecret r (posts.Repository.row_author_id x) ∧
        final_postID r = posts.Repository.row_id x ∧
        resp = Status 204)) ∧
  (∃ resp db',
     route_update_post out jwtSecret r db = Responded resp db' ∧
     (x ∉ posts.Repository.posts db' →
        authenticated out jwtSecret r (posts.Repository.row_author_id x) ∧
        final_postID r = posts.Repository.row_id x)).
Proof.
  intros Hnd Hin. split.
  - unfold route_delete_post.
    destruct (route_cases out jwtSecret (DeletePost out) r db)
      as [->|[->|(userID & Hu & ->)]]; [by eexists _, _..|].
    unfold DeletePost.
    rewrite WithValue_final_postID, WithValue_user_id.
    case_bool_decide; [by eexists _, _|].
    destruct (uuid_Parse out (final_postID r)); simpl; [|by eexists _, _].
    case_bool_decide; [by eexists _, _|].
    pose proof (posts_Delete_removed db (final_postID r) userID x Hnd Hin)
      as Hremoved.
    destruct (posts.UseCase.Delete db (final_postID r) userID)
      as [db' [err|]]; simpl in *; eexists _, _; (split; [done|]);
      intros Hgone; destruct (Hremoved Hgone) as (Hid & Ha & Hnone);
      [done|]. by subst.
  - unfold route_update_post.
    destruct (route_cases out jwtSecret (UpdatePost out) r db)
      as [->|[->|(userID & Hu & ->)]]; [by eexists _, _..|].
    unfold UpdatePost.
    rewrite WithValue_final_postID, WithValue_user_id.
    case_bool_decide; [by eexists _, _|].
    destruct (uuid_Parse out (final_postID r)); simpl; [|by eexists _, _].
    destruct (as_PostUpdate _) as [upd|]; [|by eexists _, _].
    case_bool_decide; [by eexists _, _|].
    pose proof (posts_Update_changed db (final_postID r) upd userID x Hnd Hin)
      as Hchanged.
    destruct (posts.UseCase.Update db (final_postID r) upd userID)
      as [db' [err|resp]]; simpl in *; eexists _, _; (split; [done|]);
      intros Hgone; destruct (Hchanged Hgone) as (Hid & Ha); by subst.
Qed.

(** X23. A comment created through the router is the caller's. The
    route answers every request; it answers 201 only when the request
    carried a token that passes, and then the table has gained one row:
    the content of the body, the post of the URL, whatever post the
    body names, and as author the user of the token. With any other
    answer the table is as before. *)
Theorem comment_route_records_the_tokens_user out jwtSecret r
    (db : comments.Repository.DB) :
  ∃ resp db',
    route_create_comment out jwtSecret r db = Responded resp db' ∧
    (resp = Status 201 →
       ∃ userID req,
         authenticated out jwtSecret r userID ∧ userID ≠ "" ∧
         as_CommentRequest (body r) = Some req ∧
         comments.Repository.comments db' =
           comments.Repository.comments db ++
             [ {| comments.Repository.row_id := uuid_New (tick out);
                  comments.Repository.row_content := comments.ReqContent req;
                  comments.Repository.row_post_id := URLParam r "postId";
                  comments.Repository.row_author_id := userID;
                  comments.Repository.row_created_at :=
                    repository.format_RFC3339 (time_Now (tick out)) |} ]) ∧
    (resp ≠ Status 201 →
       comments.Repository.comments db' = comments.Repository.comments db).
Proof.
  unfold route_create_comment.
  destruct (route_cases out jwtSecret (CreateComment out) r db)
    as [->|[->|(userID & Hu & ->)]]; [by eexists _, _..|].
  unfold CreateComment. rewrite WithValue_URLParam, WithValue_user_id.
  destruct (uuid_Parse out (URLParam r "postId")); simpl; [|by eexists _, _].
  destruct (as_CommentRequest (body r)) as [req|] eqn:Hbody; simpl;
    [|by eexists _, _].
  case_bool_decide as Hempty; [by eexists _, _|].
  unfold comments.UseCase.Create.
  set (c := comments.NewComment _ _ _).
  destruct (Repository_Create_spec db c)
    as [(Hnone & _ & _ & Htab & _)|[Herr Htab]];
    destruct (comments.Repository.Create db c) as [db' [err|]]; simpl in *;
    try done; eexists _, _; (split; [done|]); split; try done.
  intros _. exists userID, req. by split_and!.
Qed.

End routes_to_the_tables.

(** * Sample runs of the comments, the posts and the routes *)

Section delivery_witnesses.

Import httpdelivery.

Lemma NoDup_sample_comments : NoDup (comments.ids sample_comments).
Proof. refine (bool_decide_unpack _ _). vm_compute. exact I. Qed.

Lemma NoDup_flaky_comments : NoDup (comments.ids flaky_comments).
Proof. refine (bool_decide_unpack _ _). vm_compute. exact I. Qed.

Lemma NoDup_sample_posts : NoDup (posts.ids sample_posts).
Proof. refine (bool_decide_unpack _ _). vm_compute. exact I. Qed.

Lemma alice_authenticated method :
  authenticated sample_outside "secret" (alices_request method) "alice".
Proof.
  unfold authenticated.
  exists "h.alice.s",
    {| Valid := true;
       Claims := Some {| ClaimsUserID := "alice";
                         ExpiresAt := Some 5000000000%Z |} |},
    {| ClaimsUserID := "alice"; ExpiresAt := Some 5000000000%Z |}.
  split_and!; try reflexivity. intros exp [= <-]. simpl. lia.
Qed.

(** Alice's token lets her request through to the handler. *)
Lemma JWT_runs_next_only_for_bearer_token_witness :
  Method (request (alices_request "GET")) ≠ "OPTIONS" ∧
  authenticated sample_outside "secret" (alices_request "GET") "alice" ∧
  JWT sample_outside "secret" (λ r st, Responded (Status 204) st)
    (alices_request "GET") tt = Responded (Status 204) tt.
Proof.
  assert (Hopt : Method (request (alices_request "GET")) ≠ "OPTIONS")
    by discriminate.
  split_and!; [exact Hopt|apply alice_authenticated|].
  exact (proj1 (proj2 (JWT_runs_next_only_for_bearer_token sample_outside
                  "secret" (λ r st, Responded (Status 204) st)
                  (alices_request "GET") tt))
           Hopt "alice" (alice_authenticated "GET")).
Defined.

(** A comment of alice on an empty table, read back. *)
Lemma comment_create_then_get_witness :
  comments.UseCase.Create (sample_env 0) no_comments
      {| comments.ReqContent := "a comment"; comments.ReqPostID := "p1" |}
      "alice"
    = ((comments.UseCase.Create (sample_env 0) no_comments
          {| comments.ReqContent := "a comment"; comments.ReqPostID := "p1" |}
          "alice").1,
       inr (comments.NewComment (sample_env 0)
              {| comments.ReqContent := "a comment";
                 comments.ReqPostID := "p1" |} "alice")) ∧
  ∃ c', (comments.UseCase.GetByID
           (comments.UseCase.Create (sample_env 0) no_comments
              {| comments.ReqContent := "a comment";
                 comments.ReqPostID := "p1" |} "alice").1 "7c1e").2 = inr c' ∧
    comments.AuthorID c' = "alice" ∧ comments.Content c' = "a comment".
Proof.
  set (req := {| comments.ReqContent := "a comment";
                 comments.ReqPostID := "p1" |}).
  assert (Hcreate :
    comments.UseCase.Create (sample_env 0) no_comments req "alice"
    = ((comments.UseCase.Create (sample_env 0) no_comments req "alice").1,
       inr (comments.NewComment (sample_env 0) req "alice")))
    by reflexivity.
  split; [exact Hcreate|].
  destruct (comment_create_then_get (sample_env 0) no_comments req "alice"
              _ _ Hcreate) as (_ & c' & Hget & _ & Hcontent & _ & Hauthor & _);
    [reflexivity|].
  exists c'. split_and!; [exact Hget|exact Hauthor|exact Hcontent].
Defined.

(** Alice tries her hand at bob's comment. *)
Lemma only_the_author_changes_a_comment_witness :
  NoDup (comments.ids sample_comments) ∧
  second_comment ∈ comments.Repository.comments sample_comments ∧
  comments.Repository.row_author_id second_comment ≠ "alice" ∧
  second_comment ∈ comments.Repository.comments
    (comments.UseCase.Update sample_comments "c2" "edited" "alice").1 ∧
  (comments.UseCase.Delete sample_comments "c2" "alice").2 = Some Unauthorized.
Proof.
  assert (Hin : second_comment ∈ comments.Repository.comments sample_comments).
  { right. left. }
  assert (Hne : comments.Repository.row_author_id second_comment ≠ "alice")
    by discriminate.
  split_and!; [exact NoDup_sample_comments|exact Hin|exact Hne|..].
  - exact (proj1 (only_the_author_changes_a_comment sample_comments "c2"
                    "edited" "alice" second_comment NoDup_sample_comments
                    Hin Hne)).
  - destruct (only_the_author_changes_a_comment sample_comments "c2"
                "edited" "alice" second_comment NoDup_sample_comments
                Hin Hne) as (_ & _ & Hrefused).
    destruct (Hrefused eq_refl eq_refl) as (_ & Hdel & _). exact Hdel.
Defined.

(** Alice deletes her first comment. *)
Lemma author_deletes_comment_witness :
  NoDup (comments.ids sample_comments) ∧
  first_comment ∈ comments.Repository.comments sample_comments ∧
  comments_works_for 2 sample_comments = true ∧
  (comments.UseCase.Delete sample_comments "c1" "alice").2 = None ∧
  ("c1" ∉ comments.ids (comments.UseCase.Delete sample_comments "c1" "alice").1).
Proof.
  assert (Hin : first_comment ∈ comments.Repository.comments sample_comments).
  { left. }
  assert (Hworks : comments_works_for 2 sample_comments = true) by reflexivity.
  split_and!; [exact NoDup_sample_comments|exact Hin|exact Hworks|..].
  - exact (proj1 (author_deletes_comment sample_comments "c1" "alice"
                    first_comment NoDup_sample_comments Hin eq_refl eq_refl
                    Hworks)).
  - exact (proj1 (proj2 (proj2 (author_deletes_comment sample_comments "c1"
                    "alice" first_comment NoDup_sample_comments Hin eq_refl
                    eq_refl Hworks)))).
Defined.

(** Alice edits her first comment and the read of the result fails. *)
Lemma author_updates_comment_witness :
  NoDup (comments.ids flaky_comments) ∧
  first_comment ∈ comments.Repository.comments flaky_comments ∧
  comments_works_for 2 flaky_comments = true ∧
  (comments.UseCase.Update flaky_comments "c1" "edited" "alice").2
    = inl (Sql ErrDriver) ∧
  comments.Repository.comments
    (comments.UseCase.Update flaky_comments "c1" "edited" "alice").1
    = [with_content "edited" first_comment; second_comment; other_comment].
Proof.
  assert (Hin : first_comment ∈ comments.Repository.comments flaky_comments).
  { left. }
  assert (Hworks : comments_works_for 2 flaky_comments = true) by reflexivity.
  split_and!; [exact NoDup_flaky_comments|exact Hin|exact Hworks|..].
  - exact (proj2 (proj2 (author_updates_comment flaky_comments "c1" "edited"
                    "alice" first_comment NoDup_flaky_comments Hin eq_refl
                    eq_refl Hworks))).
  - exact (proj1 (author_updates_comment flaky_comments "c1" "edited"
                    "alice" first_comment NoDup_flaky_comments Hin eq_refl
                    eq_refl Hworks)).
Defined.

(** The most recent comment of post p1, of two. *)
Lemma comments_of_post_page_witness :
  comments_works_for 2 sample_comments = true ∧
  ∃ rows,
    (comments.UseCase.GetByPostID sample_comments "p1" 1 0).2
      = inr (comments.Repository.scan <$> rows, 2%Z) ∧
    (length rows ≤ 1)%nat.
Proof.
  assert (Hworks : comments_works_for 2 sample_comments = true) by reflexivity.
  split; [exact Hworks|].
  destruct (proj2 (comments_of_post_page sample_comments "p1" 1 0) Hworks)
    as (rows & Hres & _ & _ & _ & Hlimit & _).
  exists rows. split; [exact Hres|]. apply Hlimit. lia.
Defined.

(** Alice's token is good, and the chat route panics. *)
Lemma chat_ws_route_never_reaches_the_hub_witness :
  ContextValue (alices_request "GET") !! "claims" = None ∧
  route_chat_ws sample_outside "secret" (alices_request "GET")
    (NewHub empty_db) = Panicked InterfaceConversion.
Proof.
  assert (Hnone : ContextValue (alices_request "GET") !! "claims" = None)
    by apply lookup_empty.
  split; [exact Hnone|].
  apply (proj2 (chat_ws_route_never_reaches_the_hub sample_outside "secret"
                  (alices_request "GET") (NewHub empty_db) Hnone)).
  - discriminate.
  - exists "alice". apply alice_authenticated.
Defined.

Lemma create_post_route_never_creates_witness :
  ContextValue (alices_request "POST") !! "claims" = None ∧
  ∃ code,
    route_create_post sample_outside "secret" (alices_request "POST")
      sample_posts = Responded (Status code) sample_posts ∧
    (code = 200 ∨ code = 400 ∨ code = 401)%Z.
Proof.
  assert (Hnone : ContextValue (alices_request "POST") !! "claims" = None)
    by apply lookup_empty.
  split; [exact Hnone|].
  exact (create_post_route_never_creates sample_outside "secret"
           (alices_request "POST") sample_posts Hnone).
Defined.

(** Alice deletes her post. *)
Lemma post_routes_need_the_authors_token_witness :
  NoDup (posts.ids sample_posts) ∧
  alices_post ∈ posts.Repository.posts sample_posts ∧
  ∃ resp db',
    route_delete_post sample_outside "secret" (alices_request "DELETE")
      sample_posts = Responded resp db' ∧
    (alices_post ∉ posts.Repository.posts db' →
       authenticated sample_outside "secret" (alices_request "DELETE")
         (posts.Repository.row_author_id alices_post) ∧
       final_postID (alices_request "DELETE")
         = posts.Repository.row_id alices_post ∧
       resp = Status 204).
Proof.
  assert (Hin : alices_post ∈ posts.Repository.posts sample_posts).
  { left. }
  split_and!; [exact NoDup_sample_posts|exact Hin|].
  exact (proj1 (post_routes_need_the_authors_token sample_outside "secret"
                  (alices_request "DELETE") sample_posts alices_post
                  NoDup_sample_posts Hin)).
Defined.

(** Alice comments on post p1; the body names post p7. *)
Lemma comment_route_records_the_tokens_user_witness :
  ∃ db' userID req,
    route_create_comment sample_outside "secret" (alices_request "POST")
      no_comments = Responded (Status 201) db' ∧
    authenticated sample_outside "secret" (alices_request "POST") userID ∧
    as_CommentRequest (body (alices_request "POST")) = Some req ∧
    comments.Repository.comments db' =
      comments.Repository.comments no_comments ++
        [ {| comments.Repository.row_id := uuid_New (tick sample_outside);
             comments.Repository.row_content := comments.ReqContent req;
             comments.Repository.row_post_id :=
               URLParam (alices_request "POST") "postId";
             comments.Repository.row_author_id := userID;
             comments.Repository.row_created_at :=
               repository.format_RFC3339 (time_Now (tick sample_outside)) |} ].
Proof.
  destruct (comment_route_records_the_tokens_user sample_outside "secret"
              (alices_request "POST") no_comments)
    as (resp & db' & Hrun & Hcreated & _).
  assert (Hresp : resp = Status 201).
  { pose proof Hrun as Hrun'. vm_compute in Hrun'.
    injection Hrun' as <- _. reflexivity. }
  destruct (Hcreated Hresp) as (userID & req & Hu & _ & Hbody & Htab).
  exists db', userID, req. rewrite <-Hresp. by split_and!.
Defined.

End delivery_witnesses.

(** * From the hub to the peer *)

Section hub_to_peer.

Implicit Types (w : World repository.DB) (c : ptr) (k : Conn) (cl : Client)
  (m : ChatMessage) (ms : list ChatMessage).

Lemma saves_all_cons db m ms :
  saves_all db (m :: ms) →
  (repository.SaveMessage db m).2 = None ∧
  saves_all (repository.SaveMessage db m).1 ms.
Proof.
  intros (Hfaults & Hnd & Hfresh). rewrite fmap_cons in Hnd.
  apply NoDup_cons in Hnd as [Hm Hnd].
  assert (Hnew : ID m ∉ table_ids db) by (apply Hfresh; by left).
  unfold repository.SaveMessage, repository.exec_insert, repository.next_fault.
  rewrite Hfaults. simpl. unfold table_ids in Hnew.
  rewrite bool_decide_eq_false_2 by done. simpl.
  split; [done|]. split_and!; try done.
  intros m' Hm'. unfold table_ids. simpl. rewrite fmap_app. simpl.
  intros [Hin|Hin]%elem_of_app.
  - by apply (Hfresh m'); [right|].
  - apply list_elem_of_singleton in Hin. apply Hm. rewrite <-Hin.
    by apply list_elem_of_fmap_2.
Qed.

Lemma append_buf_cons m ms cl :
  append_buf ms (with_send cl (enqueue m (send cl))) = append_buf (m :: ms) cl.
Proof.
  unfold append_buf, with_send, enqueue. simpl. by rewrite <-app_assoc.
Qed.

(** Broadcasts that the store accepts, to a member with room for them. *)
Lemma broadcasts_to_member c ms : ∀ w cl,
  hub_inv w → is_Some (clients w !! c) → heap w !! c = Some cl →
  (length (buf (send cl)) + length ms ≤ cap (send cl))%nat →
  saves_all (chatUC w) ms →
  ∃ w', run (EvBroadcast <$> ms) w = Done w' ∧ hub_inv w' ∧
    is_Some (clients w' !! c) ∧ heap w' !! c = Some (append_buf ms cl).
Proof.
  induction ms as [|m ms IH]; intros w cl Hinv Hmem Hc Hroom Hsaves.
  - exists w. by rewrite append_buf_nil.
  - apply saves_all_cons in Hsaves as [Hsave Hsaves].
    rewrite <-usecase_SaveMessage in Hsave, Hsaves.
    destruct (usecase.SaveMessage (chatUC w) m) as [s' err] eqn:Hs.
    simpl in Hsave, Hsaves. subst err.
    assert (Hs' : SaveMessage (chatUC w) m = (s', None)) by exact Hs.
    destruct (on_broadcast_saved m w s' Hs' (proj1 Hinv))
      as (w1 & Hrun & Hstore & Hheap & Hclients & _).
    assert (Hhas : has_room (send cl) = true).
    { apply has_room_true. simpl in Hroom. lia. }
    assert (Hc1 : heap w1 !! c = Some (with_send cl (enqueue m (send cl)))).
    { rewrite Hheap, decide_True by done. rewrite Hc. simpl.
      unfold after_delivery. by rewrite Hhas. }
    assert (Hmem1 : is_Some (clients w1 !! c)).
    { rewrite Hclients. unfold full_at. by rewrite Hc, Hhas. }
    assert (Hinv1 : hub_inv w1).
    { by apply (step_inv (EvBroadcast m) w). }
    destruct (IH w1 _ Hinv1 Hmem1 Hc1) as (w' & Hrun' & Hinv' & Hmem' & Hc').
    { simpl in *. rewrite length_app. simpl. lia. }
    { by rewrite Hstore. }
    exists w'. rewrite fmap_cons. cbn [run]. unfold step at 1.
    cbn [Hub_step]. rewrite Hrun. simpl.
    split_and!; try done. by rewrite Hc', append_buf_cons.
Qed.

(** The pump empties the mailbox onto a connection that accepts every
    write. *)
Lemma pump_drains c : ∀ (b : list ChatMessage) w k cl,
  heap w !! c = Some cl → buf (send cl) = b → returned k = false →
  ∃ w' k' cl',
    moves c (replicate (length b) (PumpMove (TurnSend true true))) (w, k)
      = Done (w', k') ∧
    wire k' = wire k ++ (TextFrame <$> b) ∧ returned k' = false ∧
    heap w' !! c = Some cl' ∧ buf (send cl') = [] ∧
    pumped cl' = pumped cl ++ b ∧ clients w' = clients w.
Proof.
  induction b as [|m b IH]; intros w k cl Hc Hbuf Hret.
  - exists w, k, cl. simpl. by rewrite !app_nil_r.
  - pose proof (writePump_recv_head c w cl m b Hc Hbuf) as Hhead.
    destruct (IH (writePump_recv c w)
                {| wire := wire k ++ [TextFrame m]; returned := false |}
                _ Hhead eq_refl eq_refl)
      as (w' & k' & cl' & Hrun & Hwire & Hret' & Hc' & Hbuf' & Hp & Hcs).
    exists w', k', cl'. simpl. rewrite Hret, Hc, Hbuf. simpl.
    split_and!; try done.
    + rewrite Hwire. simpl. by rewrite <-app_assoc.
    + rewrite Hp. simpl. by rewrite <-app_assoc.
    + rewrite Hcs. apply writePump_recv_fields.
Qed.

Lemma moves_app c (mvs1 mvs2 : list Move) : ∀ (s : World repository.DB * Conn),
  moves c (mvs1 ++ mvs2) s = s' ← moves c mvs1 s; moves c mvs2 s'.
Proof.
  induction mvs1 as [|mv mvs1 IH]; intros s; simpl; [done|].
  destruct (move c mv s) as [s1| |]; simpl; [apply IH|done..].
Qed.

Lemma moves_of_the_hub c es : ∀ w k,
  moves c (HubMove <$> es) (w, k) = w' ← run es w; Done (w', k).
Proof.
  induction es as [|e es IH]; intros w k; simpl; [done|].
  destruct (step e w) as [w1| |]; simpl; [apply IH|done..].
Qed.

(** X24. What the hub accepts reaches the peer. For a member whose
    pump has just started, broadcasts that the store accepts and that
    fit into the mailbox beside what it holds, followed by as many
    turns of the pump on a connection that takes every write, end with
    the mailbox empty, the client still a member, the pump running,
    and exactly the messages of the mailbox and then the broadcasts on
    the wire, in this order. *)
Theorem accepted_broadcasts_reach_the_peer c w k ms :
  pump_starts c w k → within_capacity w → is_Some (clients w !! c) →
  saves_all (chatUC w) ms →
  (length (mailbox w c) + length ms ≤ 256)%nat →
  ∃ w' k',
    moves c (broadcasts_then_pump ms (length (mailbox w c) + length ms)) (w, k)
      = Done (w', k') ∧
    wire k' = TextFrame <$> (mailbox w c ++ ms) ∧
    returned k' = false ∧
    mailbox w' c = [] ∧
    is_Some (clients w' !! c).
Proof.
  intros (Hinv & -> & cl & Hc & Hp) Hcap Hmem Hsaves Hroom.
  unfold mailbox in *. rewrite Hc in *.
  destruct (Hcap c cl Hc) as [Hcap256 _].
  destruct (broadcasts_to_member c ms w cl Hinv Hmem Hc) as
    (w1 & Hrun & Hinv1 & Hmem1 & Hc1); [lia|done|].
  destruct (pump_drains c (buf (send cl) ++ ms) w1 fresh_conn _ Hc1 eq_refl
              eq_refl)
    as (w' & k' & cl' & Hpump & Hwire & Hret & Hc' & Hbuf' & _ & Hcs).
  exists w', k'. unfold broadcasts_then_pump.
  replace ((λ m, HubMove (EvBroadcast m)) <$> ms)
    with (HubMove <$> (EvBroadcast <$> ms))
    by (by rewrite <-list_fmap_compose).
  rewrite moves_app, moves_of_the_hub, Hrun. simpl.
  rewrite length_app in Hpump. rewrite Hpump, Hc', Hcs.
  by split_and!.
Qed.

End hub_to_peer.

Section hub_to_peer_witness.

Lemma ServeWs_w_joined :
  ServeWs upgrade_request "alice" (NewHub history_db) = Done w_joined.
Proof. vm_compute. reflexivity. Qed.

(** Alice's peer gets the two messages of the history and the third. *)
Lemma accepted_broadcasts_reach_the_peer_witness :
  pump_starts 1%positive w_joined fresh_conn ∧
  within_capacity w_joined ∧
  is_Some (clients w_joined !! 1%positive) ∧
  saves_all (chatUC w_joined) [third] ∧
  (length (mailbox w_joined 1%positive) + length [third] ≤ 256)%nat ∧
  ∃ w' k',
    moves 1%positive
      (broadcasts_then_pump [third]
         (length (mailbox w_joined 1%positive) + length [third]))
      (w_joined, fresh_conn) = Done (w', k') ∧
    wire k' = TextFrame <$> (mailbox w_joined 1%positive ++ [third]) ∧
    returned k' = false.
Proof.
  assert (Hstart : pump_starts 1%positive w_joined fresh_conn).
  { exact (pump_starts_after_ServeWs upgrade_request "alice"
             (NewHub history_db) w_joined (hub_inv_NewHub history_db)
             eq_refl ServeWs_w_joined). }
  assert (Hcap : within_capacity w_joined).
  { apply (step_capacity (EvServeWs upgrade_request "alice")
             (NewHub history_db) w_joined ServeWs_w_joined).
    apply within_capacity_NewHub. }
  assert (Hmem : is_Some (clients w_joined !! 1%positive)).
  { exists true. vm_compute. reflexivity. }
  assert (Hsaves : saves_all (chatUC w_joined) [third]).
  { split_and!.
    - vm_compute. reflexivity.
    - refine (bool_decide_unpack _ _). vm_compute. exact I.
    - intros m ->%list_elem_of_singleton.
      refine (bool_decide_unpack _ _). vm_compute. exact I. }
  assert (Hroom : (length (mailbox w_joined 1%positive) + length [third]
                   ≤ 256)%nat).
  { apply Nat.leb_le. vm_compute. reflexivity. }
  split_and!; [exact Hstart|exact Hcap|exact Hmem|exact Hsaves|exact Hroom|].
  destruct (accepted_broadcasts_reach_the_peer 1%positive w_joined fresh_conn
              [third] Hstart Hcap Hmem Hsaves Hroom)
    as (w' & k' & Hrun & Hwire & Hret & _).
  exists w', k'. split_and!; [exact Hrun|exact Hwire|exact Hret].
Defined.

End hub_to_peer_witness.

(** * Posts over gRPC *)

Section grpc_post_facts.

Import posts.
Import posts.Repository.

Implicit Types (db : DB) (l : list Row) (r : Row).

Lemma find_post_fresh l r :
  row_id r ∉ row_id <$> l →
  List.find (λ x, bool_decide (row_id x = row_id r)) (l ++ [r]) = Some r.
Proof.
  induction l as [|x l IH]; intros Hnot.
  - simpl. by rewrite bool_decide_eq_true_2.
  - rewrite fmap_cons in Hnot. apply not_elem_of_cons in Hnot as [Hne Hnot].
    simpl. rewrite bool_decide_eq_false_2 by done. by apply IH.
Qed.

Lemma posts_Create_spec db (post : Post) :
  (Repository.Create db post).2 = None ∧ (ID post ∉ ids db) ∧
    posts (Repository.Create db post).1 = posts db ++ [to_row post]
  ∨ (Repository.Create db post).2 ≠ None ∧
    posts (Repository.Create db post).1 = posts db.
Proof.
  unfold Repository.Create, exec_insert, ids.
  pose proof (next_fault_posts db) as Htab.
  destruct (next_fault db) as [[|] db1]; simpl in *; [by right|].
  rewrite Htab. case_bool_decide as Hin; simpl; [by right|]. by left.
Qed.

Lemma format_parse_format (t : Time) :
  repository.format_RFC3339
    (repository.parse_RFC3339 (repository.format_RFC3339 t))
  = repository.format_RFC3339 t.
Proof.
  unfold repository.parse_RFC3339, repository.format_RFC3339.
  by rewrite Z.div_mul.
Qed.

(** X25. A post created over gRPC is stored under the author the
    request names, unpinned, and [GetPost] with the id of the response
    answers with the very response that [CreatePost] gave, the text of
    [created_at] included, when the driver does not fail; when it does,
    [GetPost] answers NotFound like for a post that is not there. *)
Theorem grpc_post_round_trip env db req db1 pb :
  grpc_posts.CreatePost env db req = (db1, inr pb) →
  grpc_posts.RespAuthorId pb = grpc_posts.AuthorId req ∧
  grpc_posts.Id pb = uuid_New env ∧
  grpc_posts.IsPinned pb = false ∧
  posts db1 = posts db ++
    [ {| row_id := uuid_New env;
         row_title := grpc_posts.Title req;
         row_content := grpc_posts.Content req;
         row_author_id := grpc_posts.AuthorId req;
         row_category_id := grpc_posts.CategoryId req;
         row_is_pinned := false;
         row_created_at := repository.format_RFC3339 (time_Now env) |} ] ∧
  (grpc_posts.GetPost db1 (grpc_posts.Id pb)).2 =
    if fails_next db1 then inl grpc_posts.NotFound else inr pb.
Proof.
  unfold grpc_posts.CreatePost, UseCase.Create. simpl.
  set (post := {| ID := uuid_New env; Title := grpc_posts.Title req;
                  Content := grpc_posts.Content req;
                  AuthorID := grpc_posts.AuthorId req;
                  CategoryID := grpc_posts.CategoryId req;
                  IsPinned := false; CreatedAt := time_Now env |}).
  destruct (posts_Create_spec db post) as [(Hnone & Hfresh & Htab)|[Herr _]];
    destruct (Repository.Create db post) as [db' [e|]]; simpl in *;
    try done; intros Hcreate.
  injection Hcreate as -> <-. simpl. split_and!; try done.
  unfold grpc_posts.GetPost, UseCase.GetByID.
  destruct (posts_GetByID_spec db1 (uuid_New env)) as (_ & Hres).
  destruct (fails_next db1).
  - by destruct (Repository.GetByID db1 (uuid_New env)) as [db2 [e|p]];
      simpl in *; simplify_eq.
  - rewrite Htab in Hres.
    change (uuid_New env) with (row_id (to_row post)) in Hres at 2.
    rewrite find_post_fresh in Hres by done.
    destruct (Repository.GetByID db1 (uuid_New env)) as [db2 [e|p]];
      simpl in *; [done|].
    injection Hres as ->. unfold grpc_posts.to_pb. simpl.
    by rewrite format_parse_format.
Qed.

(** A post in bob's name, by whoever sent the request. *)
Lemma grpc_post_round_trip_witness :
  ∃ db1 pb,
    grpc_posts.CreatePost (sample_env 0) no_posts
      {| grpc_posts.Title := "title"; grpc_posts.Content := "content";
         grpc_posts.CategoryId := "1"; grpc_posts.AuthorId := "bob" |}
    = (db1, inr pb) ∧
    grpc_posts.RespAuthorId pb = "bob" ∧
    (grpc_posts.GetPost db1 (grpc_posts.Id pb)).2 = inr pb.
Proof.
  set (req := {| grpc_posts.Title := "title"; grpc_posts.Content := "content";
                 grpc_posts.CategoryId := "1"; grpc_posts.AuthorId := "bob" |}).
  destruct (grpc_posts.CreatePost (sample_env 0) no_posts req)
    as [db1 [e|pb]] eqn:Hcreate; [vm_compute in Hcreate; discriminate|].
  exists db1, pb. split; [reflexivity|].
  destruct (grpc_post_round_trip (sample_env 0) no_posts req db1 pb Hcreate)
    as (Hauthor & _ & _ & _ & Hget).
  split; [exact Hauthor|]. rewrite Hget.
  vm_compute in Hcreate. injection Hcreate as <- _. reflexivity.
Defined.

End grpc_post_facts.

(** * The delete route, answer by answer *)

Section delete_route.

Import httpdelivery.

Implicit Types (out : Outside) (r : HttpRequest) (db : posts.Repository.DB).

Lemma route_authenticated {St} out JWTSecret (next : Handler St) r st userID :
  Method (request r) ≠ "OPTIONS" → authenticated out JWTSecret r userID →
  enableCORS (JWT out JWTSecret next) r st
    = next (WithValue r "user_id" (VString userID)) st.
Proof.
  intros Hopt Hu. unfold enableCORS. rewrite bool_decide_eq_false_2 by done.
  destruct (JWT_cases out JWTSecret next r st)
    as [(_ & userID' & Hu' & ->)|[[? _]|(_ & Hnot & _)]]; try done.
  - by rewrite (authenticated_unique out JWTSecret r userID userID').
  - by destruct (Hnot userID).
Qed.

(** X26. The answers of the delete route to a caller whose token
    passes, for a post id that is a UUID, when the driver answers the
    first statement: 500 when no post has this id, so a missing post
    is no 404; 401 when the post is of another author; and, when the
    post is the caller's and the driver answers the second statement
    too, 204 with that post removed and no other. In the first two
    cases the table is as before. *)
Theorem delete_post_route_answers out jwtSecret r db userID id :
  Method (request r) ≠ "OPTIONS" →
  authenticated out jwtSecret r userID → userID ≠ "" →
  final_postID r = id → id ≠ "" → uuid_Parse out id = true →
  NoDup (posts.ids db) → posts.Repository.fails_next db = false →
  ∃ resp db',
    route_delete_post out jwtSecret r db = Responded resp db' ∧
    ((id ∉ posts.ids db) →
       resp = Status 500 ∧
       posts.Repository.posts db' = posts.Repository.posts db) ∧
    (∀ x, x ∈ posts.Repository.posts db → posts.Repository.row_id x = id →
       posts.Repository.row_author_id x ≠ userID →
       resp = Status 401 ∧
       posts.Repository.posts db' = posts.Repository.posts db) ∧
    (∀ x, x ∈ posts.Repository.posts db → posts.Repository.row_id x = id →
       posts.Repository.row_author_id x = userID →
       posts.Repository.fails_next (posts.Repository.next_fault db).2 = false →
       resp = Status 204 ∧
       posts.Repository.posts db'
         = filter (λ y, y ≠ x) (posts.Repository.posts db)).
Proof.
  intros Hopt Hu Hne <- Hid Huuid Hnd Hok. unfold route_delete_post.
  rewrite (route_authenticated out jwtSecret (DeletePost out) r db userID)
    by done.
  unfold DeletePost. rewrite WithValue_final_postID, WithValue_user_id.
  rewrite bool_decide_eq_false_2 by done. rewrite Huuid. simpl.
  rewrite bool_decide_eq_false_2 by done.
  unfold posts.UseCase.Delete.
  destruct (posts_GetByID_spec db (final_postID r)) as (Htab1 & Hres1).
  rewrite Hok in Hres1.
  assert (Hdb1 : (posts.Repository.GetByID db (final_postID r)).1
                 = (posts.Repository.next_fault db).2).
  { unfold posts.Repository.GetByID.
    destruct (posts.Repository.next_fault db) as [[|] db1]; simpl; [done|].
    match goal with |- context [List.find ?f ?l] => destruct (List.find f l) end;
      reflexivity. }
  destruct (posts.Repository.GetByID db (final_postID r)) as [db1 [e|post]];
    simpl in *.
  - (* no such post, or so the first statement says *)
    eexists _, _. split; [done|].
    destruct (List.find _ (posts.Repository.posts db)) as [r0|] eqn:Hfind;
      [done|]. injection Hres1 as ->.
    split_and!; [done|..]; intros x Hx Hidx; exfalso;
      rewrite <-Hidx, (find_post_unique _ x Hnd Hx) in Hfind; done.
  - destruct (List.find _ (posts.Repository.posts db)) as [r0|] eqn:Hfind;
      [|done]. injection Hres1 as ->. simpl.
    assert (Hr0 : r0 ∈ posts.Repository.posts db ∧
                  posts.Repository.row_id r0 = final_postID r).
    { apply find_some in Hfind as [Hin Hb]. split; [by apply list_elem_of_In|].
      by apply bool_decide_eq_true_1 in Hb. }
    destruct Hr0 as [Hin0 Hid0].
    assert (Hsame : ∀ x, x ∈ posts.Repository.posts db →
              posts.Repository.row_id x = final_postID r → x = r0).
    { intros x Hx Hidx.
      rewrite <-Hidx, (find_post_unique _ x Hnd Hx) in Hfind. congruence. }
    case_bool_decide as Hauthor; simpl.
    + (* the caller's post *)
      pose proof (posts_Delete_spec db1 (final_postID r)) as Hdel.
      assert (Hsecond : posts.Repository.fails_next db1 = false →
                (posts.Repository.Delete db1 (final_postID r)).2 = None).
      { unfold posts.Repository.Delete, posts.Repository.fails_next.
        destruct (posts.Repository.next_fault db1) as [[|] db2]; by simpl. }
      destruct (posts.Repository.Delete db1 (final_postID r))
        as [db2 [e|]]; simpl in *; eexists _, _; (split; [done|]).
      * split_and!.
        -- intros Hmissing. exfalso. apply Hmissing. rewrite <-Hid0.
           by apply list_elem_of_fmap_2.
        -- intros x Hx Hidx Hax. by rewrite (Hsame x Hx Hidx) in Hax.
        -- intros x Hx Hidx _ Hok2. rewrite <-Hdb1 in Hok2.
           by specialize (Hsecond Hok2).
      * split_and!.
        -- intros Hmissing. exfalso. apply Hmissing. rewrite <-Hid0.
           by apply list_elem_of_fmap_2.
        -- intros x Hx Hidx Hax. by rewrite (Hsame x Hx Hidx) in Hax.
        -- intros x Hx Hidx _ _. split; [done|].
           destruct Hdel as [[? _]|[_ ->]]; [done|]. rewrite Htab1.
           rewrite (Hsame x Hx Hidx).
           apply filter_ext_elem_of. intros y Hy. split.
           ++ intros Hne' ->. by apply Hne'.
           ++ intros Hne' Hidy. apply Hne'. apply (Hsame y Hy Hidy).
    + (* somebody else's *)
      eexists _, _. split; [done|]. split_and!.
      * intros Hmissing. exfalso. apply Hmissing. rewrite <-Hid0.
        by apply list_elem_of_fmap_2.
      * done.
      * intros x Hx Hidx Hax. by rewrite (Hsame x Hx Hidx) in Hax.
Qed.

(** Alice deletes her post: 204. *)
Lemma delete_post_route_answers_witness :
  ∃ db',
    route_delete_post sample_outside "secret" (alices_request "DELETE")
      sample_posts = Responded (Status 204) db' ∧
    posts.Repository.posts db' = [].
Proof.
  destruct (delete_post_route_answers sample_outside "secret"
              (alices_request "DELETE") sample_posts "alice" "p1")
    as (resp & db' & Hrun & _ & _ & Hdeleted);
    [discriminate|apply alice_authenticated|discriminate|reflexivity
    |discriminate|reflexivity|apply NoDup_sample_posts|reflexivity|].
  destruct (Hdeleted alices_post) as [-> Htab];
    [by left|reflexivity|reflexivity|reflexivity|].
  exists db'. split; [exact Hrun|]. rewrite Htab. reflexivity.
Defined.

End delete_route.
